(** * Band fitting and band-identity resolution of arpes.analysis.band_analysis

    A shallow embedding of the parts of [arpes/analysis/band_analysis.py]
    and [arpes/fits/fit_models/x_model_mixin.py] that drive the band
    fitting sweep.  Floating point intensities and coordinates are modelled
    as rationals [Q]; a Python exception is [None] in an option result. *)

From Stdlib Require Import QArith Qround Qminmax List String Bool Lia Permutation Arith Sorted Lqa ZArith.
Import ListNotations.

(** ** Small effect and container layer *)

Module Py.

(** Option as the error monad: [None] is a raised exception. *)
Definition bind {A B} (m : option A) (k : A -> option B) : option B :=
  match m with Some a => k a | None => None end.

Notation "x <- m ;; k" := (bind m (fun x => k))
  (at level 61, m at next level, right associativity).
Notation "' pat <- m ;; k" := (bind m (fun x => match x with pat => k end))
  (at level 61, pat pattern, m at next level, right associativity).

Fixpoint mapM {A B} (f : A -> option B) (l : list A) : option (list B) :=
  match l with
  | [] => Some []
  | a :: l' => b <- f a ;; bs <- mapM f l' ;; Some (b :: bs)
  end.

(** A Python [dict]: insertion ordered; assigning an existing key keeps its
    position and its original key object. *)
Section Dict.
Context {K V : Type} (keq : K -> K -> bool).

Fixpoint lookup (k : K) (d : list (K * V)) : option V :=
  match d with
  | [] => None
  | (k', v) :: d' => if keq k k' then Some v else lookup k d'
  end.

Fixpoint setitem (k : K) (v : V) (d : list (K * V)) : list (K * V) :=
  match d with
  | [] => [(k, v)]
  | (k', v') :: d' => if keq k k' then (k', v) :: d' else (k', v') :: setitem k v d'
  end.

(** [dict.update(other)]: assign every entry of [other] in its order. *)
Definition update (d other : list (K * V)) : list (K * V) :=
  fold_left (fun acc '(k, v) => setitem k v acc) other d.
End Dict.

(** Python float comparison on the model's rationals. *)
Definition qlt (a b : Q) : bool := negb (Qle_bool b a).

(** [x < d] where [d] may still be [float("inf")], written [None]. *)
Definition lt_inf (x : Q) (d : option Q) : bool :=
  match d with None => true | Some d => qlt x d end.

(** Equality of coordinate tuples (tuple [==] of floats). *)
Fixpoint tuple_eqb (a b : list Q) : bool :=
  match a, b with
  | [], [] => true
  | x :: a', y :: b' => Qeq_bool x y && tuple_eqb a' b'
  | _, _ => false
  end.

(** [np.array(a) - b] on two 1-d arrays; a shape mismatch raises. *)
Fixpoint vsub (a b : list Q) : option (list Q) :=
  match a, b with
  | [], [] => Some []
  | x :: a', y :: b' => r <- vsub a' b' ;; Some ((x - y)%Q :: r)
  | _, _ => None
  end.

(** [np.dot] of two 1-d arrays; a shape mismatch raises. *)
Fixpoint dot (a b : list Q) : option Q :=
  match a, b with
  | [], [] => Some 0%Q
  | x :: a', y :: b' => r <- dot a' b' ;; Some (x * y + r)%Q
  | _, _ => None
  end.

End Py.

Import Py.

(** ** [fit_bands]: nearest-neighbour prior selection (lines 507-537) *)

Module FitBands.

(** The body of the inner loop over [all_fit_parameters.items()]:

    for c, v in all_fit_parameters.items():
        delta = np.array(c) - frozen_coordinate
        current_distance = delta.dot(delta)
        if current_distance < dist and direction == "mdc":
            closest_model_params = v

    The state is [(closest_model_params, dist)]; the source never assigns
    [dist] inside the loop, so it stays [float("inf")]. *)
Definition select_prior {P : Type} (direction : string) (initial_fits : P)
    (cache : list (list Q * P)) (frozen : list Q) : option P :=
  let step (acc : option (P * option Q)) (cv : list Q * P) :=
    let '(c, v) := cv in
    '(closest, dist) <- acc ;;
    delta <- vsub c frozen ;;
    current_distance <- dot delta delta ;;
    if lt_inf current_distance dist && String.eqb direction "mdc"
    then Some (v, dist) else Some (closest, dist) in
  '(closest, _) <- fold_left step cache (Some (initial_fits, None)) ;;
  Some closest.

Section Sweep.
Variables Params Marginal : Type.
(** [composite_model.fit(marginal.values, make_params(...prior...), x=...)]:
    the lmfit fit, abstract. *)
Variable fit : Marginal -> Params -> Params.

(** The sweep of lines 507-537.  Each marginal comes with its coordinate
    dict; [template_dims] orders the frozen coordinate.  The result lists,
    per marginal, its frozen coordinate, the prior handed to the fit and the
    fit result; the final cache is returned as well. *)
Fixpoint sweep (direction : string) (template_dims : list string)
    (initial_fits : Params) (all_fit_parameters : list (list Q * Params))
    (ms : list (Marginal * list (string * Q)))
    : option (list (list Q * Params * Params) * list (list Q * Params)) :=
  match ms with
  | [] => Some ([], all_fit_parameters)
  | (marginal, coordinate) :: ms' =>
      frozen <- mapM (fun k => lookup String.eqb k coordinate) template_dims ;;
      closest <- select_prior direction initial_fits all_fit_parameters frozen ;;
      let fit_result := fit marginal closest in
      '(rows, cache) <- sweep direction template_dims initial_fits
                           (setitem tuple_eqb frozen fit_result all_fit_parameters) ms' ;;
      Some ((frozen, closest, fit_result) :: rows, cache)
  end.
End Sweep.

Arguments sweep {Params Marginal} fit direction template_dims initial_fits all_fit_parameters ms.

(** The selection the specification describes: the first cache entry of
    least squared distance, the reference initial fits when the cache is
    empty. *)
Definition spec_nearest_prior {P : Type} (initial_fits : P)
    (cache : list (list Q * P)) (frozen : list Q) : option P :=
  let step (acc : option (P * option Q)) (cv : list Q * P) :=
    let '(c, v) := cv in
    '(closest, dist) <- acc ;;
    delta <- vsub c frozen ;;
    d <- dot delta delta ;;
    if lt_inf d dist then Some (v, Some d) else Some (closest, dist) in
  '(closest, _) <- fold_left step cache (Some (initial_fits, None)) ;;
  Some closest.

(** Three marginals along [kp], at 0, 5 and 1, used by the examples. *)
Definition c1_marginals : list (nat * list (string * Q)) :=
  [(10%nat, [("kp"%string, 0%Q)]); (20%nat, [("kp"%string, 5%Q)]); (30%nat, [("kp"%string, 1%Q)])].

End FitBands.

(** ** [itertools.permutations] *)

Module Itertools.

(** Each element of [l] with the list of the others, in order. *)
Fixpoint picks {A} (l : list A) : list (A * list A) :=
  match l with
  | [] => []
  | x :: l' => (x, l') :: map (fun '(y, r) => (y, x :: r)) (picks l')
  end.

(** [itertools.permutations(l)] as documented: "emitted in lexicographic
    order according to the order of the input iterable".  The fuel is the
    List.length of the list. *)
Fixpoint perms_fuel {A} (n : nat) (l : list A) : list (list A) :=
  match n with
  | O => [[]]
  | S n' =>
      match l with
      | [] => [[]]
      | _ => flat_map (fun '(x, r) => map (cons x) (perms_fuel n' r)) (picks l)
      end
  end.

Definition permutations {A} (l : list A) : list (list A) := perms_fuel (List.length l) l.

End Itertools.

(** ** [unpack_bands_from_fit]: band-identity resolution (lines 128-199) *)

Module Unpack.
Import Itertools.

(** An lmfit parameter: value and standard error. *)
Record FitParam := { value : Q; stderr : Q }.

(** A fit result: the prefixes of its model's components, in the order
    lmfit lists them, and its parameters by prefix-qualified name. *)
Record FitResult := { components : list string; params : list (string * FitParam) }.

(** [as_vector]: (sigma, amplitude, center) * weights / (1 + stderr). *)
Definition as_vector (weights : Q * Q * Q) (model_fit : FitResult) (prefix : string)
    : option (list Q) :=
  let '(w_s, w_a, w_c) := weights in
  s <- lookup String.eqb (prefix ++ "sigma")%string (params model_fit) ;;
  a <- lookup String.eqb (prefix ++ "amplitude")%string (params model_fit) ;;
  c <- lookup String.eqb (prefix ++ "center")%string (params model_fit) ;;
  Some [(value s * w_s / (1 + stderr s))%Q;
        (value a * w_a / (1 + stderr a))%Q;
        (value c * w_c / (1 + stderr c))%Q].

(** [sum(dist_mat[i, p_i] for i, p_i in enumerate(p))]; [dist_mat] is read
    with the default 0 of [np.zeros] outside the filled square. *)
Definition mat_get (dist_mat : list (list Q)) (i j : nat) : Q :=
  nth j (nth i dist_mat []) 0%Q.

Definition trace (dist_mat : list (list Q)) (p : list nat) : Q :=
  fold_left (fun acc '(i, p_i) => (acc + mat_get dist_mat i p_i)%Q)
    (combine (seq 0 (List.length p)) p) 0%Q.

(** Lines 190-196: the first permutation of least trace. *)
Definition best_arrangement (k : nat) (dist_mat : list (list Q)) : list nat :=
  fst (fold_left
         (fun '(best_arrangement, best_trace) p =>
            let tr := trace dist_mat p in
            if lt_inf tr best_trace then (p, Some tr) else (best_arrangement, best_trace))
         (permutations (seq 0 k)) (seq 0 k, None)).

(** The pool [identified_by_coordinate]: frozen coordinate to
    (ordered prefixes, fit result). *)
Definition Pool := list (list Q * (list string * FitResult)).

(** Lines 164-170: the entry of least [np.dot(coord, frozen_coord)], the
    first one on ties; [None] when the pool is empty. *)
Definition closest_step (frozen : list Q)
    (acc : option (option (list string * FitResult) * option Q))
    (entry : list Q * (list string * FitResult)) :=
  let '(coord, identified_band) := entry in
  '(closest, dist) <- acc ;;
  current_dist <- dot coord frozen ;;
  if lt_inf current_dist dist
  then Some (Some identified_band, Some current_dist)
  else Some (closest, dist).

Definition closest_by_dot (pool : Pool) (frozen : list Q)
    : option (option (list string * FitResult)) :=
  '(closest, _) <- fold_left (closest_step frozen) pool (Some (None, None)) ;;
  Some closest.

Section Resolve.
(** [scipy.spatial.distance.euclidean], abstract. *)
Variable euclid : list Q -> list Q -> Q.
Variable weights : Q * Q * Q.

(** Lines 178-188. *)
Definition build_dist_mat (prefixes : list string) (fit_result : FitResult)
    (closest_prefixes : list string) (closest_fit : FitResult) : option (list (list Q)) :=
  let k := List.length prefixes in
  mapM (fun i =>
    mapM (fun j =>
      p_i <- nth_error prefixes i ;;
      v1 <- as_vector weights fit_result p_i ;;
      p_j <- nth_error closest_prefixes j ;;
      v2 <- as_vector weights closest_fit p_j ;;
      Some (euclid v1 v2)) (seq 0 k)) (seq 0 k).

(** One iteration of the loop of lines 161-199, for the slice with frozen
    coordinate [frozen] and fit [fit_result]: the recorded prefixes, the
    new pool, and whether the slice set [first_coordinate]. *)
Definition resolve_slice (prefixes : list string) (pool : Pool) (frozen : list Q)
    (fit_result : FitResult) : option (list string * Pool * bool) :=
  closest <- closest_by_dot pool frozen ;;
  let '(is_first, closest_identified, pool1) :=
    match closest with
    | None => let c := (components fit_result, fit_result) in
              (true, c, setitem tuple_eqb frozen c pool)
    | Some c => (false, c, pool)
    end in
  let '(closest_prefixes, closest_fit) := closest_identified in
  dist_mat <- build_dist_mat prefixes fit_result closest_prefixes closest_fit ;;
  let best := best_arrangement (List.length prefixes) dist_mat in
  ordered_prefixes <- mapM (nth_error closest_prefixes) best ;;
  Some (ordered_prefixes, setitem tuple_eqb frozen (ordered_prefixes, fit_result) pool1,
        is_first).

(** [identified_band_results.loc[coordinate] = value] (line 199), as
    xarray's [Variable.__setitem__] does it: the value is turned into an
    array ([np.asarray]), and one with more dimensions than the indexing
    result raises [ValueError] ("shape mismatch").  [coordinate] comes from
    [enumerate_dataarray] and holds one scalar label per dimension, so every
    dimension it names is indexed away; a Python list of prefixes becomes a
    1-d array, [value_ndim = 1]. *)
Definition loc_setitem (dims : list string) (coordinate : list (string * Q))
    (value_ndim : nat) : option unit :=
  let remaining := filter (fun d => negb (existsb (String.eqb d) (map fst coordinate))) dims in
  if Nat.ltb (List.length remaining) value_ndim then None else Some tt.

(** The loop over [enumerate_dataarray(band_results)]: each cell's
    coordinate dict and fit; [dims] orders the frozen coordinate.
    Returns the writes [identified_band_results.loc[coordinate] = ...],
    the pool and [first_coordinate]. *)
Fixpoint resolve_loop (dims : list string) (prefixes : list string) (pool : Pool)
    (first_coordinate : option (list (string * Q)))
    (cells : list (list (string * Q) * FitResult))
    : option (list (list (string * Q) * list string) * Pool * option (list (string * Q))) :=
  match cells with
  | [] => Some ([], pool, first_coordinate)
  | (coordinate, fit_result) :: cells' =>
      frozen <- mapM (fun d => lookup String.eqb d coordinate) dims ;;
      '(ordered, pool', is_first) <- resolve_slice prefixes pool frozen fit_result ;;
      let first' := if is_first then Some coordinate else first_coordinate in
      _ <- loc_setitem dims coordinate 1 ;;
      '(rows, pool'', first'') <- resolve_loop dims prefixes pool' first' cells' ;;
      Some ((coordinate, ordered) :: rows, pool'', first'')
  end.

(** [unpack_bands_from_fit] up to the band extraction: [template] is
    [band_results.values[0]], whose component prefixes are [prefixes]. *)
Definition identify_bands (template : FitResult) (dims : list string)
    (cells : list (list (string * Q) * FitResult)) :=
  resolve_loop dims (components template) [] None cells.
End Resolve.

(** *** Example inputs *)

Definition ex_param (v : Q) : FitParam := {| value := v; stderr := 0 |}.

(** A two-component fit, prefixes [a_] and [b_], with the given centers. *)
Definition ex_fit (ca cb : Q) : FitResult :=
  {| components := ["a_"; "b_"]%string;
     params := [("a_sigma"%string, ex_param 1); ("a_amplitude"%string, ex_param 1);
                ("a_center"%string, ex_param ca); ("b_sigma"%string, ex_param 1);
                ("b_amplitude"%string, ex_param 1); ("b_center"%string, ex_param cb)] |}.

(** Squared Euclidean distance. *)
Definition ex_euclid (u v : list Q) : Q :=
  fold_left Qplus (map (fun '(a, b) => ((a - b) * (a - b))%Q) (combine u v)) 0%Q.

(** Two slices along [x] whose fits have swapped centers. *)
Definition ex_cells : list (list (string * Q) * FitResult) :=
  [([("x"%string, 0%Q)], ex_fit 0 1); ([("x"%string, 1%Q)], ex_fit 1 0)].

End Unpack.

(** ** Labelled arrays and [_iterate_marginals] (lines 582-593) *)

Module Xr.

(** An [xr.DataArray]: named dimensions, a coordinate vector per dimension,
    and the intensity at each full coordinate assignment. *)
Record DataArray := {
  dims : list string;
  coords : list (string * list Q);
  values : list (string * Q) -> Q }.

(** [arr.coords[d]]; a missing name raises [KeyError]. *)
Definition coord (arr : DataArray) (d : string) : option (list Q) :=
  lookup String.eqb d (coords arr).

(** [arr.sel(selectors)] with one scalar per selected dimension: the
    dimension must exist and the value be one of its coordinates, else
    [KeyError]; the selected dimensions are dropped. *)
Definition sel (arr : DataArray) (selectors : list (string * Q)) : option DataArray :=
  let picked d := existsb (String.eqb d) (map fst selectors) in
  if forallb (fun '(d, v) =>
                existsb (String.eqb d) (dims arr) &&
                match coord arr d with
                | Some cs => existsb (Qeq_bool v) cs
                | None => false
                end) selectors
  then Some {| dims := filter (fun d => negb (picked d)) (dims arr);
               coords := filter (fun '(d, _) => negb (picked d)) (coords arr);
               values := fun c => values arr (selectors ++ c) |}
  else None.

(** [list.remove(x)]: drop the first occurrence; [ValueError] if absent. *)
Fixpoint list_remove (x : string) (l : list string) : option (list string) :=
  match l with
  | [] => None
  | y :: l' => if String.eqb x y then Some l'
               else r <- list_remove x l' ;; Some (y :: r)
  end.

(** [itertools.product] of the lists: the last one varies fastest. *)
Fixpoint product {A} (ls : list (list A)) : list (list A) :=
  match ls with
  | [] => [[]]
  | l :: ls' => flat_map (fun x => map (cons x) (product ls')) l
  end.

(** [dict(zip(keys, vals, strict=True))]. *)
Definition dict_zip (keys : list string) (vals : list Q) : list (string * Q) :=
  fold_left (fun acc '(k, v) => setitem String.eqb k v acc) (combine keys vals) [].

(** [_iterate_marginals(arr, iterate_directions)], materialised. *)
Definition iterate_marginals (arr : DataArray) (iterate_directions : option (list string))
    : option (list (DataArray * list (string * Q))) :=
  ds <- match iterate_directions with
        | Some ds => Some ds
        | None => list_remove "eV" (dims arr)
        end ;;
  selectors <- mapM (coord arr) ds ;;
  mapM (fun ss => let cs := dict_zip ds ss in
                  m <- sel arr cs ;; Some (m, cs))
       (product selectors).

Fixpoint prod_lengths (ls : list (list Q)) : nat :=
  match ls with [] => 1 | l :: ls' => List.length l * prod_lengths ls' end.

(** *** Example inputs *)

(** A spectrum over [kp] (two values) and [eV] (five values), with intensity
    [eV * eV], and one of its [eV] marginals. *)
Definition ex_intensity (c : list (string * Q)) : Q :=
  match lookup String.eqb "eV"%string c with Some e => (e * e)%Q | None => 0%Q end.

Definition ex_spectrum : DataArray :=
  {| dims := ["kp"; "eV"]%string;
     coords := [("kp"%string, [0; 1]%Q); ("eV"%string, [0; 1; 2; 3; 4]%Q)];
     values := ex_intensity |}.

End Xr.

(** ** Patterned mode: [fit_patterned_bands] and its helpers *)

Module Pattern.
Import Xr.

(** *** [_is_between] and [_interpolate_intersecting_fragments] *)

Definition is_between (x y0 y1 : Q) : bool :=
  let lo := Qmin y0 y1 in
  let hi := Qmax y0 y1 in
  Qle_bool lo x && Qle_bool x hi.

(** Indexing a 2-tuple with a Python [int], negative indices included. *)
Definition tup_get (p : Q * Q) (i : Z) : option Q :=
  match i with
  | 0%Z => Some (fst p)
  | 1%Z => Some (snd p)
  | (-1)%Z => Some (snd p)
  | (-2)%Z => Some (fst p)
  | _ => None
  end.

(** [itertools.pairwise]. *)
Definition pairwise {A} (l : list A) : list (A * A) := combine l (tl l).

(** A numpy [float64]: a rational, or [nan]. *)
Inductive PyFloat := Fl (q : Q) | NaN.

(** One pair [(point_low, point_high)] of the loop of lines 558-579: the
    interpolated [(coord, center)] when [coord] is inside, else [None].
    [coord] is a coordinate of a slice, a numpy [float64] scalar: a pair
    with [check_coord_low == check_coord_high] (both then equal to [coord])
    takes the second branch, where [(coord - check_coord_high) /
    (check_coord_low - check_coord_high)] is [0.0 / 0.0], [nan], and so is
    the center. *)
Definition fragment (coord : Q) (coord_index : Z) (pair : (Q * Q) * (Q * Q))
    : option (option (Q * PyFloat)) :=
  let '(point_low, point_high) := pair in
  let coord_other_index := (1 - coord_index)%Z in
  check_coord_low <- tup_get point_low coord_index ;;
  check_coord_high <- tup_get point_high coord_index ;;
  if is_between coord check_coord_low check_coord_high then
    low_other <- tup_get point_low coord_other_index ;;
    high_other <- tup_get point_high coord_other_index ;;
    if qlt check_coord_low check_coord_high then
      Some (Some (coord, Fl
        ((coord - check_coord_low) / (check_coord_high - check_coord_low)
         * (high_other - low_other) + low_other)%Q))
    else if Qeq_bool check_coord_low check_coord_high then
      Some (Some (coord, NaN))
    else
      Some (Some (coord, Fl
        ((coord - check_coord_high) / (check_coord_low - check_coord_high)
         * (low_other - high_other) + high_other)%Q))
  else Some None.

(** [list(_interpolate_intersecting_fragments(coord, coord_index, points))]:
    [points[0]] raises [IndexError] on an empty list. *)
Definition interpolate_intersecting_fragments (coord : Q) (coord_index : Z)
    (points : list (Q * Q)) : option (list (Q * PyFloat)) :=
  match points with
  | [] => None
  | _ => fs <- mapM (fragment coord coord_index) (pairwise points) ;;
         Some (flat_map (fun o => match o with Some f => [f] | None => [] end) fs)
  end.

(** The linear interpolation the specification names, between the
    patterning/center pairs [(x0, y0)] and [(x1, y1)]. *)
Definition spec_lerp (x0 y0 x1 y1 x : Q) : Q := (y0 + (x - x0) / (x1 - x0) * (y1 - y0))%Q.

(** The patterning coordinate and the center of a control point whose
    patterning coordinate sits at tuple index [k] (0 or 1), [k] being the
    position of the patterning dimension in [arr.dims]. *)
Definition pattern_coord (k : nat) (p : Q * Q) : Q := if Nat.eqb k 0 then fst p else snd p.
Definition pattern_center (k : nat) (p : Q * Q) : Q := if Nat.eqb k 0 then snd p else fst p.

(** *** Python objects shared through a heap *)

(** A value stored in a dict: a number, a reference to another dict,
    [None], or [nan]. *)
Inductive PyVal := VNum (q : Q) | VRef (l : nat) | VNone | VNaN.

(** A float stored in a dict. *)
Definition pyfloat (x : PyFloat) : PyVal := match x with Fl q => VNum q | NaN => VNaN end.

(** [x + q] for a float [x] and a rational [q]; [nan] stays [nan]. *)
Definition fl_add (x : PyFloat) (q : Q) : PyFloat := match x with Fl y => Fl (y + q) | NaN => NaN end.

Definition PyDict := list (string * PyVal).

Record Heap := { next_loc : nat; store : list (nat * PyDict) }.

(** State and error: [None] is a raised exception. *)
Definition St (A : Type) := Heap -> option (A * Heap).

Definition sret {A} (a : A) : St A := fun h => Some (a, h).
Definition sbind {A B} (m : St A) (k : A -> St B) : St B :=
  fun h => match m h with Some (a, h') => k a h' | None => None end.
Definition lift {A} (o : option A) : St A :=
  fun h => match o with Some a => Some (a, h) | None => None end.

Notation "x <-- m ;;; k" := (sbind m (fun x => k))
  (at level 61, m at next level, right associativity).

Fixpoint mapSt {A B} (f : A -> St B) (l : list A) : St (list B) :=
  match l with
  | [] => sret []
  | a :: l' => b <-- f a ;;; bs <-- mapSt f l' ;;; sret (b :: bs)
  end.

(** A fresh dict literal. *)
Definition alloc (d : PyDict) : St nat :=
  fun h => Some (next_loc h, {| next_loc := S (next_loc h);
                                store := setitem Nat.eqb (next_loc h) d (store h) |}).

Definition load (l : nat) : St PyDict :=
  fun h => match lookup Nat.eqb l (store h) with Some d => Some (d, h) | None => None end.

Definition write (l : nat) (d : PyDict) : St unit :=
  fun h => Some (tt, {| next_loc := next_loc h; store := setitem Nat.eqb l d (store h) |}).

(** [d[k] = v]. *)
Definition dset (l : nat) (k : string) (v : PyVal) : St unit :=
  d <-- load l ;;; write l (setitem String.eqb k v d).

(** [d[k]]; [KeyError] when absent. *)
Definition dgetitem (l : nat) (k : string) : St PyVal :=
  d <-- load l ;;; lift (lookup String.eqb k d).

(** [d.get(k, default)]. *)
Definition dget (l : nat) (k : string) (default : PyVal) : St PyVal :=
  d <-- load l ;;; sret (match lookup String.eqb k d with Some v => v | None => default end).

(** A dict-valued entry used as a dict; anything else raises [TypeError]. *)
Definition as_ref (v : PyVal) : option nat :=
  match v with VRef l => Some l | _ => None end.

(** *** [np.percentile] (linear interpolation) and label slicing *)

Fixpoint insert_sorted (x : Q) (l : list Q) : list Q :=
  match l with
  | [] => [x]
  | y :: l' => if Qle_bool x y then x :: l else y :: insert_sorted x l'
  end.

Definition sort_q (l : list Q) : list Q := fold_right insert_sorted [] l.

(** [np.percentile(a, q)]; an empty array raises [IndexError]. *)
Definition percentile (a : list Q) (q : Q) : option Q :=
  let s := sort_q a in
  match s with
  | [] => None
  | _ =>
      let h := (q / 100 * inject_Z (Z.of_nat (List.length s - 1)))%Q in
      let i := Z.to_nat (Qfloor h) in
      let lo := nth i s 0%Q in
      let hi := nth (S i) s lo in
      Some (lo + (h - inject_Z (Z.of_nat i)) * (hi - lo))%Q
  end.

Fixpoint sorted_by (le : Q -> Q -> bool) (l : list Q) : bool :=
  match l with
  | x :: (y :: _) as l' => le x y && sorted_by le l'
  | _ => true
  end.

(** The positions of the index labels equal to [x]. *)
Definition label_positions (cs : list Q) (x : Q) : list nat :=
  map fst (filter (fun ic => Qeq_bool (snd ic) x) (combine (seq 0 (List.length cs)) cs)).

Definition count_where (f : Q -> bool) (cs : list Q) : nat := List.length (filter f cs).

(** pandas' [Index.get_slice_bound(label, side)], [left] for the side
    ["left"]: a label of the index gives the first of its positions (left)
    or one past the last (right), [KeyError] when they are not contiguous;
    another label is placed by [searchsorted] on a monotonic index
    (increasing tested first), [KeyError] on a non-monotonic one.  numpy's
    [searchsorted] places [nan] after every number. *)
Definition get_slice_bound (cs : list Q) (label : PyFloat) (left : bool) : option nat :=
  let inc := sorted_by Qle_bool cs in
  let dec := sorted_by (fun a b => Qle_bool b a) cs in
  match label with
  | NaN => if inc then Some (List.length cs) else if dec then Some 0%nat else None
  | Fl x =>
      match label_positions cs x with
      | (p :: _) as pos =>
          if Nat.eqb (S (last pos p - p)) (List.length pos)
          then Some (if left then p else S (last pos p)) else None
      | [] =>
          if inc then
            Some (count_where (fun c => if left then negb (Qle_bool x c) else Qle_bool c x) cs)
          else if dec then
            Some (count_where (fun c => if left then negb (Qle_bool c x) else Qle_bool x c) cs)
          else None
      end
  end.

(** [marginal.sel({marginal.dims[0]: slice(lo, hi)}).values] on a 1-d
    array: the positional slice [values[a:b]] between the bounds
    [get_slice_bound(lo, "left")] and [get_slice_bound(hi, "right")]. *)
Definition slice_values (marginal : DataArray) (lo hi : PyFloat) : option (list Q) :=
  d0 <- hd_error (dims marginal) ;;
  cs <- coord marginal d0 ;;
  a <- get_slice_bound cs lo true ;;
  b <- get_slice_bound cs hi false ;;
  Some (map (fun c => values marginal [(d0, c)]) (firstn (b - a) (skipn a cs))).

(** *** [_build_params] (lines 596-629) *)

Definition build_params (params : nat) (center : PyFloat) (center_stray : option Q)
    (marginal : option DataArray) : St nat :=
  inner <-- alloc [("value"%string, pyfloat center)] ;;;
  _ <-- dset params "center" (VRef inner) ;;;
  match center_stray with
  | None => sret params
  | Some s =>
      c <-- dgetitem params "center" ;;;
      c <-- lift (as_ref c) ;;;
      _ <-- dset c "min" (pyfloat (fl_add center (- s))) ;;;
      _ <-- dset c "max" (pyfloat (fl_add center s)) ;;;
      fresh <-- alloc [] ;;;
      sg <-- dget params "sigma" (VRef fresh) ;;;
      _ <-- dset params "sigma" sg ;;;
      sg <-- lift (as_ref sg) ;;;
      _ <-- dset sg "value" (VNum s) ;;;
      match marginal with
      | None => sret params
      | Some m =>
          near_center <-- lift (slice_values m (fl_add center (- ((6 # 5) * s)))
                                               (fl_add center ((6 # 5) * s))) ;;;
          low <-- lift (percentile near_center 20) ;;;
          high <-- lift (percentile near_center 80) ;;;
          fresh' <-- alloc [] ;;;
          am <-- dget params "amplitude" (VRef fresh') ;;;
          _ <-- dset params "amplitude" am ;;;
          am <-- lift (as_ref am) ;;;
          _ <-- dset am "value" (VNum (high - low)) ;;;
          sret params
      end
  end.

(** *** [resolve_partial_bands_from_description] (lines 304-337) *)

(** The [band] entry of a band description: a band class, or a value that
    is not callable ([None], [False]). *)
Inductive BandCls := BandClass (cls : string) | NotABand.

(** One value of [band_set]: the keyword arguments [name], [band], [dims],
    [params] (a dict on the heap) and [points]. *)
Record BandDesc := {
  bd_name : string;
  bd_band : BandCls;
  bd_dims : option (list string);
  bd_params : option nat;
  bd_points : option (list (Q * Q)) }.

(** A partial band [{"band": ..., "name": ..., "params": ...}]. *)
Record PartialBand := { pb_band : BandCls; pb_name : string; pb_params : nat }.

(** [list.index]; [ValueError] when absent. *)
Fixpoint index_of (x : string) (l : list string) : option nat :=
  match l with
  | [] => None
  | y :: l' => if String.eqb x y then Some 0%nat else i <- index_of x l' ;; Some (S i)
  end.

Fixpoint digits (fuel n : nat) (acc : string) : string :=
  match fuel with
  | 0%nat => acc
  | S f =>
      let acc' := String (Ascii.ascii_of_nat (48 + n mod 10)) acc in
      if Nat.ltb n 10 then acc' else digits f (n / 10) acc'
  end.

(** [str(i)] for a non-negative [int]. *)
Definition nat_to_string (n : nat) : string := digits (S n) n EmptyString.

(** The pure part of the resolution: the patterning coordinate and the
    fragments interpolated there ([next] raises [StopIteration] when no
    dimension of the band is in [coord_dict]). *)
Definition band_fragments (arr_dims : list string) (coord_dict : list (string * Q))
    (bd : BandDesc) : option (list (Q * PyFloat)) :=
  let dims := match bd_dims bd with Some d => d | None => [] end in
  coord_name <- List.find (fun d => existsb (String.eqb d) (map fst coord_dict)) dims ;;
  c <- lookup String.eqb coord_name coord_dict ;;
  i <- index_of coord_name arr_dims ;;
  interpolate_intersecting_fragments c (Z.of_nat i)
    (match bd_points bd with Some p => p | None => [] end).

(** [params.get("stray", stray)]; a dict there makes [center - center_stray]
    raise [TypeError].  A [nan] there puts [nan] bounds on the amplitude
    window, which then holds no value (or raises on a non-monotonic index),
    and [np.percentile] of an empty array raises [IndexError]: the
    resolution always passes a marginal, so it raises. *)
Definition stray_arg (d : PyDict) (stray : option Q) : option (option Q) :=
  match lookup String.eqb "stray"%string d with
  | None => Some stray
  | Some (VNum q) => Some (Some q)
  | Some VNone => Some None
  | Some (VRef _) => None
  | Some VNaN => None
  end.

Fixpoint enumerate_from {A} (i : nat) (l : list A) : list (nat * A) :=
  match l with [] => [] | a :: l' => (i, a) :: enumerate_from (S i) l' end.

(** One element of the list comprehension of lines 325-336. *)
Definition partial_band_of (stray : option Q) (marginal : DataArray) (bd : BandDesc)
    (params : nat) : nat * (Q * PyFloat) -> St PartialBand :=
  fun '(i, (_, band_center)) =>
    d <-- load params ;;;
    center_stray <-- lift (stray_arg d stray) ;;;
    p <-- build_params params band_center center_stray (Some marginal) ;;;
    sret {| pb_band := bd_band bd;
            pb_name := (bd_name bd ++ "_" ++ nat_to_string i)%string;
            pb_params := p |}.

Definition resolve_partial_bands (arr_dims : list string) (stray : option Q)
    (coord_dict : list (string * Q)) (marginal : DataArray) (bd : BandDesc)
    : St (list PartialBand) :=
  params <-- match bd_params bd with Some l => sret l | None => alloc [] end ;;;
  partial_band_locations <-- lift (band_fragments arr_dims coord_dict bd) ;;;
  mapSt (partial_band_of stray marginal bd params) (enumerate_from 0 partial_band_locations).

(** *** [_instantiate_band] (lines 416-423) *)

(** An lmfit model built by [fit_cls(prefix=name)] and the calls
    [set_param_hint(name, **params)] made on it, in order.  What lmfit does
    with a call (strip the prefix from [name], keep the keys [value],
    [vary], [min], [max] and [expr], merge them into the hints of the
    class) is part of the abstract fit. *)
Record Model := { m_cls : string; m_prefix : string; m_hint_calls : list (string * PyDict) }.

Definition instantiate_band (pb : PartialBand) : St Model :=
  match pb_band pb with
  | NotABand => lift None
  | BandClass c =>
      d <-- load (pb_params pb) ;;;
      hints <-- mapSt (fun '(k, v) =>
                         if String.eqb k "stray"%string then sret None
                         else r <-- lift (as_ref v) ;;; hd <-- load r ;;; sret (Some (k, hd)))
                      d ;;;
      sret {| m_cls := c; m_prefix := pb_name pb;
              m_hint_calls := flat_map (fun o => match o with Some x => [x] | None => [] end) hints |}
  end.

(** *** The sweep of [fit_patterned_bands] (lines 339-398) *)

(** Modelled from the spec: [arr.G.iterate_axis(free_directions)] yields
    one [(coord_dict, marginal)] per combination of free-axis coordinate
    values, in row-major order over the free-axis coordinate lists. *)
Definition iterate_axis (arr : DataArray) (free : list string)
    : option (list (list (string * Q) * DataArray)) :=
  selectors <- mapM (coord arr) free ;;
  mapM (fun ss => let cd := dict_zip free ss in m <- sel arr cd ;; Some (cd, m))
       (product selectors).

(** A labelled grid over the free directions: one cell per coordinate tuple. *)
Definition Grid (V : Type) := list (list Q * V).

(** The coordinate tuple of [coord_dict] in the order of the grid's dims. *)
Definition grid_key (free : list string) (cd : list (string * Q)) : option (list Q) :=
  mapM (fun d => lookup String.eqb d cd) free.

(** [grid.loc[coords] = v]: every cell labelled [coords]; [KeyError] when none is. *)
Definition loc_set {V} (k : list Q) (v : V) (g : Grid V) : option (Grid V) :=
  if existsb (fun kc => tuple_eqb k (fst kc)) g
  then Some (map (fun '(k', c) => if tuple_eqb k k' then (k', v) else (k', c)) g)
  else None.

(** [grid.sel(coords).item()]: exactly one cell must carry the label. *)
Definition sel_item {V} (k : list Q) (g : Grid V) : option V :=
  match filter (fun kc => tuple_eqb k (fst kc)) g with
  | [(_, c)] => Some c
  | _ => None
  end.

Section Sweep.
Variable FitRes : Type.
(** [functools.reduce(add, internal_models)], [make_params] and [fit] on
    [marginal]. *)
Variable fit : list Model -> DataArray -> option FitRes.
(** [fit_item.residual]. *)
Variable residual_of : FitRes -> list Q.

Definition slice_partial_bands (arr_dims : list string) (stray : option Q)
    (background : BandCls) (coord_dict : list (string * Q)) (marginal : DataArray)
    (band_set : list (string * BandDesc)) : St (list (list PartialBand)) :=
  partial_bands <-- mapSt (resolve_partial_bands arr_dims stray coord_dict marginal)
                          (map snd band_set) ;;;
  let partial_bands := filter (fun p => negb (Nat.eqb (List.length p) 0)) partial_bands in
  match partial_bands with
  | [] => sret []
  | _ => bg <-- alloc [] ;;;
         sret (app partial_bands [[{| pb_band := background; pb_name := EmptyString;
                                      pb_params := bg |}]])
  end.

(** The body of the loop over the slices, up to the grid assignment. *)
Definition slice_cell (arr_dims : list string) (stray : option Q) (background : BandCls)
    (band_set : list (string * BandDesc)) (coord_dict : list (string * Q))
    (marginal : DataArray) : St (option FitRes) :=
  partial_bands <-- slice_partial_bands arr_dims stray background coord_dict marginal band_set ;;;
  internal_models <-- mapSt instantiate_band (List.concat partial_bands) ;;;
  match internal_models with
  | [] => sret None
  | _ => r <-- lift (fit internal_models marginal) ;;; sret (Some r)
  end.

Fixpoint sweep_slices (arr_dims free : list string) (stray : option Q)
    (background : BandCls) (band_set : list (string * BandDesc))
    (slices : list (list (string * Q) * DataArray)) (g : Grid (option FitRes))
    : St (Grid (option FitRes)) :=
  match slices with
  | [] => sret g
  | (cd, m) :: rest =>
      cell <-- slice_cell arr_dims stray background band_set cd m ;;;
      k <-- lift (grid_key free cd) ;;;
      g' <-- lift (loc_set k cell g) ;;;
      sweep_slices arr_dims free stray background band_set rest g'
  end.

(** The residual loop (lines 385-391): a [None] cell is skipped, and an
    exception of the assignment (a residual whose length is not that of
    the fit axis) is suppressed; [.item()] stands outside the [suppress]. *)
Definition residual_step (n : nat) (g : Grid (option FitRes))
    (res : option (Grid (list Q))) (kc : list Q * option FitRes) : option (Grid (list Q)) :=
  res <- res ;;
  fit_item <- sel_item (fst kc) g ;;
  match fit_item with
  | None => Some res
  | Some r =>
      let row := residual_of r in
      if Nat.eqb (List.length row) n
      then match loc_set (fst kc) row res with Some res' => Some res' | None => Some res end
      else Some res
  end.

(** [fit_patterned_bands(arr, band_set, fit_direction, stray,
    background=background, dataset=True)]: the result grid and the
    residual, one row along the fit direction per free coordinate tuple. *)
Definition fit_patterned_bands (arr : DataArray) (band_set : list (string * BandDesc))
    (fit_direction : string) (stray : option Q) (background : bool)
    : St (Grid (option FitRes) * Grid (list Q)) :=
  let background := if background then BandClass "AffineBackgroundBand"%string else NotABand in
  free_directions <-- lift (list_remove fit_direction (dims arr)) ;;;
  template_coords <-- lift (mapM (coord arr) free_directions) ;;;
  let band_results := map (fun ss => (ss, @None FitRes)) (product template_coords) in
  slices <-- lift (iterate_axis arr free_directions) ;;;
  band_results <-- sweep_slices (dims arr) free_directions stray background band_set
                                slices band_results ;;;
  fit_coords <-- lift (coord arr fit_direction) ;;;
  let n := List.length fit_coords in
  let residual := map (fun kc => (fst kc, List.repeat 0%Q n)) band_results in
  residual <-- lift (fold_left (residual_step n band_results) band_results (Some residual)) ;;;
  sret (band_results, residual).
End Sweep.

Arguments slice_cell {FitRes} fit.
Arguments sweep_slices {FitRes} fit.
Arguments fit_patterned_bands {FitRes} fit residual_of.

(** *** Reading the heap *)

Definition hget (h : Heap) (l : nat) : option PyDict := lookup Nat.eqb l (store h).

(** [d[k]] of the dict at [l]. *)
Definition entry (h : Heap) (l : nat) (k : string) : option PyVal :=
  d <- hget h l ;; lookup String.eqb k d.

(** [d[k][k2]] of the dict at [l]. *)
Definition sub_entry (h : Heap) (l : nat) (k k2 : string) : option PyVal :=
  v <- entry h l k ;; r <- as_ref v ;; entry h r k2.

Definition refs_below (n : nat) (d : PyDict) : Prop :=
  Forall (fun kv => match snd kv with VRef r => (r < n)%nat | _ => True end) d.

(** Every stored dict and every reference lies below the next fresh location. *)
Definition heap_wf (h : Heap) : Prop :=
  Forall (fun ld => (fst ld < next_loc h)%nat /\ refs_below (next_loc h) (snd ld)) (store h).

(** No band of [band_set] has a fragment at the slice [coord_dict]: the
    patterning coordinate lies outside every control-point interval. *)
Definition no_bands_at (arr_dims : list string) (band_set : list (string * BandDesc))
    (coord_dict : list (string * Q)) : Prop :=
  Forall (fun bd => band_fragments arr_dims coord_dict bd = Some []) (map snd band_set).

(** The center of a fragment interpolated on the pair [pr] at [coord],
    read from the specification: the linear interpolation between the two
    control points, or [nan] when their patterning coordinates are equal. *)
Definition center_rel (k : nat) (coord : Q) (f : Q * PyFloat) (pr : (Q * Q) * (Q * Q)) : Prop :=
  fst f = coord /\
  match snd f with
  | NaN => pattern_coord k (fst pr) == pattern_coord k (snd pr)
  | Fl v => ~ pattern_coord k (fst pr) == pattern_coord k (snd pr) /\
            v == spec_lerp (pattern_coord k (fst pr)) (pattern_center k (fst pr))
                           (pattern_coord k (snd pr)) (pattern_center k (snd pr)) coord
  end.

(** *** Example inputs *)

(** One [eV] marginal of [ex_spectrum]. *)
Definition ex_marginal : DataArray :=
  {| dims := ["eV"%string]; coords := [("eV"%string, [0; 1; 2; 3; 4]%Q)];
     values := ex_intensity |}.

(** A band patterned along [kp] whose control points lie at kp = 10 and 11. *)
Definition ex_band : BandDesc :=
  {| bd_name := "p"; bd_band := BandClass "LorentzianModel"; bd_dims := Some ["kp"%string];
     bd_params := None; bd_points := Some [(10, 0); (11, 1)]%Q |}.

(** A band patterned along [kp] through (0, 1) and (1, 2). *)
Definition ex_band_ramp : BandDesc :=
  {| bd_name := "s"; bd_band := BandClass "LorentzianModel"; bd_dims := Some ["kp"%string];
     bd_params := None; bd_points := Some [(0, 1); (1, 2)]%Q |}.

(** A band whose first two control points share the patterning coordinate 0. *)
Definition ex_band_flat : BandDesc :=
  {| bd_name := "t"; bd_band := BandClass "LorentzianModel"; bd_dims := Some ["kp"%string];
     bd_params := None; bd_points := Some [(0, 1); (0, 2)]%Q |}.

(** A band given without control points. *)
Definition ex_band_nopoints : BandDesc :=
  {| bd_name := "u"; bd_band := BandClass "LorentzianModel"; bd_dims := Some ["kp"%string];
     bd_params := None; bd_points := None |}.

(** A heap holding one empty dict, at location 0. *)
Definition ex_heap : Heap := {| next_loc := 1; store := [(0%nat, [])] |}.

(** A heap whose params dict at 0 has a center hint (at 1) with a [vary]
    entry. *)
Definition ex_center_heap : Heap :=
  {| next_loc := 2;
     store := [(0%nat, [("center"%string, VRef 1)]);
               (1%nat, [("value"%string, VNum 5); ("vary"%string, VNum 0)])] |}.

(** A band patterned along [kp] through (0, 1) and (1, 3): one fragment at
    every [kp] of [ex_spectrum]. *)
Definition ex_band_span : BandDesc :=
  {| bd_name := "q"; bd_band := BandClass "LorentzianModel"; bd_dims := Some ["kp"%string];
     bd_params := None; bd_points := Some [(0, 1); (1, 3)]%Q |}.

(** A band folding back along [kp]: (0, 1), (1, 2), (0, 3); two fragments
    at kp = 0, with centers 1 and 3. *)
Definition ex_band_fork : BandDesc :=
  {| bd_name := "r"; bd_band := BandClass "LorentzianModel"; bd_dims := Some ["kp"%string];
     bd_params := None; bd_points := Some [(0, 1); (1, 2); (0, 3)]%Q |}.

(** A heap with a params dict at 0 holding a stray and a center dict (at 1). *)
Definition ex_hint_heap : Heap :=
  {| next_loc := 2;
     store := [(0%nat, [("stray"%string, VNum 1); ("center"%string, VRef 1)]);
               (1%nat, [("value"%string, VNum 2)])] |}.

(** A heap whose params dict at 0 has a stray and a sigma hint (at 1) with a
    [min] bound. *)
Definition ex_sigma_heap : Heap :=
  {| next_loc := 2;
     store := [(0%nat, [("sigma"%string, VRef 1); ("stray"%string, VNum 1)]);
               (1%nat, [("value"%string, VNum 2); ("min"%string, VNum 0)])] |}.


(** A heap whose params dict at 0 has a stray and one dict (at 1) as both
    its [sigma] and its [amplitude] hint. *)
Definition ex_alias_heap : Heap :=
  {| next_loc := 2;
     store := [(0%nat, [("stray"%string, VNum 1); ("sigma"%string, VRef 1);
                        ("amplitude"%string, VRef 1)]);
               (1%nat, [("value"%string, VNum 0)])] |}.


End Pattern.

Module Composite.

(** Modelled from the spec: a leaf peak model, an lmfit [Model] mixed with
    [XModelMixin].  [func] is the line shape evaluated on its argument values
    and [x]; its parameters are named [prefix ++ name] for [name] in
    [arg_names], and [def_vals] gives the value of a parameter the parameter
    set lacks. [leaf_guess] is the component's own [guess(data, x=x)]. *)
Record Leaf := {
  prefix : string;
  arg_names : list string;
  def_vals : string -> Q;
  func : list Q -> Q -> Q;
  leaf_guess : list Q -> list Q -> list (string * Q);
  leaf_n_dims : nat
}.

(** A model: a leaf, or the [XAdditiveCompositeModel] built by [+]. *)
Inductive XModel :=
| Base (l : Leaf)
| XAdditive (left right : XModel) (n_dims : nat).

Definition n_dims (m : XModel) : nat :=
  match m with Base l => leaf_n_dims l | XAdditive _ _ n => n end.

(** [XModelMixin.__add__]: build the composite, then [assert self.n_dims == other.n_dims]
    and copy [other.n_dims]. *)
Definition __add__ (self other : XModel) : option XModel :=
  let comp := XAdditive self other (n_dims other) in
  if Nat.eqb (n_dims self) (n_dims other) then Some comp else None.

(** Modelled from the spec: lmfit's [CompositeModel.components] is
    [left.components + right.components]. *)
Fixpoint components (m : XModel) : list Leaf :=
  match m with
  | Base l => [l]
  | XAdditive a b _ => app (components a) (components b)
  end.

Definition leaf_param_names (l : Leaf) : list string :=
  map (fun n => String.append (prefix l) n) (arg_names l).

Definition param_names (m : XModel) : list string :=
  flat_map leaf_param_names (components m).

(** Modelled from the spec: lmfit's [make_params], one entry per parameter
    name with its default value, assigned in order into a fresh dict. *)
Definition make_params (m : XModel) : list (string * Q) :=
  fold_left (fun d '(k, v) => setitem String.eqb k v d)
    (flat_map (fun l => map (fun n => (String.append (prefix l) n, def_vals l n)) (arg_names l))
       (components m))
    [].

(** Modelled from the spec: lmfit's [Model.eval] passes each argument the
    value of the parameter [prefix ++ name]; [CompositeModel.eval] applies the
    operator, here [operator.add], to the two sides' evaluations. *)
Definition leaf_args (l : Leaf) (params : list (string * Q)) : list Q :=
  map (fun n => match lookup String.eqb (String.append (prefix l) n) params with
                | Some v => v
                | None => def_vals l n
                end) (arg_names l).

Fixpoint eval (m : XModel) (params : list (string * Q)) (x : Q) : Q :=
  match m with
  | Base l => func l (leaf_args l params) x
  | XAdditive a b _ => Qplus (eval a params x) (eval b params x)
  end.

(** The parameters of [params] that belong to [m]. *)
Definition restrict (m : XModel) (params : list (string * Q)) : list (string * Q) :=
  filter (fun kv => existsb (String.eqb (fst kv)) (param_names m)) params.

(** [XAdditiveCompositeModel.guess] (lines 322-336); a leaf uses its own guess. *)
Definition guess (m : XModel) (data x : list Q) : list (string * Q) :=
  match m with
  | Base l => leaf_guess l data x
  | XAdditive _ _ _ =>
      let pars := make_params m in
      let guessed := fold_left (fun acc c => update String.eqb acc (leaf_guess c data x))
                       (components m) [] in
      fold_left (fun p '(k, v) => setitem String.eqb k v p) guessed pars
  end.

(** Assign every entry of [L], in order, into [d]. *)
Definition set_all (L d : list (string * Q)) : list (string * Q) :=
  fold_left (fun acc '(k, v) => setitem String.eqb k v acc) L d.

(** *** Example inputs *)

(** A leaf with parameters [center] and [sigma] and line shape
    [sigma * (x - center)]; its guess is [center = c], [sigma = 1]. *)
Definition ex_leaf (p : string) (c : Q) : XModel :=
  Base {| prefix := p; arg_names := ["center"; "sigma"]%string; def_vals := fun _ => 0%Q;
          func := fun args x => match args with
                                | [ce; sg] => (sg * (x - ce))%Q
                                | _ => 0%Q
                                end;
          leaf_guess := fun _ _ => [(String.append p "center", c); (String.append p "sigma", 1%Q)];
          leaf_n_dims := 1 |}.

End Composite.

(** ** Theorems *)

Module FitBandsFacts.
Import FitBands.

(** Off the ["mdc"] direction the loop body never takes its branch. *)
Lemma select_prior_fold_gate {P : Type} (direction : string) (initial_fits : P) cache frozen acc :
  direction <> "mdc"%string ->
  (forall p d, acc = Some (p, d) -> p = initial_fits) ->
  forall p d,
  fold_left (fun (acc : option (P * option Q)) (cv : list Q * P) =>
    let '(c, v) := cv in
    '(closest, dist) <- acc ;;
    delta <- vsub c frozen ;;
    current_distance <- dot delta delta ;;
    if lt_inf current_distance dist && String.eqb direction "mdc"
    then Some (v, dist) else Some (closest, dist)) cache acc = Some (p, d) ->
  p = initial_fits.
Proof.
  intros Hdir. revert acc. induction cache as [|[c v] cache IH]; intros acc Hacc p d Hf.
  - simpl in Hf. eauto.
  - simpl in Hf. apply IH in Hf; [assumption|].
    intros p' d' E. destruct acc as [[cl ds]|]; [|discriminate]. simpl in E.
    destruct (vsub c frozen) as [delta|]; [|discriminate]. simpl in E.
    destruct (dot delta delta) as [cd|]; [|discriminate]. simpl in E.
    replace (String.eqb direction "mdc") with false in E
      by (symmetry; apply String.eqb_neq; exact Hdir).
    rewrite andb_false_r in E. injection E as <- <-. eapply Hacc; reflexivity.
Qed.

Lemma select_prior_gate {P : Type} direction (initial_fits p : P) cache frozen :
  direction <> "mdc"%string ->
  select_prior direction initial_fits cache frozen = Some p -> p = initial_fits.
Proof.
  intros Hdir H. unfold select_prior in H.
  destruct (fold_left _ cache _) as [[cl d]|] eqn:E; [|discriminate].
  simpl in H. injection H as <-.
  eapply (select_prior_fold_gate direction initial_fits cache frozen); [exact Hdir| |exact E].
  intros p0 d0 Ea. injection Ea as <- _. reflexivity.
Qed.

Lemma sweep_gate {Params Marginal} (fit : Marginal -> Params -> Params) direction tdims init :
  direction <> "mdc"%string ->
  forall ms cache rows cache',
  sweep fit direction tdims init cache ms = Some (rows, cache') ->
  Forall (fun row : list Q * Params * Params => snd (fst row) = init) rows.
Proof.
  intros Hdir ms. induction ms as [|[m coord] ms IH]; intros cache rows cache' H; simpl in H.
  - injection H as <- _. constructor.
  - destruct (mapM _ tdims) as [frozen|]; [|discriminate]. simpl in H.
    destruct (select_prior direction init cache frozen) as [cl|] eqn:Es; [|discriminate].
    simpl in H.
    destruct (sweep fit direction tdims init _ ms) as [[rows0 c0]|] eqn:Er; [|discriminate].
    simpl in H. injection H as <- _. constructor.
    + simpl. eapply select_prior_gate; eassumption.
    + eapply IH; exact Er.
Qed.

(** X20.  In [fit_bands] the search of the cache for a prior is gated on
    [direction == "mdc"]: for any other direction every marginal of the
    sweep is fit from the reference-slice initial fits, and in every
    direction the first marginal (empty cache) is fit from the initial
    fits. *)
Theorem fit_bands_prior_gated {Params Marginal} (fit : Marginal -> Params -> Params)
    direction tdims init ms rows cache' :
  sweep fit direction tdims init [] ms = Some (rows, cache') ->
  (direction <> "mdc"%string ->
     Forall (fun row : list Q * Params * Params => snd (fst row) = init) rows) /\
  (forall row rest, rows = row :: rest -> snd (fst row) = init).
Proof.
  intros H. split.
  - intros Hdir. eapply sweep_gate; eassumption.
  - intros row rest ->. destruct ms as [|[m coord] ms]; simpl in H.
    + discriminate.
    + destruct (mapM _ tdims) as [frozen|]; [|discriminate]. simpl in H.
      destruct (sweep fit direction tdims init _ ms) as [[rows0 c0]|]; [|discriminate].
      simpl in H. injection H as <- _. reflexivity.
Qed.

Lemma fit_bands_prior_gated_witness :
  sweep (fun (m p : nat) => m) "edc"%string ["kp"%string] 0%nat [] c1_marginals =
    Some ([([0%Q], 0%nat, 10%nat); ([5%Q], 0%nat, 20%nat); ([1%Q], 0%nat, 30%nat)],
          [([0%Q], 10%nat); ([5%Q], 20%nat); ([1%Q], 30%nat)]) /\
  ("edc"%string <> "mdc"%string ->
     Forall (fun row : list Q * nat * nat => snd (fst row) = 0%nat)
       [([0%Q], 0%nat, 10%nat); ([5%Q], 0%nat, 20%nat); ([1%Q], 0%nat, 30%nat)]).
Proof.
  split; [reflexivity|].
  apply (fit_bands_prior_gated (fun (m p : nat) => m) "edc"%string ["kp"%string] 0%nat c1_marginals
           _ [([0%Q], 10%nat); ([5%Q], 20%nat); ([1%Q], 30%nat)]).
  reflexivity.
Defined.

(** C1 counterexample.  With [direction = "mdc"] the third marginal (at
    kp = 1) is fit from the fit at kp = 5, the last cache entry, although
    the fit at kp = 0 is the nearest; with [direction = "edc"] the second
    marginal is fit from the initial fits although the cache holds the fit
    at kp = 0. *)
Lemma fit_bands_prior_counterexample :
  sweep (fun (m p : nat) => m) "mdc"%string ["kp"%string] 0%nat [] c1_marginals =
    Some ([([0%Q], 0%nat, 10%nat); ([5%Q], 10%nat, 20%nat); ([1%Q], 20%nat, 30%nat)],
          [([0%Q], 10%nat); ([5%Q], 20%nat); ([1%Q], 30%nat)]) /\
  spec_nearest_prior 0%nat [([0%Q], 10%nat); ([5%Q], 20%nat)] [1%Q] = Some 10%nat /\
  sweep (fun (m p : nat) => m) "edc"%string ["kp"%string] 0%nat [] c1_marginals =
    Some ([([0%Q], 0%nat, 10%nat); ([5%Q], 0%nat, 20%nat); ([1%Q], 0%nat, 30%nat)],
          [([0%Q], 10%nat); ([5%Q], 20%nat); ([1%Q], 30%nat)]) /\
  spec_nearest_prior 0%nat [([0%Q], 10%nat)] [5%Q] = Some 10%nat.
Proof. repeat split; reflexivity. Qed.

Lemma vsub_same_length a b : List.length a = List.length b ->
  exists r, vsub a b = Some r /\ List.length r = List.length a.
Proof.
  revert b. induction a as [|x a IH]; intros [|y b] H; simpl in H; try discriminate.
  - exists []. split; reflexivity.
  - injection H as H. destruct (IH b H) as (r & Er & Lr). exists ((x - y)%Q :: r).
    simpl. rewrite Er. simpl. split; [reflexivity | rewrite Lr; reflexivity].
Qed.

Lemma dot_same_length a b : List.length a = List.length b -> exists d, dot a b = Some d.
Proof.
  revert b. induction a as [|x a IH]; intros [|y b] H; simpl in H; try discriminate.
  - exists 0%Q. reflexivity.
  - injection H as H. destruct (IH b H) as (d & Ed). eexists. simpl. rewrite Ed. reflexivity.
Qed.

Lemma mapM_length_eq {A B} (f : A -> option B) l l' : mapM f l = Some l' -> List.length l' = List.length l.
Proof.
  revert l'. induction l as [|a l IH]; intros l' H; simpl in H.
  - injection H as <-. reflexivity.
  - destruct (f a); [|discriminate]. simpl in H. destruct (mapM f l) eqn:E; [|discriminate].
    simpl in H. injection H as <-. simpl. f_equal. apply IH. reflexivity.
Qed.

Lemma last_default_irrel {A} (l : list A) d1 d2 : l <> [] -> last l d1 = last l d2.
Proof.
  induction l as [|a l IH]; intros H; [contradiction|].
  destruct l as [|b l]; [reflexivity|]. simpl. apply IH. discriminate.
Qed.

(** A fold whose step, from a state [(p, inf)], always moves to [(v, inf)]
    keeps the last entry. *)
Lemma fold_keeps_last {P : Type} (f : option (P * option Q) -> list Q * P -> option (P * option Q))
    (ok : list Q -> Prop) (cache : list (list Q * P)) (dflt : list Q) (p : P) :
  (forall p c v, ok c -> f (Some (p, None)) (c, v) = Some (v, None)) ->
  Forall (fun cv => ok (fst cv)) cache ->
  fold_left f cache (Some (p, None)) = Some (snd (last cache (dflt, p)), None).
Proof.
  intros Hf. revert p. induction cache as [|[c v] cache IH]; intros p HF; [reflexivity|].
  inversion HF as [|? ? Hl HF']; subst. simpl. rewrite (Hf p c v Hl), (IH v HF').
  destruct cache as [|cv' cache']; [reflexivity|].
  rewrite (last_default_irrel (cv' :: cache') _ (dflt, p)); [reflexivity | discriminate].
Qed.

(** In ["mdc"] mode the loop never lowers [dist], so every entry of the
    right length takes the branch and the last one is kept. *)
Lemma select_prior_mdc {P : Type} (init : P) cache frozen :
  Forall (fun cv => List.length (fst cv) = List.length frozen) cache ->
  select_prior "mdc" init cache frozen = Some (snd (last cache (frozen, init))).
Proof.
  intros HF. unfold select_prior.
  rewrite (fold_keeps_last _ (fun c => List.length c = List.length frozen) cache frozen init);
    [reflexivity | | exact HF].
  intros p c v Hl. simpl.
  destruct (vsub_same_length c frozen Hl) as (delta & Ed & _). rewrite Ed. simpl.
  destruct (dot_same_length delta delta eq_refl) as (d & Edot). rewrite Edot. reflexivity.
Qed.

(** A fold step that keeps [(p, None)] on every entry of the right length
    keeps it over the whole cache. *)
Lemma fold_keeps_init {P : Type} (f : option (P * option Q) -> list Q * P -> option (P * option Q))
    (ok : list Q -> Prop) (cache : list (list Q * P)) (p : P) :
  (forall c v, ok c -> f (Some (p, None)) (c, v) = Some (p, None)) ->
  Forall (fun cv => ok (fst cv)) cache ->
  fold_left f cache (Some (p, None)) = Some (p, None).
Proof.
  intros Hf HF. induction HF as [|[c v] cache Hl HF IH]; [reflexivity|].
  simpl. rewrite (Hf c v Hl). exact IH.
Qed.

(** Off the ["mdc"] direction every entry of the right length leaves the
    initial fits in place. *)
Lemma select_prior_other {P : Type} direction (init : P) cache frozen :
  direction <> "mdc"%string ->
  Forall (fun cv => List.length (fst cv) = List.length frozen) cache ->
  select_prior direction init cache frozen = Some init.
Proof.
  intros Hdir HF. unfold select_prior.
  rewrite (fold_keeps_init _ (fun c => List.length c = List.length frozen) cache init);
    [reflexivity | | exact HF].
  intros c v Hl. simpl.
  destruct (vsub_same_length c frozen Hl) as (delta & Ed & _). rewrite Ed. simpl.
  destruct (dot_same_length delta delta eq_refl) as (d & Edot). rewrite Edot.
  replace (String.eqb direction "mdc") with false by (symmetry; apply String.eqb_neq; exact Hdir).
  destruct (lt_inf d None); reflexivity.
Qed.

Lemma setitem_fresh {V} (k : list Q) (v : V) d :
  Forall (fun cv => tuple_eqb k (fst cv) = false) d -> setitem tuple_eqb k v d = app d [(k, v)].
Proof.
  induction 1 as [|[k1 v1] d H1 HF IH]; [reflexivity|]. simpl in *. rewrite H1, IH. reflexivity.
Qed.

Lemma Qeq_bool_sym x y : Qeq_bool x y = Qeq_bool y x.
Proof.
  destruct (Qeq_bool x y) eqn:E1, (Qeq_bool y x) eqn:E2; try reflexivity.
  - apply Qeq_bool_iff in E1. rewrite <- E2. symmetry. apply Qeq_bool_iff. symmetry. exact E1.
  - apply Qeq_bool_iff in E2. rewrite <- E1. apply Qeq_bool_iff. symmetry. exact E2.
Qed.

Lemma tuple_eqb_comm a b : tuple_eqb a b = tuple_eqb b a.
Proof.
  revert b. induction a as [|x a IH]; intros [|y b]; simpl; try reflexivity.
  rewrite Qeq_bool_sym, IH. reflexivity.
Qed.

Lemma last_snd_default {A B} (l : list (A * B)) a1 a2 b : snd (last l (a1, b)) = snd (last l (a2, b)).
Proof.
  induction l as [|x l IH]; [reflexivity|]. destruct l as [|y l]; [reflexivity|]. exact IH.
Qed.

(** The ["mdc"] sweep over marginals of pairwise distinct frozen
    coordinates, none of them in the cache: each marginal is fit from the
    fit of the marginal before it, the first from the last cache entry. *)
Lemma sweep_mdc_priors {Params Marginal} (fit : Marginal -> Params -> Params) tdims init :
  forall ms cache rows cache',
  sweep fit "mdc" tdims init cache ms = Some (rows, cache') ->
  Forall (fun cv => List.length (fst cv) = List.length tdims) cache ->
  ForallOrdPairs (fun r1 r2 : list Q * Params * Params =>
    tuple_eqb (fst (fst r1)) (fst (fst r2)) = false) rows ->
  Forall (fun r : list Q * Params * Params =>
    Forall (fun cv => tuple_eqb (fst (fst r)) (fst cv) = false) cache) rows ->
  map (fun r : list Q * Params * Params => snd (fst r)) rows =
    removelast (snd (last cache ([], init)) :: map snd rows).
Proof.
  intros ms. induction ms as [|[m coord] ms IH]; intros cache rows cache' H Hlen Hord Hfresh;
    simpl in H.
  - injection H as <- _. reflexivity.
  - destruct (mapM _ tdims) as [frozen|] eqn:Ef; [|discriminate]. simpl in H.
    pose proof (mapM_length_eq _ _ _ Ef) as Lf.
    assert (Hl' : Forall (fun cv => List.length (fst cv) = List.length frozen) cache).
    { eapply Forall_impl; [|exact Hlen]. intros cv Hcv. simpl in Hcv. rewrite Hcv, Lf. reflexivity. }
    rewrite (select_prior_mdc init cache frozen Hl') in H. simpl in H.
    destruct (sweep fit "mdc" tdims init _ ms) as [[rows0 c0]|] eqn:Er; [|discriminate].
    simpl in H. injection H as <- _.
    inversion Hord as [|? ? Hhd Hord']; subst.
    inversion Hfresh as [|? ? Hf0 Hfresh']; subst. simpl in Hf0.
    rewrite (setitem_fresh frozen (fit m (snd (last cache (frozen, init)))) cache Hf0) in Er.
    cbn [map]. rewrite (IH _ rows0 c0 Er).
    + rewrite last_last. cbn [snd]. rewrite (last_snd_default cache frozen []).
      destruct rows0; reflexivity.
    + apply Forall_app. split; [exact Hlen|]. constructor; [exact Lf | constructor].
    + exact Hord'.
    + apply Forall_forall. intros r Hr. apply Forall_app. split.
      * rewrite Forall_forall in Hfresh'. exact (Hfresh' r Hr).
      * constructor; [|constructor]. simpl. rewrite tuple_eqb_comm.
        rewrite Forall_forall in Hhd. exact (Hhd r Hr).
Qed.

(** C1 (code bug).  In [fit_bands] with [direction == "mdc"] every
    marginal after the first is fit from the fit of the marginal just
    before it, not from the nearest cache entry, as [dist] is never lowered
    in the search of lines 510-518 (the marginals of a sweep have pairwise
    distinct coordinates); for any other direction every marginal is fit
    from the initial fits; the first is fit from the initial fits in
    every direction. *)
Theorem fit_bands_prior_previous_fit {Params Marginal} (fit : Marginal -> Params -> Params)
    direction tdims init ms rows cache' :
  sweep fit direction tdims init [] ms = Some (rows, cache') ->
  ForallOrdPairs (fun r1 r2 : list Q * Params * Params =>
    tuple_eqb (fst (fst r1)) (fst (fst r2)) = false) rows ->
  map (fun r : list Q * Params * Params => snd (fst r)) rows =
    removelast (init :: map (fun r : list Q * Params * Params =>
                               if String.eqb direction "mdc" then snd r else init) rows).
Proof.
  intros H Hord. destruct (String.eqb direction "mdc") eqn:Ed.
  - apply String.eqb_eq in Ed. subst direction.
    change init with (snd (last (@nil (list Q * Params)) ([], init))) at 1.
    eapply sweep_mdc_priors; [exact H | constructor | exact Hord |].
    apply Forall_forall. intros. constructor.
  - apply String.eqb_neq in Ed. pose proof (sweep_gate fit direction tdims init Ed ms [] rows cache' H) as G.
    clear H Hord. induction G as [|r rows Hr G IH]; [reflexivity|].
    cbn [map]. rewrite Hr, IH. destruct rows; reflexivity.
Qed.

(** The ["mdc"] sweep over kp = 0, 5, 1: the marginals are fit from the
    initial fits, the fit at kp = 0 and the fit at kp = 5. *)
Lemma fit_bands_prior_previous_fit_witness :
  sweep (fun (m p : nat) => m) "mdc"%string ["kp"%string] 0%nat [] c1_marginals =
    Some ([([0%Q], 0%nat, 10%nat); ([5%Q], 10%nat, 20%nat); ([1%Q], 20%nat, 30%nat)],
          [([0%Q], 10%nat); ([5%Q], 20%nat); ([1%Q], 30%nat)]) /\
  [0%nat; 10%nat; 20%nat] = removelast [0%nat; 10%nat; 20%nat; 30%nat].
Proof.
  split; [reflexivity|].
  exact (fit_bands_prior_previous_fit (fun (m p : nat) => m) "mdc"%string ["kp"%string] 0%nat
           c1_marginals _ [([0%Q], 10%nat); ([5%Q], 20%nat); ([1%Q], 30%nat)] eq_refl
           ltac:(repeat constructor)).
Defined.


Lemma setitem_keys_in {V} (k c : list Q) (v w : V) d :
  In (c, w) (setitem tuple_eqb k v d) -> c = k \/ In c (map fst d).
Proof.
  induction d as [|[k1 v1] d IH]; simpl.
  - intros [E|[]]. injection E as -> _. left; reflexivity.
  - destruct (tuple_eqb k k1); simpl; intros [E|H].
    + injection E as -> _. right; left; reflexivity.
    + right; right. apply (in_map fst) in H. exact H.
    + injection E as -> _. right; left; reflexivity.
    + destruct (IH H) as [->|H']; [left; reflexivity | right; right; exact H'].
Qed.

Lemma sweep_mdc_previous {Params Marginal} (fit : Marginal -> Params -> Params) tdims init :
  forall ms past cache rows cache',
  sweep fit "mdc" tdims init cache ms = Some (rows, cache') ->
  Forall (fun cv => In (fst cv) past /\ List.length (fst cv) = List.length tdims) cache ->
  forall i r r', nth_error rows i = Some r -> nth_error rows (S i) = Some r' ->
  (forall j r'', (j < i)%nat -> nth_error rows j = Some r'' ->
     tuple_eqb (fst (fst r)) (fst (fst r'')) = false) ->
  (forall c, In c past -> tuple_eqb (fst (fst r)) c = false) ->
  snd (fst r') = snd r.
Proof.
  induction ms as [|[m coord] ms IH]; intros past cache rows cache' H Hc i r r' Hi Hi' Hrows Hpast;
    simpl in H.
  - injection H as <- _. destruct i; discriminate.
  - destruct (mapM _ tdims) as [frozen|] eqn:Ef; [|discriminate]. simpl in H.
    destruct (select_prior "mdc" init cache frozen) as [cl|] eqn:Es; [|discriminate]. simpl in H.
    destruct (sweep fit "mdc" tdims init _ ms) as [[rows0 c0]|] eqn:Er; [|discriminate].
    simpl in H. injection H as <- _.
    assert (Hlf : List.length frozen = List.length tdims) by exact (mapM_length_eq _ _ _ Ef).
    destruct i as [|i]; simpl in Hi, Hi'.
    + injection Hi as <-. simpl in Hpast.
      destruct ms as [|[m1 coord1] ms1]; simpl in Er; [injection Er as <- _; discriminate|].
      destruct (mapM (fun k => lookup String.eqb k coord1) tdims) as [frozen1|] eqn:Ef1; [|discriminate]. simpl in Er.
      destruct (select_prior "mdc" init _ frozen1) as [cl1|] eqn:Es1; [|discriminate].
      simpl in Er. destruct (sweep fit "mdc" tdims init _ ms1) as [[rows1 c1]|]; [|discriminate].
      simpl in Er. injection Er as <- _. simpl in Hi'. injection Hi' as <-. simpl.
      assert (Hlf1 : List.length frozen1 = List.length tdims) by exact (mapM_length_eq _ _ _ Ef1).
      rewrite setitem_fresh in Es1.
      * rewrite select_prior_mdc in Es1.
        -- rewrite last_last in Es1. injection Es1 as <-. reflexivity.
        -- apply Forall_app. split.
           ++ refine (Forall_impl _ _ Hc). intros cv [_ Hl]. congruence.
           ++ constructor; [simpl; congruence | constructor].
      * refine (Forall_impl _ _ Hc). intros cv [Hin _]. exact (Hpast _ Hin).
    + eapply (IH (frozen :: past)); [exact Er | | exact Hi | exact Hi' | |].
      * apply Forall_forall. intros [c v] Hin. split.
        -- destruct (setitem_keys_in _ _ _ _ _ Hin) as [->|Hk]; [left; reflexivity|].
           right. apply in_map_iff in Hk as ([c' v'] & Ec & Hcv). simpl in Ec. subst c'.
           rewrite Forall_forall in Hc. exact (proj1 (Hc _ Hcv)).
        -- destruct (setitem_keys_in _ _ _ _ _ Hin) as [->|Hk]; [exact Hlf|].
           apply in_map_iff in Hk as ([c' v'] & Ec & Hcv). simpl in Ec. subst c'.
           rewrite Forall_forall in Hc. exact (proj2 (Hc _ Hcv)).
      * intros j r'' Hj Hr''. apply (Hrows (S j)); [lia | exact Hr''].
      * intros c [<-|Hin]; [exact (Hrows 0%nat _ ltac:(lia) eq_refl) | exact (Hpast c Hin)].
Qed.

(** In the ["mdc"] direction, starting from an empty cache, every marginal
    after the first is seeded with the fit result of the marginal just
    before it, provided that marginal's frozen coordinates differ from all
    earlier ones (so that its cache entry is the last one appended). *)
Theorem fit_bands_mdc_seeds_with_previous_fit {Params Marginal} (fit : Marginal -> Params -> Params)
    tdims init ms rows cache' :
  sweep fit "mdc" tdims init [] ms = Some (rows, cache') ->
  forall i r r', nth_error rows i = Some r -> nth_error rows (S i) = Some r' ->
  (forall j r'', (j < i)%nat -> nth_error rows j = Some r'' ->
     tuple_eqb (fst (fst r)) (fst (fst r'')) = false) ->
  snd (fst r') = snd r.
Proof.
  intros H i r r' Hi Hi' Hrows.
  exact (sweep_mdc_previous fit tdims init ms [] [] rows cache' H (Forall_nil _) i r r' Hi Hi' Hrows
           (fun c Hin => match Hin with end)).
Qed.

Lemma fit_bands_mdc_seeds_with_previous_fit_witness :
  snd (fst ([1%Q], 20%nat, 30%nat)) = snd ([5%Q], 10%nat, 20%nat).
Proof.
  refine (fit_bands_mdc_seeds_with_previous_fit (fun (m p : nat) => m) ["kp"%string] 0%nat c1_marginals
            [([0%Q], 0%nat, 10%nat); ([5%Q], 10%nat, 20%nat); ([1%Q], 20%nat, 30%nat)]
            [([0%Q], 10%nat); ([5%Q], 20%nat); ([1%Q], 30%nat)] _ 1%nat _ _ eq_refl eq_refl _).
  - reflexivity.
  - intros j r'' Hj Hr''. destruct j; [|lia]. simpl in Hr''. injection Hr'' as <-. reflexivity.
Defined.

(** Tuple [==] of floats is transitive. *)
Lemma tuple_eqb_trans_q a b c :
  tuple_eqb a b = true -> tuple_eqb b c = true -> tuple_eqb a c = true.
Proof.
  revert b c; induction a as [|x a IH]; intros [|y b] [|z c]; simpl; try discriminate; auto.
  rewrite !andb_true_iff, !Qeq_bool_iff. intros [H1 H2] [H3 H4].
  split; [rewrite H1; exact H3 | eauto].
Qed.

(** Reading a coordinate tuple back after assigning one: the dict
    answers with the new value exactly when the tuples compare equal. *)
Lemma lookup_setitem_tuple {V} (k k' : list Q) (v : V) d :
  lookup tuple_eqb k (setitem tuple_eqb k' v d) =
  if tuple_eqb k k' then Some v else lookup tuple_eqb k d.
Proof.
  induction d as [|[k1 v1] d IH]; simpl.
  - destruct (tuple_eqb k k'); reflexivity.
  - destruct (tuple_eqb k' k1) eqn:E1; simpl.
    + destruct (tuple_eqb k k1) eqn:E2, (tuple_eqb k k') eqn:E3; try reflexivity.
      * rewrite tuple_eqb_comm in E1. rewrite (tuple_eqb_trans_q _ _ _ E2 E1) in E3. discriminate.
      * rewrite (tuple_eqb_trans_q _ _ _ E3 E1) in E2. discriminate.
    + destruct (tuple_eqb k k1) eqn:E2; [|exact IH].
      destruct (tuple_eqb k k') eqn:E3; [|reflexivity].
      rewrite tuple_eqb_comm in E3. rewrite (tuple_eqb_trans_q _ _ _ E3 E2) in E1. discriminate.
Qed.

(** [find] over a concatenation. *)
Lemma find_app_q {A} (f : A -> bool) l1 l2 :
  find f (l1 ++ l2) = match find f l1 with Some x => Some x | None => find f l2 end.
Proof. induction l1 as [|a l1 IH]; simpl; [reflexivity|]. destruct (f a); auto. Qed.

(** After the sweep, looking a coordinate tuple up in
    [all_fit_parameters] gives the fit result of the last marginal whose
    frozen coordinates compare equal to it, and what the cache held before
    when there is none. *)
Theorem fit_bands_cache_holds_last_fit {Params Marginal} (fit : Marginal -> Params -> Params)
    direction tdims init cache ms rows cache' :
  sweep fit direction tdims init cache ms = Some (rows, cache') ->
  forall k, lookup tuple_eqb k cache' =
    match find (fun r => tuple_eqb k (fst (fst r))) (rev rows) with
    | Some r => Some (snd r)
    | None => lookup tuple_eqb k cache
    end.
Proof.
  revert cache rows cache'.
  induction ms as [|[m c] ms IH]; intros cache rows cache' Hs k; simpl in Hs.
  - injection Hs as <- <-. reflexivity.
  - destruct (mapM _ tdims) as [frozen|] eqn:E1; simpl in Hs; [|discriminate].
    destruct (select_prior _ _ _ _) as [closest|] eqn:E2; simpl in Hs; [|discriminate].
    destruct (sweep _ _ _ _ _ ms) as [[rows1 cache1]|] eqn:E3; simpl in Hs; [|discriminate].
    injection Hs as <- <-.
    rewrite (IH _ _ _ E3 k). simpl rev. rewrite find_app_q. simpl.
    destruct (find _ (rev rows1)); [reflexivity|].
    rewrite lookup_setitem_tuple. destruct (tuple_eqb k frozen); reflexivity.
Qed.

Lemma fit_bands_cache_holds_last_fit_witness :
  lookup tuple_eqb [0%Q] [([0%Q], 30%nat); ([1%Q], 20%nat)] = Some 30%nat.
Proof.
  destruct (sweep (fun m (_ : nat) => m) "mdc" ["kp"%string] 0%nat []
              [(10%nat, [("kp"%string, 0%Q)]); (20%nat, [("kp"%string, 1%Q)]);
               (30%nat, [("kp"%string, 0%Q)])]) as [[rows cache']|] eqn:H;
    [|vm_compute in H; discriminate].
  pose proof (fit_bands_cache_holds_last_fit (fun m (_ : nat) => m) _ _ _ _ _ _ _ H [0%Q]) as Hc.
  vm_compute in H. injection H as <- <-. exact Hc.
Defined.

End FitBandsFacts.

Module PermFacts.
Import Itertools.

Lemma picks_spec {A} (l : list A) x r :
  In (x, r) (picks l) <-> exists l1 l2, l = l1 ++ x :: l2 /\ r = l1 ++ l2.
Proof.
  revert x r. induction l as [|a l IH]; intros x r; simpl; split.
  - contradiction.
  - intros (l1 & l2 & E & _). destruct l1; discriminate.
  - intros [E|H].
    + injection E as <- <-. exists [], l. auto.
    + apply in_map_iff in H. destruct H as [[y r'] [E H]]. injection E as -> <-.
      apply IH in H. destruct H as (l1 & l2 & -> & ->). exists (a :: l1), l2. auto.
  - intros (l1 & l2 & E & ->). destruct l1 as [|b l1].
    + simpl in E. injection E as -> ->. left. reflexivity.
    + simpl in E. injection E as -> E. right. apply in_map_iff.
      exists (x, l1 ++ l2). split; [reflexivity|]. apply IH. eauto.
Qed.

Lemma perms_fuel_spec {A} n (l : list A) :
  List.length l = n -> forall q, In q (perms_fuel n l) <-> Permutation q l.
Proof.
  revert l. induction n as [|n IH]; intros l Hl q.
  - destruct l; [|discriminate]. simpl. split.
    + intros [<-|[]]. constructor.
    + intros H. apply Permutation_sym, Permutation_nil in H. subst. auto.
  - destruct l as [|a l0]; [discriminate|]. set (l := a :: l0).
    change (In q (flat_map (fun '(x, r) => map (cons x) (perms_fuel n r)) (picks l))
            <-> Permutation q l).
    rewrite in_flat_map. split.
    + intros [[x r] [Hp Hq]]. apply picks_spec in Hp. destruct Hp as (l1 & l2 & El & ->).
      apply in_map_iff in Hq. destruct Hq as [q' [<- Hq']].
      assert (Hlen : List.length (l1 ++ l2) = n).
      { assert (List.length l = S n) by exact Hl. rewrite El in H.
        rewrite length_app in *. simpl in H. lia. }
      apply (IH _ Hlen) in Hq'. rewrite El. apply Permutation_cons_app. exact Hq'.
    + intros Hq. destruct q as [|y q'].
      { apply Permutation_length in Hq. discriminate. }
      assert (Hy : In y l) by (eapply Permutation_in; [exact Hq| left; reflexivity]).
      apply in_split in Hy. destruct Hy as (l1 & l2 & El).
      exists (y, l1 ++ l2). split.
      * apply picks_spec. eauto.
      * apply in_map. apply IH.
        -- assert (List.length l = S n) by exact Hl. rewrite El in H.
           rewrite length_app in *. simpl in H. lia.
        -- rewrite El in Hq. eapply Permutation_cons_app_inv. exact Hq.
Qed.

Lemma permutations_spec {A} (l : list A) q :
  In q (permutations l) <-> Permutation q l.
Proof. apply perms_fuel_spec. reflexivity. Qed.

Lemma perms_fuel_head {A} n (l : list A) :
  List.length l = n -> exists rest, perms_fuel n l = l :: rest.
Proof.
  revert l. induction n as [|n IH]; intros l Hl.
  - destruct l; [|discriminate]. exists []. reflexivity.
  - destruct l as [|a l0]; [discriminate|]. simpl in Hl. injection Hl as Hl.
    destruct (IH l0 Hl) as [rest E].
    change (perms_fuel (S n) (a :: l0)) with
      (flat_map (fun '(x, r) => map (cons x) (perms_fuel n r)) (picks (a :: l0))).
    simpl picks. cbn [flat_map]. rewrite E. simpl. eexists. reflexivity.
Qed.

Lemma permutations_head (k : nat) :
  exists rest, permutations (seq 0 k) = seq 0 k :: rest.
Proof. apply perms_fuel_head. reflexivity. Qed.

End PermFacts.

Module UnpackFacts.
Import Itertools Unpack PermFacts.

Lemma qlt_spec a b : qlt a b = true <-> (a < b)%Q.
Proof.
  unfold qlt. rewrite negb_true_iff. split.
  - intros H. apply Qnot_le_lt. intros Hle. apply Qle_bool_iff in Hle. congruence.
  - intros H. destruct (Qle_bool b a) eqn:E; [|reflexivity].
    apply Qle_bool_iff in E. exfalso. apply (Qlt_not_le a b); assumption.
Qed.

Lemma qlt_false a b : qlt a b = false <-> (b <= a)%Q.
Proof.
  unfold qlt. rewrite negb_false_iff. apply Qle_bool_iff.
Qed.

(** The running minimum of lines 190-196, over any list and cost. *)
Lemma argmin_fold {A} (f : A -> Q) (L : list A) (d : A) :
  let r := fold_left (fun '(b, bt) p =>
                        let tr := f p in if lt_inf tr bt then (p, Some tr) else (b, bt))
                     L (d, None) in
  (L = [] -> r = (d, None)) /\
  (L <> [] -> snd r = Some (f (fst r)) /\
     exists pre post, L = pre ++ fst r :: post /\
       Forall (fun q => (f (fst r) < f q)%Q) pre /\
       Forall (fun q => (f (fst r) <= f q)%Q) L).
Proof.
  induction L as [|x L IH] using rev_ind; simpl.
  - split; [reflexivity| intros []; reflexivity].
  - split; [intros E; destruct L; discriminate|]. intros _.
    rewrite fold_left_app. simpl.
    destruct (fold_left _ L (d, None)) as [b bt] eqn:E. destruct IH as [IH0 IH1].
    destruct L as [|y L'] eqn:EL.
    + specialize (IH0 eq_refl). injection IH0 as -> ->. simpl.
      split; [reflexivity|]. exists [], []. repeat split; [constructor|].
      constructor; [apply Qle_refl|constructor].
    + rewrite <- EL in *. assert (HL : L <> []) by (subst; discriminate).
      destruct (IH1 HL) as [Hbt (pre & post & Epre & Hpre & Hall)]. simpl in Hbt, Epre, Hpre, Hall.
      subst bt. simpl. destruct (qlt (f x) (f b)) eqn:Q.
      * apply qlt_spec in Q. simpl. split; [reflexivity|].
        exists L, []. split; [reflexivity|]. split.
        -- eapply Forall_impl; [|exact Hall]. intros q Hq. eapply Qlt_le_trans; eassumption.
        -- apply Forall_app. split.
           ++ eapply Forall_impl; [|exact Hall]. intros q Hq.
              apply Qlt_le_weak. eapply Qlt_le_trans; eassumption.
           ++ constructor; [apply Qle_refl|constructor].
      * apply qlt_false in Q. simpl. split; [reflexivity|].
        exists pre, (post ++ [x]). split.
        -- rewrite Epre. rewrite <- app_assoc. reflexivity.
        -- split; [exact Hpre|]. apply Forall_app. split; [exact Hall|].
           constructor; [exact Q|constructor].
Qed.

Lemma best_arrangement_spec (k : nat) (dist_mat : list (list Q)) :
  let p := best_arrangement k dist_mat in
  Permutation p (seq 0 k) /\
  (forall q, Permutation q (seq 0 k) -> (trace dist_mat p <= trace dist_mat q)%Q) /\
  exists pre post, permutations (seq 0 k) = pre ++ p :: post /\
    Forall (fun q => (trace dist_mat p < trace dist_mat q)%Q) pre.
Proof.
  pose proof (argmin_fold (trace dist_mat) (permutations (seq 0 k)) (seq 0 k)) as [_ H].
  destruct (permutations_head k) as [rest Erest].
  unfold best_arrangement. cbv zeta in *.
  set (L := permutations (seq 0 k)) in *.
  set (p := fst (fold_left _ L (seq 0 k, None))) in *.
  assert (Hne : L <> []) by (rewrite Erest; discriminate).
  destruct (H Hne) as [_ (pre & post & E & Hpre & Hall)].
  split; [|split].
  - apply permutations_spec. change (In p L). rewrite E. apply in_elt.
  - intros q Hq. apply permutations_spec in Hq. rewrite Forall_forall in Hall. apply Hall, Hq.
  - exists pre, post. split; assumption.
Qed.

(** C2.  The arrangement chosen by lines 190-196 is a permutation of the
    component indices whose trace [sum(dist_mat[i, p_i])] is least among all
    permutations, and every permutation the generator yields before it has a
    strictly larger trace: the first minimiser wins. *)
Theorem best_arrangement_first_minimum (k : nat) (dist_mat : list (list Q)) :
  let p := best_arrangement k dist_mat in
  Permutation p (seq 0 k) /\
  (forall q, Permutation q (seq 0 k) -> (trace dist_mat p <= trace dist_mat q)%Q) /\
  exists pre post, permutations (seq 0 k) = pre ++ p :: post /\
    Forall (fun q => (trace dist_mat p < trace dist_mat q)%Q) pre.
Proof. exact (best_arrangement_spec k dist_mat). Qed.

Lemma tuple_eqb_refl (l : list Q) : tuple_eqb l l = true.
Proof. induction l as [|x l IH]; simpl; [reflexivity|]. rewrite Qeq_bool_refl, IH. reflexivity. Qed.

(** *** The write of line 199 *)

Lemma existsb_lookup_in (d : string) (coordinate : list (string * Q)) v :
  lookup String.eqb d coordinate = Some v -> existsb (String.eqb d) (map fst coordinate) = true.
Proof.
  induction coordinate as [|[k w] c IH]; simpl; [discriminate|].
  destruct (String.eqb d k); [reflexivity|]. exact IH.
Qed.

(** Every dimension of [band_results] is labelled in [coordinate], so the
    indexing result has no dimension left and the 1-d list of prefixes does
    not fit into it. *)
Lemma loc_setitem_full dims coordinate frozen :
  mapM (fun d => lookup String.eqb d coordinate) dims = Some frozen ->
  loc_setitem dims coordinate 1 = None.
Proof.
  intros H. unfold loc_setitem.
  assert (E : filter (fun d => negb (existsb (String.eqb d) (map fst coordinate))) dims = []).
  { revert frozen H. induction dims as [|d dims IH]; intros frozen H; [reflexivity|].
    simpl in H. destruct (lookup String.eqb d coordinate) as [v|] eqn:Ev; [|discriminate].
    simpl in H. destruct (mapM _ dims) as [fr|] eqn:Er; [|discriminate].
    simpl. rewrite (existsb_lookup_in d coordinate v Ev). simpl. exact (IH fr eq_refl). }
  rewrite E. reflexivity.
Qed.

(** Whatever the pool and [first_coordinate], an iteration of the loop of
    lines 161-199 never completes: either an earlier step raises or the
    write of line 199 does. *)
Lemma resolve_loop_cons_raises euclid weights dims prefixes pool first cell cells :
  resolve_loop euclid weights dims prefixes pool first (cell :: cells) = None.
Proof.
  destruct cell as [coordinate fit_result]. simpl.
  destruct (mapM (fun d => lookup String.eqb d coordinate) dims) as [frozen|] eqn:Ef;
    [|reflexivity].
  simpl. destruct (resolve_slice euclid weights prefixes pool frozen fit_result)
    as [[[ordered pool'] is_first]|]; [|reflexivity].
  simpl. rewrite (loc_setitem_full dims coordinate frozen Ef). reflexivity.
Qed.

(** C3 (code bug).  The loop body raises for every slice, whatever pool of
    resolved references it meets: a slice after the first is never resolved
    against a reference, because the first slice already raises at the
    write of line 199. *)
Theorem resolve_loop_raises_with_any_pool euclid weights dims prefixes (pool : Pool) first
    coordinate fit_result cells :
  resolve_loop euclid weights dims prefixes pool first ((coordinate, fit_result) :: cells) = None.
Proof. apply resolve_loop_cons_raises. Qed.

(** C3 counterexample.  On [ex_cells] the run raises; even started from the
    pool the first slice would leave behind (its identity assignment), the
    second slice raises at the same write instead of being resolved. *)
Lemma resolve_loop_raises_with_any_pool_counterexample :
  identify_bands ex_euclid (1, 1, 1)%Q (ex_fit 0 1) ["x"%string] ex_cells = None /\
  resolve_loop ex_euclid (1, 1, 1)%Q ["x"%string] ["a_"; "b_"]%string
    [([0%Q], (["a_"; "b_"]%string, ex_fit 0 1))] (Some [("x"%string, 0%Q)])
    [([("x"%string, 1%Q)], ex_fit 1 0)] = None.
Proof. split; vm_compute; reflexivity. Qed.

(** C4 (code bug).  [unpack_bands_from_fit] records no band-identity
    assignment for any slice: a run that does not raise is one over no
    slice at all, and it records nothing. *)
Theorem identify_bands_records_no_assignment euclid weights template dims cells rows pool first :
  identify_bands euclid weights template dims cells = Some (rows, pool, first) ->
  cells = [] /\ rows = [] /\ pool = [] /\ first = None.
Proof.
  unfold identify_bands. destruct cells as [|cell cells].
  - simpl. intros [= <- <- <-]. auto.
  - rewrite resolve_loop_cons_raises. discriminate.
Qed.

Lemma identify_bands_records_no_assignment_witness :
  [] = @nil (list (string * Q) * FitResult) /\ [] = @nil (list (string * Q) * list string) /\
  [] = @nil (list Q * (list string * FitResult)) /\ None = @None (list (string * Q)).
Proof.
  apply (identify_bands_records_no_assignment ex_euclid (1, 1, 1)%Q (ex_fit 0 1) ["x"%string]).
  reflexivity.
Defined.

(** C4 counterexample.  The two slices of [ex_cells] get no assignment: the
    run raises. *)
Lemma identify_bands_records_no_assignment_counterexample :
  identify_bands ex_euclid (1, 1, 1)%Q (ex_fit 0 1) ["x"%string] ex_cells = None.
Proof. vm_compute. reflexivity. Qed.

(** C5 (code bug).  The very first slice is not recorded: the loop raises
    while processing it, whatever the rest of [band_results]. *)
Theorem identify_bands_first_slice_raises euclid weights template dims coordinate fit_result cells :
  identify_bands euclid weights template dims ((coordinate, fit_result) :: cells) = None.
Proof. apply resolve_loop_cons_raises. Qed.

(** C5 counterexample.  For the first slice of [ex_cells] the code computes
    the identity ordering [a_], [b_] and puts it in the pool, and then the
    write of line 199 raises. *)
Lemma identify_bands_first_slice_raises_counterexample :
  resolve_slice ex_euclid (1, 1, 1)%Q ["a_"; "b_"]%string [] [0%Q] (ex_fit 0 1) =
    Some (["a_"; "b_"]%string, [([0%Q], (["a_"; "b_"]%string, ex_fit 0 1))], true) /\
  loc_setitem ["x"%string] [("x"%string, 0%Q)] 1 = None /\
  identify_bands ex_euclid (1, 1, 1)%Q (ex_fit 0 1) ["x"%string] [([("x"%string, 0%Q)], ex_fit 0 1)]
    = None.
Proof. repeat split; vm_compute; reflexivity. Qed.

End UnpackFacts.

Module XrFacts.
Import Xr.

Lemma mapM_Forall2 {A B} (f : A -> option B) l r :
  mapM f l = Some r -> Forall2 (fun a b => f a = Some b) l r.
Proof.
  revert r. induction l as [|a l IH]; intros r H; simpl in H.
  - injection H as <-. constructor.
  - destruct (f a) as [b|] eqn:Ea; [|discriminate]. simpl in H.
    destruct (mapM f l) as [bs|] eqn:El; [|discriminate]. simpl in H.
    injection H as <-. constructor; [exact Ea|apply IH; reflexivity].
Qed.

Lemma mapM_some {A B} (f : A -> option B) l :
  (forall a, In a l -> exists b, f a = Some b) -> exists r, mapM f l = Some r.
Proof.
  induction l as [|a l IH]; intros H; simpl; [eexists; reflexivity|].
  destruct (H a (or_introl eq_refl)) as [b Eb]. rewrite Eb. simpl.
  assert (IH' : exists r, mapM f l = Some r) by (apply IH; intros x Hx; apply H; right; exact Hx).
  destruct IH' as [r Er]. rewrite Er. eexists; reflexivity.
Qed.

Lemma mapM_snd {A B C} (f : A -> option (B * C)) (h : A -> C) l r :
  mapM f l = Some r -> (forall a y, f a = Some y -> snd y = h a) ->
  map snd r = map h l /\ List.length r = List.length l.
Proof.
  intros H Hf. apply mapM_Forall2 in H. induction H as [|a y l r Ha Hl IH]; simpl.
  - auto.
  - destruct IH as [E1 E2]. rewrite (Hf a y Ha), E1, E2. auto.
Qed.

Lemma product_length (ls : list (list Q)) : List.length (product ls) = prod_lengths ls.
Proof.
  induction ls as [|l ls IH]; simpl; [reflexivity|].
  induction l as [|x l IHl]; simpl; [reflexivity|].
  rewrite length_app, length_map, IH, IHl. reflexivity.
Qed.

Lemma product_in (ls : list (list Q)) ss : In ss (product ls) -> Forall2 (@In Q) ss ls.
Proof.
  revert ss. induction ls as [|l ls IH]; intros ss H; simpl in H.
  - destruct H as [<-|[]]. constructor.
  - apply in_flat_map in H. destruct H as [x [Hx H]]. apply in_map_iff in H.
    destruct H as [ss' [<- H]]. constructor; [exact Hx|apply IH, H].
Qed.

Lemma in_setitem {K V} (keq : K -> K -> bool) k (v : V) d e :
  In e (setitem keq k v d) -> (exists k', keq k k' = true /\ e = (k', v)) \/ e = (k, v) \/ In e d.
Proof.
  induction d as [|[k' v'] d IH]; simpl; intros H.
  - destruct H as [<-|[]]. auto.
  - destruct (keq k k') eqn:E; simpl in H.
    + destruct H as [<-|H]; [left; eauto|right; right; right; exact H].
    + destruct H as [<-|H]; [right; right; left; reflexivity|].
      destruct (IH H) as [?|[?|?]]; auto.
Qed.

Lemma dict_zip_in keys vals e :
  In e (dict_zip keys vals) -> In e (combine keys vals).
Proof.
  unfold dict_zip.
  assert (G : forall pairs acc, In e (fold_left (fun acc '(k, v) => setitem String.eqb k v acc) pairs acc) ->
              In e pairs \/ In e acc).
  { induction pairs as [|[k v] pairs IH]; intros acc H; simpl in H; [auto|].
    destruct (IH _ H) as [?|H']; [left; right; assumption|].
    apply in_setitem in H'. destruct H' as [(k' & Ek & ->)|[->|?]].
    - apply String.eqb_eq in Ek. subst. left; left; reflexivity.
    - left; left; reflexivity.
    - auto. }
  intros H. destruct (G _ _ H) as [?|[]]. assumption.
Qed.

Lemma combine_coords arr ds selectors ss k v :
  Forall2 (fun a b => coord arr a = Some b) ds selectors -> Forall2 (@In Q) ss selectors ->
  In (k, v) (combine ds ss) -> In k ds /\ exists cs, coord arr k = Some cs /\ In v cs.
Proof.
  intros H1. revert ss. induction H1 as [|d cs ds selectors Hd H1 IH]; intros ss H2 Hin.
  - destruct ss; simpl in Hin; contradiction.
  - inversion H2 as [|v' cs' ss' ? Hv H2']; subst. simpl in Hin.
    destruct Hin as [E|Hin].
    + injection E as -> ->. split; [left; reflexivity|]. eauto.
    + destruct (IH _ H2' Hin) as [Hk Hc]. split; [right; exact Hk|exact Hc].
Qed.

Lemma filter_all_true {A} (f : A -> bool) l : (forall x, f x = true) -> filter f l = l.
Proof. intros H. induction l as [|x l IH]; simpl; [reflexivity|]. rewrite H, IH. reflexivity. Qed.

(** C8.  When every direction is a dimension of the array with a coordinate
    vector, [_iterate_marginals] yields one (slice, coordinate dict) pair per
    element of the Cartesian product of the coordinate vectors, so
    product-of-lengths many, with coordinate dicts fixed by that product in
    its row-major order (the same sequence at every call); with no
    directions it yields exactly one pair, the whole array with the empty
    dict. *)
Theorem iterate_marginals_count_and_order arr ds :
  (forall d, In d ds -> In d (dims arr) /\ exists cs, coord arr d = Some cs) ->
  (exists selectors ms,
     mapM (coord arr) ds = Some selectors /\
     iterate_marginals arr (Some ds) = Some ms /\
     List.length ms = prod_lengths selectors /\
     map snd ms = map (dict_zip ds) (product selectors)) /\
  iterate_marginals arr (Some []) = Some [(arr, [])].
Proof.
  intros Hds. split.
  - destruct (mapM_some (coord arr) ds) as [selectors Es].
    { intros d Hd. destruct (Hds d Hd) as [_ [cs Ecs]]. eauto. }
    pose proof (mapM_Forall2 _ _ _ Es) as F.
    destruct (mapM_some (fun ss => let cs := dict_zip ds ss in m <- sel arr cs ;; Some (m, cs))
                        (product selectors)) as [ms Ems].
    { intros ss Hss. apply product_in in Hss. unfold sel.
      rewrite (proj2 (forallb_forall _ _)).
      - simpl. eexists; reflexivity.
      - intros [k v] Hkv. apply dict_zip_in in Hkv.
        destruct (combine_coords _ _ _ _ _ _ F Hss Hkv) as [Hk (cs & Ecs & Hv)].
        rewrite Ecs. apply andb_true_intro. split.
        + apply existsb_exists. exists k. split; [apply (Hds k Hk)|apply String.eqb_refl].
        + apply existsb_exists. exists v. split; [exact Hv|apply Qeq_bool_refl]. }
    exists selectors, ms. unfold iterate_marginals. simpl. rewrite Es. simpl.
    split; [reflexivity|]. split; [exact Ems|].
    destruct (mapM_snd _ (dict_zip ds) _ _ Ems) as [E1 E2].
    { intros ss y Hy. simpl in Hy. destruct (sel arr (dict_zip ds ss)); simpl in Hy; [|discriminate].
      injection Hy as <-. reflexivity. }
    rewrite E2, product_length. auto.
  - destruct arr as [dm cm vm]. unfold iterate_marginals. simpl.
    unfold dict_zip, sel. simpl.
    rewrite filter_all_true by reflexivity.
    rewrite filter_all_true by (intros [d c]; reflexivity). reflexivity.
Qed.

(** The [kp] marginals of the example spectrum. *)
Lemma iterate_marginals_count_and_order_witness :
  exists selectors ms,
     mapM (coord ex_spectrum) ["kp"%string] = Some selectors /\
     iterate_marginals ex_spectrum (Some ["kp"%string]) = Some ms /\
     List.length ms = prod_lengths selectors /\
     map snd ms = map (dict_zip ["kp"%string]) (product selectors).
Proof.
  refine (proj1 (iterate_marginals_count_and_order ex_spectrum ["kp"%string] _)).
  intros d [<-|[]]. split; [left; reflexivity | eexists; reflexivity].
Defined.

End XrFacts.

Module PatternFacts.
Import Xr Pattern XrFacts.

Lemma is_between_spec x y0 y1 :
  is_between x y0 y1 = true <-> (y0 <= x <= y1 \/ y1 <= x <= y0)%Q.
Proof.
  unfold is_between. rewrite andb_true_iff, !Qle_bool_iff.
  destruct (Qlt_le_dec y0 y1) as [H | H].
  - rewrite Q.min_l, Q.max_r by (apply Qlt_le_weak; exact H).
    split; [tauto|]. intros [? | [? ?]]; [tauto|].
    exfalso. apply (Qlt_irrefl y0). eapply Qlt_le_trans; [exact H|].
    eapply Qle_trans; eassumption.
  - rewrite Q.min_r, Q.max_l by exact H.
    split; [tauto|]. intros [[? ?] | ?]; [|tauto].
    split; eapply Qle_trans; eauto.
Qed.

Lemma Qsub_neq0 a b : ~ a == b -> ~ b - a == 0.
Proof.
  intros Hab H. apply Hab.
  setoid_replace b with (b - a + a) by ring. rewrite H. ring.
Qed.

Lemma fragment_spec coord k a b : (k <= 1)%nat ->
  (is_between coord (pattern_coord k a) (pattern_coord k b) = false ->
     fragment coord (Z.of_nat k) (a, b) = Some None) /\
  (is_between coord (pattern_coord k a) (pattern_coord k b) = true ->
     exists f, fragment coord (Z.of_nat k) (a, b) = Some (Some f) /\ center_rel k coord f (a, b)).
Proof.
  intros Hk. destruct a as [a0 a1], b as [b0 b1].
  assert (Hk' : k = 0%nat \/ k = 1%nat) by lia.
  destruct Hk' as [-> | ->]; unfold pattern_coord, pattern_center, center_rel; simpl;
    unfold fragment; simpl.
  all: split; intros Hb; rewrite Hb; [reflexivity|].
  all: destruct (qlt _ _) eqn:Elt; [|destruct (Qeq_bool _ _) eqn:Eq].
  all: eexists; (split; [reflexivity|]); unfold pattern_coord, pattern_center;
    cbn [fst snd Nat.eqb]; split; [reflexivity|].
  all: try (apply Qeq_bool_iff; exact Eq).
  all: try (apply UnpackFacts.qlt_spec in Elt); try (apply UnpackFacts.qlt_false in Elt).
  all: try (assert (Hne : ~ Qeq_bool a0 b0 = true) by congruence);
       try (assert (Hne : ~ Qeq_bool a1 b1 = true) by congruence).
  all: match goal with
       | Elt : (?x < ?y)%Q |- _ =>
           assert (Hd : ~ x == y) by (intro E; rewrite E in Elt; exact (Qlt_irrefl _ Elt))
       | Hne : ~ Qeq_bool ?x ?y = true |- _ =>
           assert (Hd : ~ x == y) by (intro E; apply Hne; apply Qeq_bool_iff; exact E)
       end.
  all: split; [exact Hd|]; unfold spec_lerp; field.
  all: repeat match goal with |- _ /\ _ => split end; apply Qsub_neq0;
    first [exact Hd | intro E; apply Hd; symmetry; exact E].
Qed.

Lemma fragments_spec coord k L : (k <= 1)%nat ->
  exists fs, mapM (fragment coord (Z.of_nat k)) L = Some fs /\
    Forall2 (center_rel k coord)
      (flat_map (fun o => match o with Some f => [f] | None => [] end) fs)
      (filter (fun pr => is_between coord (pattern_coord k (fst pr)) (pattern_coord k (snd pr))) L).
Proof.
  intros Hk. induction L as [|[a b] L IH].
  - exists []. split; [reflexivity | constructor].
  - destruct IH as [fs [Hfs HF]].
    destruct (fragment_spec coord k a b Hk) as [Hno Hyes].
    destruct (is_between coord (pattern_coord k a) (pattern_coord k b)) eqn:Eb.
    + destruct (Hyes eq_refl) as [f [Hf Hc]]. exists (Some f :: fs).
      cbn [mapM]. rewrite Hf. unfold bind at 1. rewrite Hfs. split; [reflexivity|].
      cbn [filter fst snd]. rewrite Eb. constructor; assumption.
    + exists (None :: fs).
      cbn [mapM]. rewrite (Hno eq_refl). unfold bind at 1. rewrite Hfs. split; [reflexivity|].
      cbn [filter fst snd]. rewrite Eb. exact HF.
Qed.

(** [_interpolate_intersecting_fragments] at the tuple index [k]. *)
Lemma interpolate_bracketing x k points :
  (points = [] -> interpolate_intersecting_fragments x (Z.of_nat k) points = None) /\
  ((2 <= k)%nat -> (2 <= List.length points)%nat ->
     interpolate_intersecting_fragments x (Z.of_nat k) points = None) /\
  ((k <= 1)%nat -> points <> [] ->
     exists fs, interpolate_intersecting_fragments x (Z.of_nat k) points = Some fs /\
       Forall2 (center_rel k x) fs
         (filter (fun pr => is_between x (pattern_coord k (fst pr)) (pattern_coord k (snd pr)))
            (pairwise points))).
Proof.
  split; [|split].
  - intros ->. reflexivity.
  - intros Hk Hlen. destruct points as [|p [|q rest]]; simpl in Hlen; try lia.
    unfold interpolate_intersecting_fragments, pairwise. cbn [tl combine mapM].
    unfold fragment at 1. destruct p as [a b].
    replace (tup_get (a, b) (Z.of_nat k)) with (@None Q); [reflexivity|].
    unfold tup_get. destruct (Z.of_nat k) as [|[p|p|]|[p|p|]] eqn:Ez; try reflexivity; lia.
  - intros Hk Hne. destruct points as [|p ps]; [contradiction|].
    destruct (fragments_spec x k (pairwise (p :: ps)) Hk) as [fs [Hfs HF]].
    exists (flat_map (fun o => match o with Some f => [f] | None => [] end) fs).
    split; [|exact HF]. unfold interpolate_intersecting_fragments. rewrite Hfs. reflexivity.
Qed.

Lemma resolve_no_fragments arr_dims stray coord_dict marginal bd h :
  band_fragments arr_dims coord_dict bd = Some [] ->
  exists h', resolve_partial_bands arr_dims stray coord_dict marginal bd h = Some ([], h').
Proof.
  intros H. unfold resolve_partial_bands, sbind, lift.
  destruct (bd_params bd); simpl; rewrite H; simpl; eexists; reflexivity.
Qed.

Lemma band_fragments_at arr_dims coord_dict bd coord_name x k :
  List.find (fun d => existsb (String.eqb d) (map fst coord_dict))
    (match bd_dims bd with Some d => d | None => [] end) = Some coord_name ->
  lookup String.eqb coord_name coord_dict = Some x ->
  index_of coord_name arr_dims = Some k ->
  band_fragments arr_dims coord_dict bd =
    interpolate_intersecting_fragments x (Z.of_nat k)
      (match bd_points bd with Some p => p | None => [] end).
Proof.
  intros Hf Hx Hk. unfold band_fragments. rewrite Hf. cbn [bind]. rewrite Hx. cbn [bind].
  rewrite Hk. reflexivity.
Qed.

(** C6 (amended).  Let [coord_name] be the patterning dimension of a band
    at a slice, [x] the slice's coordinate there and [k] the position of
    [coord_name] in [arr.dims].  Entry [k] of a control point is its
    patterning coordinate and entry [1 - k] its center.  With [k] 0 or 1
    and at least one control point, the fragments are, in order, one per
    consecutive pair bracketing [x] (inclusive, in either order), each at
    [x] with the linear interpolation between the pair as center, [nan]
    when the pair's patterning coordinates are equal.  With no bracketing
    pair there is no fragment, and the band contributes no partial band at
    that slice.  Missing or empty control points raise, as does [k >= 2]
    with two or more control points.  The points [(0, 1), (1, 2)] with
    [k = 0] give the center 3/2 at 1/2 and nothing at 2. *)
Theorem band_fragments_bracketing arr_dims coord_dict bd coord_name x k :
  List.find (fun d => existsb (String.eqb d) (map fst coord_dict))
    (match bd_dims bd with Some d => d | None => [] end) = Some coord_name ->
  lookup String.eqb coord_name coord_dict = Some x ->
  index_of coord_name arr_dims = Some k ->
  (match bd_points bd with Some p => p | None => [] end = [] ->
     band_fragments arr_dims coord_dict bd = None) /\
  ((2 <= k)%nat -> (2 <= List.length (match bd_points bd with Some p => p | None => [] end))%nat ->
     band_fragments arr_dims coord_dict bd = None) /\
  ((k <= 1)%nat -> match bd_points bd with Some p => p | None => [] end <> [] ->
     exists fs, band_fragments arr_dims coord_dict bd = Some fs /\
       Forall2 (center_rel k x) fs
         (filter (fun pr => is_between x (pattern_coord k (fst pr)) (pattern_coord k (snd pr)))
            (pairwise (match bd_points bd with Some p => p | None => [] end)))) /\
  ((k <= 1)%nat -> match bd_points bd with Some p => p | None => [] end <> [] ->
     Forall (fun pr => is_between x (pattern_coord k (fst pr)) (pattern_coord k (snd pr)) = false)
       (pairwise (match bd_points bd with Some p => p | None => [] end)) ->
     band_fragments arr_dims coord_dict bd = Some [] /\
     forall stray marginal h,
       exists h', resolve_partial_bands arr_dims stray coord_dict marginal bd h = Some ([], h')) /\
  (forall z y0 y1, is_between z y0 y1 = true <-> (y0 <= z <= y1 \/ y1 <= z <= y0)%Q) /\
  band_fragments ["kp"; "eV"]%string [("kp"%string, 1 # 2)] ex_band_ramp = Some [(1 # 2, Fl (3 # 2))] /\
  band_fragments ["kp"; "eV"]%string [("kp"%string, 2)] ex_band_ramp = Some [].
Proof.
  intros Hf Hx Hk. rewrite (band_fragments_at _ _ _ _ _ _ Hf Hx Hk).
  destruct (interpolate_bracketing x k (match bd_points bd with Some p => p | None => [] end))
    as (H0 & H2 & H1).
  split; [exact H0|]. split; [exact H2|]. split; [exact H1|].
  split; [|split; [exact is_between_spec | split; reflexivity]].
  intros Hk1 Hne Hno. destruct (H1 Hk1 Hne) as [fs [Hfs HF]].
  assert (E : filter (fun pr => is_between x (pattern_coord k (fst pr)) (pattern_coord k (snd pr)))
                (pairwise (match bd_points bd with Some p => p | None => [] end)) = []).
  { clear - Hno. induction Hno as [|pr L Hpr HL IHL]; [reflexivity|]. simpl. rewrite Hpr. exact IHL. }
  rewrite E in HF. inversion HF; subst. split; [exact Hfs|].
  intros stray marginal h. apply resolve_no_fragments.
  rewrite (band_fragments_at _ _ _ _ _ _ Hf Hx Hk). exact Hfs.
Qed.

(** The band through (0, 1) and (1, 2) at kp = 1/2, [kp] first in
    [arr.dims]: one fragment, on the pair it brackets. *)
Lemma band_fragments_bracketing_witness :
  exists fs, band_fragments ["kp"; "eV"]%string [("kp"%string, 1 # 2)] ex_band_ramp = Some fs /\
    Forall2 (center_rel 0 (1 # 2)) fs [((0, 1), (1, 2))].
Proof.
  refine (proj1 (proj2 (proj2 (band_fragments_bracketing ["kp"; "eV"]%string [("kp"%string, 1 # 2)]
            ex_band_ramp "kp"%string (1 # 2) 0 eq_refl eq_refl eq_refl))) _ _).
  - lia.
  - discriminate.
Defined.

(** C6 counterexample.  With [kp] second in [arr.dims] the band through
    (0, 1) and (1, 2) is read as patterned at 1 and 2 with centers 0 and
    1: nothing at kp = 1/2, and the center 1/2 at kp = 3/2.  A pair with
    equal patterning coordinates gives the center [nan]; a band without
    control points raises. *)
Lemma band_fragments_bracketing_counterexample :
  band_fragments ["eV"; "kp"]%string [("kp"%string, 1 # 2)] ex_band_ramp = Some [] /\
  (exists v, band_fragments ["eV"; "kp"]%string [("kp"%string, 3 # 2)] ex_band_ramp =
               Some [(3 # 2, Fl v)] /\ v == 1 # 2) /\
  band_fragments ["kp"; "eV"]%string [("kp"%string, 0)] ex_band_flat = Some [(0, NaN)] /\
  band_fragments ["kp"; "eV"]%string [("kp"%string, 0)] ex_band_nopoints = None.
Proof.
  split; [reflexivity|]. split; [eexists; split; [reflexivity | reflexivity]|].
  split; reflexivity.
Qed.

Section LookupSetitem.
Context {K V : Type} (keq : K -> K -> bool) (Hk : forall a b, keq a b = true <-> a = b).

Lemma lookup_setitem_eq (k k' : K) (v : V) d :
  lookup keq k (setitem keq k' v d) = if keq k k' then Some v else lookup keq k d.
Proof.
  assert (Hr : forall a, keq a a = true) by (intro a; apply Hk; reflexivity).
  induction d as [|[k1 v1] d IH]; simpl.
  - destruct (keq k k'); reflexivity.
  - destruct (keq k' k1) eqn:E1; simpl.
    + apply Hk in E1; subst k1. destruct (keq k k'); reflexivity.
    + destruct (keq k k1) eqn:E3.
      * apply Hk in E3; subst k1. destruct (keq k k') eqn:E4; [|reflexivity].
        apply Hk in E4; subst. rewrite Hr in E1. discriminate.
      * rewrite IH. reflexivity.
Qed.

Lemma lookup_In (k : K) (v : V) d : lookup keq k d = Some v -> In (k, v) d.
Proof.
  induction d as [|[k1 v1] d IH]; simpl; [discriminate|].
  destruct (keq k k1) eqn:E; [apply Hk in E; subst; intros [= <-]; left; reflexivity|].
  intros H; right; auto.
Qed.

Lemma setitem_Forall (P : K * V -> Prop) k v d :
  Forall P d -> P (k, v) -> Forall P (setitem keq k v d).
Proof.
  intros HF Hp. induction HF as [|[k1 v1] d H1 HF IH]; simpl; [constructor; auto|].
  destruct (keq k k1) eqn:E; [apply Hk in E; subst|]; constructor; auto.
Qed.

Lemma setitem_setitem_same (k : K) (v1 v2 : V) d :
  setitem keq k v2 (setitem keq k v1 d) = setitem keq k v2 d.
Proof.
  induction d as [|[k1 w1] d IH]; simpl.
  - assert (Hr : keq k k = true) by (apply Hk; reflexivity). rewrite Hr. reflexivity.
  - destruct (keq k k1) eqn:E; simpl; rewrite E; [reflexivity | rewrite IH; reflexivity].
Qed.
End LookupSetitem.

Lemma string_eqb_iff a b : String.eqb a b = true <-> a = b.
Proof. apply String.eqb_eq. Qed.

Lemma sbind_inv {A B} (m : St A) (k : A -> St B) h b h'' :
  sbind m k h = Some (b, h'') -> exists a h', m h = Some (a, h') /\ k a h' = Some (b, h'').
Proof. unfold sbind. destruct (m h) as [[a h']|]; [|discriminate]. eauto. Qed.

Lemma lift_inv {A} (o : option A) h a h' : lift o h = Some (a, h') -> o = Some a /\ h' = h.
Proof. unfold lift. destruct o; [intros [= -> ->]; auto | discriminate]. Qed.

Lemma sret_inv {A} (x : A) h a h' : sret x h = Some (a, h') -> a = x /\ h' = h.
Proof. unfold sret. intros [= -> ->]. auto. Qed.

Lemma alloc_inv d h a h' : alloc d h = Some (a, h') ->
  a = next_loc h /\ h' = {| next_loc := S (next_loc h); store := setitem Nat.eqb (next_loc h) d (store h) |}.
Proof. unfold alloc. intros [= <- <-]. auto. Qed.

Lemma load_inv l h d h' : load l h = Some (d, h') -> hget h l = Some d /\ h' = h.
Proof. unfold load, hget. destruct (lookup _ _ _); [intros [= -> ->]; auto | discriminate]. Qed.

Lemma dset_inv l k v h u h' : dset l k v h = Some (u, h') ->
  exists d, hget h l = Some d /\
    h' = {| next_loc := next_loc h; store := setitem Nat.eqb l (setitem String.eqb k v d) (store h) |}.
Proof.
  unfold dset. intros H. apply sbind_inv in H as (d & h1 & Hl & Hw).
  apply load_inv in Hl as [Hl ->]. unfold write in Hw. injection Hw as _ <-. eauto.
Qed.

Lemma dgetitem_inv l k h v h' : dgetitem l k h = Some (v, h') -> entry h l k = Some v /\ h' = h.
Proof.
  unfold dgetitem. intros H. apply sbind_inv in H as (d & h1 & Hl & Hw).
  apply load_inv in Hl as [Hl ->]. apply lift_inv in Hw as [Hw ->].
  unfold entry. rewrite Hl. auto.
Qed.

Lemma dget_inv l k dflt h v h' : dget l k dflt h = Some (v, h') ->
  (exists d, hget h l = Some d /\ v = match lookup String.eqb k d with Some v => v | None => dflt end)
  /\ h' = h.
Proof.
  unfold dget. intros H. apply sbind_inv in H as (d & h1 & Hl & Hw).
  apply load_inv in Hl as [Hl ->]. apply sret_inv in Hw as [-> ->]. eauto.
Qed.

Lemma wf_hget h l d : heap_wf h -> hget h l = Some d -> (l < next_loc h)%nat /\ refs_below (next_loc h) d.
Proof.
  intros Hwf H. apply (lookup_In Nat.eqb Nat.eqb_eq) in H.
  unfold heap_wf in Hwf. rewrite Forall_forall in Hwf. exact (Hwf _ H).
Qed.

Lemma refs_lookup n d k r : refs_below n d -> lookup String.eqb k d = Some (VRef r) -> (r < n)%nat.
Proof.
  intros HF H. apply (lookup_In String.eqb string_eqb_iff) in H.
  unfold refs_below in HF. rewrite Forall_forall in HF. exact (HF _ H).
Qed.

Lemma refs_below_mono n m d : (n <= m)%nat -> refs_below n d -> refs_below m d.
Proof.
  intros Hnm. apply Forall_impl. intros [k v]; simpl. destruct v; auto. lia.
Qed.

Lemma refs_below_set n d k v :
  refs_below n d -> match v with VRef r => (r < n)%nat | _ => True end ->
  refs_below n (setitem String.eqb k v d).
Proof. intros. apply (setitem_Forall String.eqb string_eqb_iff); auto. Qed.

Lemma wf_set h n l d :
  heap_wf h -> (next_loc h <= n)%nat -> (l < n)%nat -> refs_below n d ->
  heap_wf {| next_loc := n; store := setitem Nat.eqb l d (store h) |}.
Proof.
  intros Hwf Hn Hl Hd. unfold heap_wf. simpl.
  apply (setitem_Forall Nat.eqb Nat.eqb_eq); [|split; auto].
  eapply Forall_impl; [|exact Hwf]. intros [l' d'] [H1 H2]; simpl in *.
  split; [lia | eapply refs_below_mono; [|exact H2]; lia].
Qed.

Lemma alloc_spec d h a h' : alloc d h = Some (a, h') ->
  a = next_loc h /\ next_loc h' = S a /\
  (forall x, hget h' x = if Nat.eqb x a then Some d else hget h x) /\
  (heap_wf h -> refs_below (S a) d -> heap_wf h').
Proof.
  intros E. apply alloc_inv in E as [-> ->]. split; [reflexivity|]. split; [reflexivity|].
  split.
  - intros x. unfold hget. cbn [store]. apply (lookup_setitem_eq Nat.eqb Nat.eqb_eq).
  - intros Hwf Hd. apply wf_set; auto.
Qed.

Lemma dset_spec l k v h u h' : dset l k v h = Some (u, h') ->
  exists d, hget h l = Some d /\ next_loc h' = next_loc h /\
  (forall x, hget h' x = if Nat.eqb x l then Some (setitem String.eqb k v d) else hget h x) /\
  (heap_wf h -> match v with VRef r => (r < next_loc h)%nat | _ => True end -> heap_wf h').
Proof.
  intros E. apply dset_inv in E as (d & Hd & ->). exists d. split; [exact Hd|].
  split; [reflexivity|]. split.
  - intros x. unfold hget. cbn [store]. apply (lookup_setitem_eq Nat.eqb Nat.eqb_eq).
  - intros Hwf Hv. destruct (wf_hget _ _ _ Hwf Hd) as [Hl Hr].
    apply wf_set; auto. apply refs_below_set; auto.
Qed.

Ltac nsimpl :=
  repeat rewrite Nat.eqb_refl in *;
  repeat match goal with
  | H : context [Nat.eqb ?x ?y] |- _ => rewrite (proj2 (Nat.eqb_neq x y)) in H by lia
  | |- context [Nat.eqb ?x ?y] => rewrite (proj2 (Nat.eqb_neq x y)) by lia
  | H : context [Nat.eqb ?x ?y] |- _ => rewrite (proj2 (Nat.eqb_eq x y)) in H by lia
  | |- context [Nat.eqb ?x ?y] => rewrite (proj2 (Nat.eqb_eq x y)) by lia
  end.

Ltac hq :=
  unfold sub_entry, entry in *;
  repeat progress (cbn [bind as_ref]; simpl String.eqb; cbn iota;
    try match goal with
        | G : forall x, hget ?h x = _ |- context [hget ?h _] => rewrite G
        | |- context [lookup String.eqb _ (setitem String.eqb _ _ _)] =>
            rewrite (lookup_setitem_eq String.eqb string_eqb_iff)
        end; nsimpl).

Ltac hq_in H :=
  unfold sub_entry, entry in H;
  repeat progress (cbn [bind as_ref] in H; simpl String.eqb in H; cbn iota in H;
    try match type of H with
        | context [hget ?h _] =>
            match goal with G : forall x, hget h x = _ |- _ => rewrite G in H end
        | context [lookup String.eqb _ (setitem String.eqb _ _ _)] =>
            rewrite (lookup_setitem_eq String.eqb string_eqb_iff) in H
        end; nsimpl).

Lemma build_params_run l center stray marginal h r h' :
  heap_wf h -> (exists d, hget h l = Some d) ->
  build_params l center stray marginal h = Some (r, h') ->
  r = l /\ heap_wf h' /\ (exists d, hget h' l = Some d) /\
  sub_entry h' l "center" "value" = Some (pyfloat center) /\
  (forall s, stray = Some s ->
     sub_entry h' l "center" "min" = Some (pyfloat (fl_add center (- s))) /\
     sub_entry h' l "center" "max" = Some (pyfloat (fl_add center s)) /\
     exists is, entry h' l "sigma" = Some (VRef is) /\
       (entry h l "sigma" = Some (VRef is) \/
        (entry h l "sigma" = None /\ (next_loc h <= is)%nat)) /\
       (marginal = None ->
          sub_entry h' l "sigma" "value" = Some (VNum s) /\
          (forall d, is <> l -> hget h is = Some d ->
             hget h' is = Some (setitem String.eqb "value"%string (VNum s) d))) /\
       (forall m, marginal = Some m ->
          exists near low high ia,
            slice_values m (fl_add center (- ((6 # 5) * s))) (fl_add center ((6 # 5) * s)) = Some near /\
            percentile near 20 = Some low /\ percentile near 80 = Some high /\
            entry h' l "amplitude" = Some (VRef ia) /\
            (entry h l "amplitude" = Some (VRef ia) \/
             (entry h l "amplitude" = None /\ (next_loc h <= ia)%nat /\ is <> ia)) /\
            sub_entry h' l "amplitude" "value" = Some (VNum (high - low)) /\
            sub_entry h' l "sigma" "value" =
              Some (VNum (if Nat.eqb is ia then high - low else s)) /\
            (forall d, is <> l -> hget h is = Some d ->
               hget h' is = Some (setitem String.eqb "value"%string
                                    (VNum (if Nat.eqb is ia then high - low else s)) d)))).
Proof.
  intros Hwf [d0 Hd0] H.
  destruct (wf_hget _ _ _ Hwf Hd0) as [Hl Hr0].
  assert (Hfr : forall x d, hget h x = Some d -> (x < next_loc h)%nat)
    by (intros x d Hd; exact (proj1 (wf_hget _ _ _ Hwf Hd))).
  unfold build_params in H.
  apply sbind_inv in H as (ic & h1 & E & H). apply alloc_spec in E as (-> & N1 & G1 & W1).
  specialize (W1 Hwf ltac:(destruct center; repeat constructor)).
  apply sbind_inv in H as (u & h2 & E & H). apply dset_spec in E as (d1 & Hd1 & N2 & G2 & W2).
  rewrite G1 in Hd1. nsimpl. rewrite Hd0 in Hd1. injection Hd1 as <-.
  specialize (W2 W1 ltac:(rewrite N1; lia)).
  destruct stray as [s|].
  2:{ apply sret_inv in H as [-> ->].
      split; [reflexivity|]. split; [exact W2|].
      split; [hq; eexists; reflexivity|].
      split; [hq; reflexivity|].
      intros s' [=]. }
  apply sbind_inv in H as (c & h3 & E & H). apply dgetitem_inv in E as [Ec ->].
  hq_in Ec. injection Ec as <-.
  apply sbind_inv in H as (ic & h3 & E & H). apply lift_inv in E as [Eic ->].
  cbn [as_ref] in Eic. injection Eic as <-.
  apply sbind_inv in H as (u3 & h3 & E & H). apply dset_spec in E as (dc & Hdc & N3 & G3 & W3).
  hq_in Hdc. injection Hdc as <-. specialize (W3 W2 ltac:(destruct center; exact I)).
  apply sbind_inv in H as (u4 & h4 & E & H). apply dset_spec in E as (dc & Hdc & N4 & G4 & W4).
  hq_in Hdc. injection Hdc as <-. specialize (W4 W3 ltac:(destruct center; exact I)).
  apply sbind_inv in H as (f2 & h5 & E & H). apply alloc_spec in E as (-> & N5 & G5 & W5).
  specialize (W5 W4 ltac:(constructor)).
  apply sbind_inv in H as (sg & h6 & E & H). apply dget_inv in E as [(dl & Hdl & Esg) ->].
  hq_in Hdl. injection Hdl as <-.
  rewrite (lookup_setitem_eq String.eqb string_eqb_iff) in Esg. simpl String.eqb in Esg.
  cbn iota in Esg.
  apply sbind_inv in H as (u6 & h6 & E & H). apply dset_spec in E as (dl & Hdl & N6 & G6 & W6).
  hq_in Hdl. injection Hdl as <-.
  apply sbind_inv in H as (is & h7 & E & H). apply lift_inv in E as [Eis ->].
  assert (His : ((is < next_loc h)%nat /\ lookup String.eqb "sigma"%string d0 = Some (VRef is)) \/
                (is = next_loc h4 /\ lookup String.eqb "sigma"%string d0 = None)).
  { destruct (lookup String.eqb "sigma"%string d0) as [v|] eqn:Es; subst sg.
    - destruct v; cbn [as_ref] in Eis; try discriminate. injection Eis as ->.
      left. split; [eapply refs_lookup; eassumption | reflexivity].
    - cbn [as_ref] in Eis. injection Eis as <-. right. split; reflexivity. }
  specialize (W6 W5 ltac:(destruct sg; try exact I; cbn [as_ref] in Eis; injection Eis as ->;
                          rewrite N5, N4, N3, N2, N1; destruct His as [[? ?] | [-> ?]]; lia)).
  apply sbind_inv in H as (u7 & h7 & E & H). apply dset_spec in E as (ds & Hds & N7 & G7 & W7).
  specialize (W7 W6 I).
  assert (Hsig0 : entry h l "sigma" = Some (VRef is) \/
                  (entry h l "sigma" = None /\ (next_loc h <= is)%nat)).
  { unfold entry. rewrite Hd0. cbn [bind].
    destruct His as [[_ E] | [-> E]]; [left; exact E | right; split; [exact E | lia]]. }
  destruct His as [[Hisl Hsig] | [Hisf Hsig]]; rewrite Hsig in Esg; subst sg.
  all: destruct (Nat.eqb_spec is l) as [Heql|Hnel].
  all: try (exfalso; lia).
  all: hq_in Hds; try (injection Hds as <-).
  all: destruct marginal as [m|].
  all: try (apply sret_inv in H as [-> ->];
      split; [reflexivity|]; split; [exact W7|]; split; [hq; eexists; reflexivity|];
      split; [hq; reflexivity|];
      intros s' [= <-]; split; [hq; reflexivity|]; split; [hq; reflexivity|];
      exists is; split; [hq; try rewrite Hisf; reflexivity|]; split; [exact Hsig0|];
      split; [intros _; split; [hq; reflexivity|] | intros m' [=]];
      intros d Hne Hd; hq; first [congruence | exfalso; pose proof (Hfr _ _ Hd); lia]).
  all: apply sbind_inv in H as (near & h8 & E & H); apply lift_inv in E as [Enear ->].
  all: apply sbind_inv in H as (low & h8 & E & H); apply lift_inv in E as [Elow ->].
  all: apply sbind_inv in H as (high & h8 & E & H); apply lift_inv in E as [Ehigh ->].
  all: apply sbind_inv in H as (f3 & h8 & E & H); apply alloc_spec in E as (-> & N8 & G8 & W8).
  all: specialize (W8 W7 ltac:(constructor)).
  all: apply sbind_inv in H as (am & h9 & E & H); apply dget_inv in E as [(da & Hda & Eam) ->].
  all: hq_in Hda; injection Hda as <-.
  all: repeat rewrite (lookup_setitem_eq String.eqb string_eqb_iff) in Eam;
       simpl String.eqb in Eam; cbn iota in Eam.
  all: apply sbind_inv in H as (u9 & h9 & E & H); apply dset_spec in E as (dl & Hdl & N9 & G9 & W9).
  all: hq_in Hdl; injection Hdl as <-.
  all: apply sbind_inv in H as (ia & h10 & E & H); apply lift_inv in E as [Eia ->].
  all: assert (Hia : (lookup String.eqb "amplitude"%string d0 = Some (VRef ia) /\ (ia < next_loc h)%nat) \/
                     (lookup String.eqb "amplitude"%string d0 = None /\ ia = next_loc h7))
        by (destruct (lookup String.eqb "amplitude"%string d0) as [v|] eqn:Ea; subst am;
            [destruct v; cbn [as_ref] in Eia; try discriminate; injection Eia as ->;
             left; split; [reflexivity | eapply refs_lookup; eassumption]
            | cbn [as_ref] in Eia; injection Eia as <-; right; split; reflexivity]).
  all: destruct Hia as [[Ha0 Hial] | [Ha0 Hiaf]]; rewrite Ha0 in Eam; subst am.
  all: specialize (W9 W8 ltac:(lia)).
  all: apply sbind_inv in H as (u10 & h10 & E & H); apply dset_spec in E as (dq & Hdq & N10 & G10 & W10).
  all: specialize (W10 W9 I).
  all: apply sret_inv in H as [-> ->].
  all: destruct (Nat.eqb_spec ia l) as [Heqa|Hnea]; destruct (Nat.eqb_spec is ia) as [Hsa|Hnsa].
  all: try (exfalso; lia).
  all: hq_in Hdq; try (injection Hdq as <-).
  all: split; [reflexivity|]; split; [exact W10|]; split; [hq; eexists; reflexivity|].
  all: split; [hq; reflexivity|].
  all: intros s' [= <-]; split; [hq; reflexivity|]; split; [hq; reflexivity|].
  all: exists is; split; [hq; try rewrite Hisf; reflexivity|]; split; [exact Hsig0|].
  all: split; [intros [=]|]; intros m' [= <-].
  all: exists near, low, high, ia; split; [exact Enear|]; split; [exact Elow|]; split; [exact Ehigh|].
  all: split; [hq; try rewrite Hiaf; reflexivity|].
  all: split; [unfold entry; rewrite Hd0; cbn [bind];
               first [left; exact Ha0 | right; split; [exact Ha0|]; split; lia]|].
  all: try first [rewrite (proj2 (Nat.eqb_eq is ia) Hsa) | rewrite (proj2 (Nat.eqb_neq is ia) Hnsa)].
  all: split; [hq; reflexivity|].
  all: split; [hq; reflexivity|].
  all: intros d Hne Hd; hq; try congruence; try (exfalso; pose proof (Hfr _ _ Hd); lia).
  rewrite Hds in Hd; injection Hd as <-.
  rewrite (setitem_setitem_same String.eqb string_eqb_iff). reflexivity.
Qed.


Lemma mapSt_Forall {A B} (P : B -> Prop) (f : A -> St B) L h bs h' :
  (forall a h b h', In a L -> f a h = Some (b, h') -> P b) ->
  mapSt f L h = Some (bs, h') -> Forall P bs.
Proof.
  revert h bs h'. induction L as [|a L IH]; intros h bs h' Hf H; simpl in H.
  - apply sret_inv in H as [-> _]. constructor.
  - apply sbind_inv in H as (b & h1 & E1 & H). apply sbind_inv in H as (bs' & h2 & E2 & H).
    apply sret_inv in H as [-> _]. constructor.
    + eapply Hf; [left; reflexivity | exact E1].
    + eapply IH; [intros; eapply Hf; [right; eassumption | eassumption] | exact E2].
Qed.


Lemma mapSt_length {A B} (f : A -> St B) L h bs h' :
  mapSt f L h = Some (bs, h') -> List.length bs = List.length L.
Proof.
  revert h bs h'. induction L as [|a L IH]; intros h bs h' H; simpl in H.
  - apply sret_inv in H as [-> _]. reflexivity.
  - apply sbind_inv in H as (b & h1 & _ & H). apply sbind_inv in H as (bs' & h2 & E2 & H).
    apply sret_inv in H as [-> _]. simpl. f_equal. eapply IH. exact E2.
Qed.

Lemma enumerate_from_length {A} i (L : list A) : List.length (enumerate_from i L) = List.length L.
Proof. revert i. induction L as [|a L IH]; intros i; simpl; [reflexivity | f_equal; apply IH]. Qed.

Lemma enumerate_from_last {A} i (L : list A) (dflt : A) :
  L <> [] -> snd (last (enumerate_from i L) (0%nat, dflt)) = last L dflt.
Proof.
  revert i. induction L as [|a L IH]; intros i Hne; [congruence|].
  destruct L as [|b L]; [reflexivity|].
  change (snd (last (enumerate_from (S i) (b :: L)) (0%nat, dflt)) = last (b :: L) dflt).
  apply IH. congruence.
Qed.

Lemma resolve_with_params arr_dims stray cd m bd l h pbs h' :
  bd_params bd = Some l ->
  resolve_partial_bands arr_dims stray cd m bd h = Some (pbs, h') ->
  exists frs, band_fragments arr_dims cd bd = Some frs /\
    mapSt (partial_band_of stray m bd l) (enumerate_from 0 frs) h = Some (pbs, h').
Proof.
  intros Hp H. unfold resolve_partial_bands in H. rewrite Hp in H.
  apply sbind_inv in H as (l' & h1 & E1 & H). apply sret_inv in E1 as [-> ->].
  apply sbind_inv in H as (frs & h2 & E2 & H). apply lift_inv in E2 as [E2 ->].
  eauto.
Qed.




Lemma tuple_eqb_sym a b : tuple_eqb a b = tuple_eqb b a.
Proof.
  revert b. induction a as [|x a IH]; intros [|y b]; simpl; try reflexivity.
  rewrite IH. f_equal.
  destruct (Qeq_bool x y) eqn:E1, (Qeq_bool y x) eqn:E2; try reflexivity.
  - apply Qeq_bool_iff in E1. symmetry in E1. apply Qeq_bool_iff in E1. congruence.
  - apply Qeq_bool_iff in E2. symmetry in E2. apply Qeq_bool_iff in E2. congruence.
Qed.

Lemma loc_set_spec {V} k (v : V) g g' :
  loc_set k v g = Some g' ->
  map fst g' = map fst g /\
  forall i k' c, nth_error g i = Some (k', c) ->
    nth_error g' i = Some (k', if tuple_eqb k k' then v else c).
Proof.
  unfold loc_set. destruct (existsb _ g); [intros [= <-] | discriminate].
  split.
  - rewrite map_map. apply map_ext. intros [k' c]. destruct (tuple_eqb k k'); reflexivity.
  - intros i k' c H. rewrite nth_error_map, H. simpl. destruct (tuple_eqb k k'); reflexivity.
Qed.

Lemma resolve_none arr_dims stray cd m bd h pbs h' :
  band_fragments arr_dims cd bd = Some [] ->
  resolve_partial_bands arr_dims stray cd m bd h = Some (pbs, h') -> pbs = [].
Proof.
  intros Hf H. unfold resolve_partial_bands in H.
  apply sbind_inv in H as (p & h1 & _ & H). apply sbind_inv in H as (frs & h2 & E2 & H).
  apply lift_inv in E2 as [E2 ->]. rewrite Hf in E2. injection E2 as <-.
  simpl in H. apply sret_inv in H as [-> _]. reflexivity.
Qed.

Lemma mapSt_exists {A B} (f : A -> St B) (P : B -> Prop) L h :
  (forall a h, In a L -> exists b h', f a h = Some (b, h') /\ P b) ->
  exists bs h', mapSt f L h = Some (bs, h') /\ Forall P bs.
Proof.
  revert h. induction L as [|a L IH]; intros h Hf; simpl.
  - exists [], h. split; [reflexivity | constructor].
  - destruct (Hf a h (or_introl eq_refl)) as (b & h1 & E1 & Hb).
    destruct (IH h1 (fun a' h' Ha => Hf a' h' (or_intror Ha))) as (bs & h2 & E2 & Hbs).
    exists (b :: bs), h2. unfold sbind. rewrite E1, E2. split; [reflexivity | constructor; auto].
Qed.

Lemma filter_nil_Forall {A} (f : A -> bool) L : Forall (fun x => f x = false) L -> filter f L = [].
Proof. induction 1; simpl; [reflexivity|]. rewrite H. assumption. Qed.

Lemma slice_cell_no_bands {FitRes} (fit : list Model -> DataArray -> option FitRes)
    arr_dims stray bg band_set cd m :
  no_bands_at arr_dims band_set cd ->
  (forall h, exists h', slice_cell fit arr_dims stray bg band_set cd m h = Some (None, h')) /\
  (forall h c h', slice_cell fit arr_dims stray bg band_set cd m h = Some (c, h') -> c = None).
Proof.
  intros Hno.
  assert (Hpb : forall h pbs h', mapSt (resolve_partial_bands arr_dims stray cd m)
                                   (map snd band_set) h = Some (pbs, h') -> Forall (fun p => p = []) pbs).
  { intros h pbs h' H. eapply mapSt_Forall; [|exact H].
    intros bd h1 b h2 Hin E. unfold no_bands_at in Hno. rewrite Forall_forall in Hno.
    exact (resolve_none _ _ _ _ _ _ _ _ (Hno bd Hin) E). }
  assert (Hfilt : forall pbs : list (list PartialBand), Forall (fun p => p = []) pbs ->
                  filter (fun p => negb (Nat.eqb (List.length p) 0)) pbs = []).
  { intros pbs HF. apply filter_nil_Forall. eapply Forall_impl; [|exact HF].
    intros p ->. reflexivity. }
  split.
  - intros h.
    destruct (mapSt_exists (resolve_partial_bands arr_dims stray cd m) (fun p => p = [])
                (map snd band_set) h) as (pbs & h1 & E1 & HF).
    { intros bd h0 Hin. unfold no_bands_at in Hno. rewrite Forall_forall in Hno.
      destruct (resolve_no_fragments arr_dims stray cd m bd h0 (Hno bd Hin)) as [h2 E].
      exists [], h2. split; [exact E | reflexivity]. }
    exists h1. unfold slice_cell, slice_partial_bands, sbind at 1.
    unfold sbind at 1. rewrite E1. cbv beta zeta. pose proof (Hfilt _ HF) as EE. rewrite EE. reflexivity.
  - intros h c h' H. unfold slice_cell in H.
    apply sbind_inv in H as (pbs & h1 & E1 & H). unfold slice_partial_bands in E1.
    apply sbind_inv in E1 as (pbs0 & h2 & E2 & E1).
    rewrite (Hfilt _ (Hpb _ _ _ E2)) in E1. apply sret_inv in E1 as [-> ->].
    simpl in H. apply sbind_inv in H as (ms & h3 & E3 & H). apply sret_inv in E3 as [-> ->].
    apply sret_inv in H as [-> _]. reflexivity.
Qed.

Lemma sweep_keys {FitRes} (fit : list Model -> DataArray -> option FitRes) arr_dims free stray bg band_set slices :
  forall (g : Grid (option FitRes)) h g' h',
  sweep_slices fit arr_dims free stray bg band_set slices g h = Some (g', h') -> map fst g' = map fst g.
Proof.
  induction slices as [|[cd m] slices IH]; intros g h g' h' H; simpl in H.
  - apply sret_inv in H as [-> _]. reflexivity.
  - apply sbind_inv in H as (c & h1 & _ & H). apply sbind_inv in H as (kk & h2 & _ & H).
    apply sbind_inv in H as (g1 & h3 & E3 & H). apply lift_inv in E3 as [E3 ->].
    rewrite (IH _ _ _ _ H). exact (proj1 (loc_set_spec _ _ _ _ E3)).
Qed.

Lemma sweep_keeps_none {FitRes} (fit : list Model -> DataArray -> option FitRes) arr_dims free stray bg band_set slices :
  forall (g : Grid (option FitRes)) h g' h' i k,
  sweep_slices fit arr_dims free stray bg band_set slices g h = Some (g', h') ->
  nth_error g i = Some (k, None) ->
  (forall cd m kk, In (cd, m) slices -> grid_key free cd = Some kk -> tuple_eqb kk k = true ->
     no_bands_at arr_dims band_set cd) ->
  nth_error g' i = Some (k, None).
Proof.
  induction slices as [|[cd m] slices IH]; intros g h g' h' i k H Hi Hno; simpl in H.
  - apply sret_inv in H as [-> _]. exact Hi.
  - apply sbind_inv in H as (c & h1 & E1 & H).
    apply sbind_inv in H as (kk & h2 & E2 & H). apply lift_inv in E2 as [E2 ->].
    apply sbind_inv in H as (g1 & h3 & E3 & H). apply lift_inv in E3 as [E3 ->].
    destruct (loc_set_spec _ _ _ _ E3) as [_ Hg1].
    specialize (Hg1 i k None Hi).
    eapply IH; [exact H | | intros; eapply Hno; [right; eassumption | eassumption | eassumption]].
    rewrite Hg1. destruct (tuple_eqb kk k) eqn:Ek; [|reflexivity].
    rewrite (proj2 (slice_cell_no_bands fit _ _ _ _ _ m
                      (Hno cd m kk (or_introl eq_refl) E2 Ek)) _ _ _ E1).
    reflexivity.
Qed.

Lemma residual_fold_none {FitRes} residual_of n (g : Grid (option FitRes)) L :
  fold_left (residual_step FitRes residual_of n g) L None = None.
Proof. induction L as [|kc L IH]; simpl; [reflexivity | exact IH]. Qed.

Lemma residual_shape {FitRes} residual_of n (g : Grid (option FitRes)) L :
  forall r0 r, fold_left (residual_step FitRes residual_of n g) L (Some r0) = Some r ->
  Forall (fun row => List.length (snd row) = n) r0 ->
  map fst r = map fst r0 /\ Forall (fun row => List.length (snd row) = n) r.
Proof.
  induction L as [|kc L IH]; intros r0 r H HF; cbn [fold_left] in H.
  - injection H as <-. auto.
  - unfold residual_step at 2 in H. cbn [bind] in H.
    destruct (sel_item (fst kc) g) as [[rr|]|]; cbn [bind] in H;
      [| exact (IH _ _ H HF) | rewrite residual_fold_none in H; discriminate].
    destruct (Nat.eqb (List.length (residual_of rr)) n) eqn:En; [|exact (IH _ _ H HF)].
    destruct (loc_set (fst kc) (residual_of rr) r0) as [r1|] eqn:El; [|exact (IH _ _ H HF)].
    destruct (loc_set_spec _ _ _ _ El) as [Hk1 _].
    assert (HF1 : Forall (fun row => List.length (snd row) = n) r1).
    { unfold loc_set in El. destruct (existsb _ r0); [|discriminate]. injection El as <-.
      apply Forall_map. eapply Forall_impl; [|exact HF]. intros [k c] Hc.
      destruct (tuple_eqb (fst kc) k); simpl; [apply Nat.eqb_eq; exact En | exact Hc]. }
    destruct (IH _ _ H HF1) as [Hk HF']. split; [congruence | exact HF'].
Qed.

Lemma residual_keeps {FitRes} residual_of n (g : Grid (option FitRes)) L :
  forall r0 r i ss z,
  fold_left (residual_step FitRes residual_of n g) L (Some r0) = Some r ->
  nth_error r0 i = Some (ss, z) ->
  (forall kc, In kc L -> tuple_eqb (fst kc) ss = true -> sel_item (fst kc) g = Some None) ->
  nth_error r i = Some (ss, z).
Proof.
  induction L as [|kc L IH]; intros r0 r i ss z H Hi Hsel; cbn [fold_left] in H.
  - injection H as <-. exact Hi.
  - assert (Hsel' : forall kc', In kc' L -> tuple_eqb (fst kc') ss = true ->
                    sel_item (fst kc') g = Some None) by (intros; apply Hsel; [right|]; assumption).
    unfold residual_step at 2 in H. cbn [bind] in H.
    destruct (sel_item (fst kc) g) as [[rr|]|] eqn:Es; cbn [bind] in H;
      [| exact (IH _ _ _ _ _ H Hi Hsel') | rewrite residual_fold_none in H; discriminate].
    destruct (Nat.eqb (List.length (residual_of rr)) n); [|exact (IH _ _ _ _ _ H Hi Hsel')].
    destruct (loc_set (fst kc) (residual_of rr) r0) as [r1|] eqn:El; [|exact (IH _ _ _ _ _ H Hi Hsel')].
    eapply IH; [exact H | | exact Hsel'].
    rewrite (proj2 (loc_set_spec _ _ _ _ El) i ss z Hi).
    destruct (tuple_eqb (fst kc) ss) eqn:Ek; [|reflexivity].
    rewrite (Hsel kc (or_introl eq_refl) Ek) in Es. discriminate.
Qed.

Lemma filter_unique {A} (f : A -> bool) L i y :
  nth_error L i = Some y -> f y = true ->
  (forall j x, nth_error L j = Some x -> f x = true -> j = i) -> filter f L = [y].
Proof.
  revert i. induction L as [|a L IH]; intros i Hi Hy Hu; [destruct i; discriminate|].
  destruct i as [|i]; simpl in Hi.
  - injection Hi as ->. simpl. rewrite Hy. f_equal.
    apply filter_nil_Forall. apply Forall_forall. intros x Hx.
    destruct (f x) eqn:Ex; [|reflexivity].
    apply In_nth_error in Hx as [j Hj].
    specialize (Hu (S j) x Hj Ex). discriminate.
  - simpl. destruct (f a) eqn:Ea.
    + specialize (Hu 0%nat a eq_refl Ea). discriminate.
    + apply (IH i Hi Hy). intros j x Hj Hx. specialize (Hu (S j) x Hj Hx). congruence.
Qed.

Lemma mapM_ext_in {A B} (f g : A -> option B) l :
  (forall a, In a l -> f a = g a) -> mapM f l = mapM g l.
Proof.
  induction l as [|a l IH]; intros H; simpl; [reflexivity|].
  rewrite (H a (or_introl eq_refl)), IH by (intros; apply H; right; assumption). reflexivity.
Qed.

Lemma lookup_fold_setitem (pairs acc : list (string * Q)) d :
  NoDup (map fst pairs) ->
  lookup String.eqb d (fold_left (fun acc '(k, v) => setitem String.eqb k v acc) pairs acc) =
  match lookup String.eqb d pairs with Some v => Some v | None => lookup String.eqb d acc end.
Proof.
  revert acc. induction pairs as [|[k v] pairs IH]; intros acc Hnd; simpl; [reflexivity|].
  inversion Hnd as [|? ? Hk Hnd']; subst.
  rewrite (IH _ Hnd'). rewrite (lookup_setitem_eq String.eqb string_eqb_iff).
  destruct (String.eqb d k) eqn:Edk.
  - apply String.eqb_eq in Edk. subst d.
    destruct (lookup String.eqb k pairs) as [v'|] eqn:Ek; [|reflexivity].
    exfalso. apply Hk. apply (lookup_In String.eqb string_eqb_iff) in Ek.
    apply (in_map fst) in Ek. exact Ek.
  - destruct (lookup String.eqb d pairs); reflexivity.
Qed.

Lemma grid_key_dict_zip free ss :
  NoDup free -> List.length ss = List.length free -> grid_key free (dict_zip free ss) = Some ss.
Proof.
  intros Hnd Hlen. unfold grid_key, dict_zip.
  assert (Hfst : map fst (combine free ss) = free).
  { revert ss Hlen. induction free as [|d free IH]; intros [|s ss] Hlen; simpl in *;
      try discriminate; try reflexivity. f_equal. apply IH; [inversion Hnd; assumption | congruence]. }
  rewrite (mapM_ext_in _ (fun d => lookup String.eqb d (combine free ss))).
  2:{ intros a _. rewrite lookup_fold_setitem by (rewrite Hfst; exact Hnd).
      destruct (lookup String.eqb a (combine free ss)); reflexivity. }
  clear Hfst. revert ss Hlen. induction free as [|d free IH]; intros [|s ss] Hlen;
    simpl in *; try discriminate; [reflexivity|].
  inversion Hnd as [|? ? Hd Hnd']; subst.
  rewrite String.eqb_refl. cbn [bind].
  rewrite (mapM_ext_in _ (fun d0 => lookup String.eqb d0 (combine free ss))).
  - rewrite (IH Hnd' ss ltac:(congruence)). reflexivity.
  - intros a Ha. destruct (String.eqb a d) eqn:E; [|reflexivity].
    apply String.eqb_eq in E. subst. contradiction.
Qed.

Lemma list_remove_NoDup x l l' : list_remove x l = Some l' -> NoDup l -> NoDup l'.
Proof.
  revert l'. induction l as [|y l IH]; intros l' H Hnd; simpl in H; [discriminate|].
  inversion Hnd as [|? ? Hy Hnd']; subst.
  destruct (String.eqb x y); [injection H as <-; exact Hnd'|].
  destruct (list_remove x l) as [r|] eqn:Er; simpl in H; [|discriminate].
  injection H as <-. constructor; [|exact (IH r eq_refl Hnd')].
  intros Hin. apply Hy. clear - Er Hin. revert r Er Hin.
  induction l as [|z l IH]; intros r Er Hin; simpl in Er; [discriminate|].
  destruct (String.eqb x z); [injection Er as <-; right; exact Hin|].
  destruct (list_remove x l) as [r'|]; simpl in Er; [|discriminate].
  injection Er as <-. destruct Hin as [<-|Hin]; [left; reflexivity | right; eapply IH; eauto].
Qed.

Lemma Forall2_In_r {A B} (R : A -> B -> Prop) l1 l2 y :
  Forall2 R l1 l2 -> In y l2 -> exists x, In x l1 /\ R x y.
Proof.
  induction 1 as [|a b l1 l2 Hab H IH]; intros Hin; [destruct Hin|].
  destruct Hin as [<-|Hin]; [exists a; split; [left|]; auto|].
  destruct (IH Hin) as [x [Hx Hr]]. exists x. split; [right|]; auto.
Qed.

(** C7: in [fit_patterned_bands], a slice with no available band (no band of [band_set]
    has a bracketing control-point pair there; the background is only appended to a
    nonempty band list) is a slice whose [slice_cell] returns the sentinel [None] rather
    than failing.  Whenever the sweep returns, the result grid has one cell per
    free-direction coordinate combination, in the order of [product]; the residual grid
    has the same keys and rows of the length of the fit axis; and at a slice with no
    band (whose coordinate tuple is not repeated) the result cell is [None] and the
    residual row stays all zeros. *)
Theorem fit_patterned_no_band_sentinel {FitRes} (fit : list Model -> DataArray -> option FitRes)
    residual_of arr band_set fit_direction stray background h g res h' :
  NoDup (dims arr) ->
  fit_patterned_bands fit residual_of arr band_set fit_direction stray background h =
    Some ((g, res), h') ->
  exists free selectors fc,
    list_remove fit_direction (dims arr) = Some free /\
    mapM (coord arr) free = Some selectors /\
    coord arr fit_direction = Some fc /\
    map fst g = product selectors /\ List.length g = prod_lengths selectors /\
    map fst res = product selectors /\
    Forall (fun row => List.length (snd row) = List.length fc) res /\
    (forall i ss, nth_error (product selectors) i = Some ss ->
       (forall j ss', nth_error (product selectors) j = Some ss' -> tuple_eqb ss' ss = true -> j = i) ->
       no_bands_at (dims arr) band_set (dict_zip free ss) ->
       nth_error g i = Some (ss, None) /\
       nth_error res i = Some (ss, List.repeat 0 (List.length fc))) /\
    (forall bg cd m h0, no_bands_at (dims arr) band_set cd ->
       exists h1, slice_cell fit (dims arr) stray bg band_set cd m h0 = Some (None, h1)).
Proof.
  intros Hnd H. unfold fit_patterned_bands in H.
  apply sbind_inv in H as (free & h1 & E & H). apply lift_inv in E as [Efree ->].
  apply sbind_inv in H as (sels & h1 & E & H). apply lift_inv in E as [Esels ->].
  apply sbind_inv in H as (slices & h1 & E & H). apply lift_inv in E as [Eslices ->].
  apply sbind_inv in H as (g1 & h2 & Esweep & H).
  apply sbind_inv in H as (fc & h3 & E & H). apply lift_inv in E as [Efc ->].
  apply sbind_inv in H as (r1 & h4 & E & H). apply lift_inv in E as [Eres ->].
  apply sret_inv in H as [E ->]. injection E as -> ->.
  set (g0 := map (fun ss => (ss, @None FitRes)) (product sels)) in *.
  assert (Hk0 : map fst g0 = product sels).
  { unfold g0. rewrite map_map. apply map_id. }
  pose proof (sweep_keys _ _ _ _ _ _ _ _ _ _ _ Esweep) as Hk1. rewrite Hk0 in Hk1.
  set (n := List.length fc) in *.
  set (res0 := map (fun kc => (fst kc, List.repeat 0%Q n)) g1) in *.
  assert (HF0 : Forall (fun row => List.length (snd row) = n) res0).
  { unfold res0. apply Forall_map. apply Forall_forall. intros kc _. apply repeat_length. }
  destruct (residual_shape _ _ _ _ _ _ Eres HF0) as [Hkr HFr].
  assert (Hkr0 : map fst res0 = map fst g1).
  { unfold res0. rewrite map_map. reflexivity. }
  assert (Hnd' : NoDup free) by exact (list_remove_NoDup _ _ _ Efree Hnd).
  assert (Hlen : forall ss, In ss (product sels) -> List.length ss = List.length free).
  { intros ss Hss. apply product_in in Hss. apply Forall2_length in Hss.
    apply mapM_Forall2 in Esels. apply Forall2_length in Esels. congruence. }
  exists free, sels, fc.
  split; [exact Efree|]. split; [exact Esels|]. split; [exact Efc|].
  split; [exact Hk1|].
  split; [rewrite <- product_length, <- Hk1, length_map; reflexivity|].
  split; [congruence|].
  split; [exact HFr|].
  split.
  - intros i ss Hi Hu Hno.
    assert (Hg1 : nth_error g1 i = Some (ss, None)).
    { eapply sweep_keeps_none; [exact Esweep | unfold g0; rewrite nth_error_map, Hi; reflexivity |].
      intros cd m kk Hin Hkk Ekk.
      unfold iterate_axis in Eslices. rewrite Esels in Eslices. cbn [bind] in Eslices.
      apply mapM_Forall2 in Eslices.
      destruct (Forall2_In_r _ _ _ _ Eslices Hin) as (ss' & Hss' & Hm).
      destruct (sel arr (dict_zip free ss')); cbn [bind] in Hm; [|discriminate].
      injection Hm as <- _.
      rewrite (grid_key_dict_zip free ss' Hnd' (Hlen ss' Hss')) in Hkk. injection Hkk as <-.
      apply In_nth_error in Hss' as [j Hj].
      rewrite <- (Hu j ss' Hj Ekk) in Hi. rewrite Hj in Hi. injection Hi as ->. exact Hno. }
    split; [exact Hg1|].
    eapply residual_keeps; [exact Eres | unfold res0; rewrite nth_error_map, Hg1; reflexivity |].
    intros kc Hkc Ekc.
    assert (Hfst : In (fst kc) (product sels)) by (rewrite <- Hk1; apply in_map; exact Hkc).
    apply In_nth_error in Hfst as [j Hj].
    pose proof (Hu j _ Hj Ekc) as ->. rewrite Hi in Hj. injection Hj as Ej.
    rewrite <- Ej. unfold sel_item.
    rewrite (filter_unique _ g1 i (ss, None)); [reflexivity | exact Hg1 | simpl; rewrite <- Ej in Ekc; exact Ekc |].
    intros j' [k' c'] Hj' Ek'. simpl in Ek'.
    assert (Hk' : nth_error (product sels) j' = Some k').
    { rewrite <- Hk1, nth_error_map, Hj'. reflexivity. }
    apply (Hu j' k' Hk'). rewrite tuple_eqb_sym. simpl. exact Ek'.
  - intros bg cd m h0 Hno. exact (proj1 (slice_cell_no_bands fit _ _ _ _ _ m Hno) h0).
Qed.

(** A band patterned outside the [kp] range of the example spectrum: the
    first cell is the sentinel and its residual row stays zero. *)
Lemma fit_patterned_no_band_sentinel_witness :
  exists g res h',
    fit_patterned_bands (fun _ _ => Some tt) (fun _ => [0; 0; 0; 0; 0]%Q) ex_spectrum
      [("p"%string, ex_band)] "eV" (Some 1) true ex_heap = Some ((g, res), h') /\
    nth_error g 0 = Some ([0%Q], None) /\ nth_error res 0 = Some ([0%Q], [0; 0; 0; 0; 0]%Q).
Proof.
  destruct (fit_patterned_bands (fun _ _ => Some tt) (fun _ => [0; 0; 0; 0; 0]%Q) ex_spectrum
      [("p"%string, ex_band)] "eV" (Some 1) true ex_heap) as [[[g res] h']|] eqn:H;
    [|vm_compute in H; discriminate].
  exists g, res, h'. split; [reflexivity|].
  assert (Hnd : NoDup (dims ex_spectrum)).
  { constructor; [intros [Hc|[]]; discriminate | constructor; [intros []|constructor]]. }
  destruct (fit_patterned_no_band_sentinel _ _ _ _ _ _ _ _ _ _ _ Hnd H)
    as (free & sels & fc & Ef & Es & Efc & _ & _ & _ & _ & Hi & _).
  vm_compute in Ef. injection Ef as <-. vm_compute in Es. injection Es as <-.
  vm_compute in Efc. injection Efc as <-.
  destruct (Hi 0%nat [0%Q]) as [H1 H2].
  - reflexivity.
  - intros [|[|j]] ss' Hj He; [reflexivity | | destruct j; discriminate].
    injection Hj as <-. vm_compute in He. discriminate.
  - constructor; [vm_compute; reflexivity | constructor].
  - split; [exact H1 | exact H2].
Defined.

Lemma residual_row {FitRes} residual_of n (g : Grid (option FitRes)) L c :
  forall r0 r i ss z,
  fold_left (residual_step FitRes residual_of n g) L (Some r0) = Some r ->
  nth_error r0 i = Some (ss, z) ->
  (forall kc, In kc L -> tuple_eqb (fst kc) ss = true -> sel_item (fst kc) g = Some c) ->
  nth_error r i = Some (ss,
    match c with
    | Some rr => if Nat.eqb (List.length (residual_of rr)) n
                 then (if existsb (fun kc => tuple_eqb (fst kc) ss) L then residual_of rr else z)
                 else z
    | None => z
    end).
Proof.
  induction L as [|kc L IH]; intros r0 r i ss z H Hi Hsel; cbn [fold_left] in H.
  - injection H as <-. rewrite Hi. destruct c as [rr|]; [destruct (Nat.eqb _ _)|]; reflexivity.
  - assert (Hsel' : forall kc', In kc' L -> tuple_eqb (fst kc') ss = true ->
                    sel_item (fst kc') g = Some c) by (intros; apply Hsel; [right|]; assumption).
    cbn [existsb].
    destruct (tuple_eqb (fst kc) ss) eqn:Ek.
    + unfold residual_step at 2 in H. cbn [bind] in H.
      rewrite (Hsel kc (or_introl eq_refl) Ek) in H. cbn [bind] in H.
      destruct c as [rr|]; [|exact (IH _ _ _ _ _ H Hi Hsel')].
      destruct (Nat.eqb (List.length (residual_of rr)) n) eqn:En; [|exact (IH _ _ _ _ _ H Hi Hsel')].
      destruct (loc_set (fst kc) (residual_of rr) r0) as [r1|] eqn:El.
      * assert (Hi1 : nth_error r1 i = Some (ss, residual_of rr)).
        { rewrite (proj2 (loc_set_spec _ _ _ _ El) i ss z Hi), Ek. reflexivity. }
        rewrite (IH _ _ _ _ _ H Hi1 Hsel'). simpl.
        destruct (existsb _ L); reflexivity.
      * exfalso. unfold loc_set in El.
        assert (Hex : existsb (fun kc' => tuple_eqb (fst kc) (fst kc')) r0 = true).
        { apply existsb_exists. exists (ss, z). split; [eapply nth_error_In; exact Hi | exact Ek]. }
        rewrite Hex in El. discriminate.
    + cbn [orb].
      assert (Hi1 : exists r1, fold_left (residual_step FitRes residual_of n g) L (Some r1) = Some r /\
                               nth_error r1 i = Some (ss, z)).
      { unfold residual_step at 2 in H. cbn [bind] in H.
        destruct (sel_item (fst kc) g) as [[rr|]|]; cbn [bind] in H;
          [| exists r0; split; assumption | rewrite residual_fold_none in H; discriminate].
        destruct (Nat.eqb (List.length (residual_of rr)) n); [|exists r0; split; assumption].
        destruct (loc_set (fst kc) (residual_of rr) r0) as [r1|] eqn:El; [|exists r0; split; assumption].
        exists r1. split; [exact H|].
        rewrite (proj2 (loc_set_spec _ _ _ _ El) i ss z Hi), Ek. reflexivity. }
      destruct Hi1 as (r1 & H1 & Hr1). exact (IH _ _ _ _ _ H1 Hr1 Hsel').
Qed.

(** The residual of [fit_patterned_bands] has one row per cell of the
    result grid, with the same labels; the row of a uniquely labelled cell
    holding a fit result is that result's residual when its length is the
    length of the fit axis, and zeros otherwise (the failed assignment is
    suppressed); the row of an empty cell is zeros. *)
Theorem fit_patterned_residual_rows {FitRes} (fit : list Model -> DataArray -> option FitRes)
    residual_of arr band_set fit_direction stray background h g res h' :
  fit_patterned_bands fit residual_of arr band_set fit_direction stray background h =
    Some ((g, res), h') ->
  exists fc, coord arr fit_direction = Some fc /\ map fst res = map fst g /\
  forall i ss c, nth_error g i = Some (ss, c) ->
    (forall j k' c', nth_error g j = Some (k', c') -> tuple_eqb k' ss = true -> j = i) ->
    nth_error res i = Some (ss,
      match c with
      | Some r => if Nat.eqb (List.length (residual_of r)) (List.length fc)
                  then residual_of r else List.repeat 0 (List.length fc)
      | None => List.repeat 0 (List.length fc)
      end).
Proof.
  intros H. unfold fit_patterned_bands in H.
  apply sbind_inv in H as (free & h1 & E & H). apply lift_inv in E as [Efree ->].
  apply sbind_inv in H as (sels & h1 & E & H). apply lift_inv in E as [Esels ->].
  apply sbind_inv in H as (slices & h1 & E & H). apply lift_inv in E as [Eslices ->].
  apply sbind_inv in H as (g1 & h2 & Esweep & H).
  apply sbind_inv in H as (fc & h3 & E & H). apply lift_inv in E as [Efc ->].
  apply sbind_inv in H as (r1 & h4 & E & H). apply lift_inv in E as [Eres ->].
  apply sret_inv in H as [E ->]. injection E as -> ->.
  set (n := List.length fc) in *.
  set (res0 := map (fun kc => (fst kc, List.repeat 0%Q n)) g1) in *.
  assert (HF0 : Forall (fun row => List.length (snd row) = n) res0).
  { unfold res0. apply Forall_map. apply Forall_forall. intros kc _. apply repeat_length. }
  destruct (residual_shape _ _ _ _ _ _ Eres HF0) as [Hkr _].
  exists fc. split; [exact Efc|]. split.
  { rewrite Hkr. unfold res0. rewrite map_map. reflexivity. }
  intros i ss c Hi Hu.
  rewrite (residual_row residual_of n g1 g1 c res0 r1 i ss (List.repeat 0%Q n) Eres).
  - destruct c as [rr|]; [|reflexivity].
    destruct (Nat.eqb _ _); [|reflexivity].
    replace (existsb (fun kc => tuple_eqb (fst kc) ss) g1) with true; [reflexivity|].
    symmetry. apply existsb_exists. exists (ss, Some rr). split; [eapply nth_error_In; exact Hi|].
    apply UnpackFacts.tuple_eqb_refl.
  - unfold res0. rewrite nth_error_map, Hi. reflexivity.
  - intros kc Hkc Ekc.
    apply In_nth_error in Hkc as [j Hj]. destruct kc as [k' c']. simpl in Ekc |- *.
    pose proof (Hu j k' c' Hj Ekc) as ->. rewrite Hi in Hj. injection Hj as <- <-.
    unfold sel_item.
    rewrite (filter_unique _ g1 i (ss, c)); [reflexivity | exact Hi | simpl; apply UnpackFacts.tuple_eqb_refl |].
    intros j' [k'' c''] Hj' Ek'. simpl in Ek'.
    apply (Hu j' k'' c'' Hj'). rewrite tuple_eqb_sym. exact Ek'.
Qed.

Lemma list_remove_absent x l : ~ In x l -> list_remove x l = None.
Proof.
  induction l as [|y l IH]; intros Hx; simpl; [reflexivity|].
  destruct (String.eqb x y) eqn:E.
  - apply String.eqb_eq in E. subst. exfalso. apply Hx. left. reflexivity.
  - rewrite IH; [reflexivity | intros Hin; apply Hx; right; exact Hin].
Qed.

(** [free_directions.remove(fit_direction)] raises when the fit direction
    is not a dimension of the array, so [fit_patterned_bands] with the
    default [fit_direction = ""] fails on every array without a dimension
    named [""]. *)
Theorem fit_patterned_missing_direction_raises {FitRes} (fit : list Model -> DataArray -> option FitRes)
    residual_of arr band_set fit_direction stray background h :
  ~ In fit_direction (dims arr) ->
  fit_patterned_bands fit residual_of arr band_set fit_direction stray background h = None.
Proof.
  intros Hx. unfold fit_patterned_bands, sbind at 1, lift at 1.
  rewrite (list_remove_absent _ _ Hx). reflexivity.
Qed.

Lemma mapSt_In_run {A B} (f : A -> St B) L h bs h' a :
  mapSt f L h = Some (bs, h') -> In a L ->
  exists h0 b h1, f a h0 = Some (b, h1) /\ In b bs.
Proof.
  revert h bs h'. induction L as [|x L IH]; intros h bs h' H Ha; [destruct Ha|]. simpl in H.
  apply sbind_inv in H as (b & h1 & E1 & H). apply sbind_inv in H as (bs' & h2 & E2 & H).
  apply sret_inv in H as [-> _].
  destruct Ha as [<-|Ha].
  - exists h, b, h1. split; [exact E1 | left; reflexivity].
  - destruct (IH _ _ _ E2 Ha) as (h0 & b' & h3 & E & Hin).
    exists h0, b', h3. split; [exact E | right; exact Hin].
Qed.

Lemma mapSt_fails {A B} (f : A -> St B) L a :
  (forall h, f a h = None) -> In a L -> forall h, mapSt f L h = None.
Proof.
  intros Hf. induction L as [|x L IH]; intros Ha h; [destruct Ha|]. simpl. unfold sbind at 1.
  destruct Ha as [<-|Ha].
  - rewrite Hf. reflexivity.
  - destruct (f x h) as [[b h1]|]; [|reflexivity].
    unfold sbind. rewrite (IH Ha h1). reflexivity.
Qed.

Lemma resolve_length arr_dims stray cd m bd h pbs h' :
  resolve_partial_bands arr_dims stray cd m bd h = Some (pbs, h') ->
  exists frs, band_fragments arr_dims cd bd = Some frs /\ List.length pbs = List.length frs.
Proof.
  intros H. unfold resolve_partial_bands in H.
  apply sbind_inv in H as (p & h1 & _ & H). apply sbind_inv in H as (frs & h2 & E2 & H).
  apply lift_inv in E2 as [E2 ->]. exists frs. split; [exact E2|].
  rewrite (mapSt_length _ _ _ _ _ H). apply enumerate_from_length.
Qed.

Lemma slice_cell_not_a_band_raises {FitRes} (fit : list Model -> DataArray -> option FitRes)
    arr_dims stray band_set cd m bd :
  In bd (map snd band_set) -> band_fragments arr_dims cd bd <> Some [] ->
  forall h, slice_cell fit arr_dims stray NotABand band_set cd m h = None.
Proof.
  intros Hbd Hfr h. unfold slice_cell, slice_partial_bands.
  unfold sbind at 1. unfold sbind at 1.
  destruct (mapSt (resolve_partial_bands arr_dims stray cd m) (map snd band_set) h)
    as [[pbs h1]|] eqn:E; [|reflexivity].
  destruct (mapSt_In_run _ _ _ _ _ _ E Hbd) as (h0 & pb & h2 & Epb & Hin).
  destruct (resolve_length _ _ _ _ _ _ _ _ Epb) as (frs & Efrs & Hlen).
  assert (Hne : pb <> []).
  { intros ->. destruct frs; [congruence | discriminate]. }
  assert (Hf : In pb (filter (fun p => negb (Nat.eqb (List.length p) 0)) pbs)).
  { apply filter_In. split; [exact Hin|]. destruct pb; [congruence | reflexivity]. }
  destruct (filter (fun p => negb (Nat.eqb (List.length p) 0)) pbs) as [|p0 ps] eqn:Ef;
    [destruct Hf|].
  unfold sbind at 1, alloc. cbv beta iota. unfold sret at 1.
  unfold sbind at 1.   rewrite (mapSt_fails instantiate_band _
             {| pb_band := NotABand; pb_name := EmptyString; pb_params := next_loc h1 |}).
  - reflexivity.
  - intros h3. reflexivity.
  - apply in_concat. exists [{| pb_band := NotABand; pb_name := EmptyString; pb_params := next_loc h1 |}].
    split; [apply in_or_app; right; left; reflexivity | left; reflexivity].
Qed.

Lemma sweep_slices_fails {FitRes} (fit : list Model -> DataArray -> option FitRes)
    arr_dims free stray bg band_set cd m slices :
  (forall h, slice_cell fit arr_dims stray bg band_set cd m h = None) ->
  In (cd, m) slices ->
  forall g h, sweep_slices fit arr_dims free stray bg band_set slices g h = None.
Proof.
  intros Hc. induction slices as [|[cd' m'] slices IH]; intros Hin g h; [destruct Hin|].
  simpl. unfold sbind at 1. destruct Hin as [E|Hin].
  - injection E as -> ->. rewrite Hc. reflexivity.
  - destruct (slice_cell fit arr_dims stray bg band_set cd' m' h) as [[c h1]|]; [|reflexivity].
    unfold sbind at 1, lift at 1. destruct (grid_key free cd') as [k|]; [|reflexivity].
    unfold sbind at 1, lift at 1. destruct (loc_set k c g) as [g'|]; [|reflexivity].
    apply IH. exact Hin.
Qed.

(** With [background=False] the background entry is still appended
    ([False is not None]), and instantiating it fails, so the sweep raises at
    the first slice where some band has a fragment (or fails to resolve). *)
Theorem fit_patterned_background_false_raises {FitRes} (fit : list Model -> DataArray -> option FitRes)
    residual_of arr band_set fit_direction stray h free slices cd m bd :
  list_remove fit_direction (dims arr) = Some free ->
  iterate_axis arr free = Some slices ->
  In (cd, m) slices -> In bd (map snd band_set) ->
  band_fragments (dims arr) cd bd <> Some [] ->
  fit_patterned_bands fit residual_of arr band_set fit_direction stray false h = None.
Proof.
  intros Efree Eslices Hin Hbd Hfr. unfold fit_patterned_bands.
  unfold sbind at 1, lift at 1. rewrite Efree.
  unfold sbind at 1, lift at 1.
  destruct (mapM (coord arr) free) as [sels|] eqn:Es; [|reflexivity].
  unfold sbind at 1, lift at 1. rewrite Eslices.
  unfold sbind at 1.
  rewrite (sweep_slices_fails fit _ _ _ _ _ cd m slices
             (slice_cell_not_a_band_raises fit _ _ _ _ m bd Hbd Hfr) Hin).
  reflexivity.
Qed.

Lemma mapM_total {A B} (f : A -> option B) l :
  (forall a, In a l -> f a <> None) -> mapM f l <> None.
Proof.
  induction l as [|a l IH]; intros Hf; simpl; [discriminate|].
  destruct (f a) as [b|] eqn:E; [|exfalso; exact (Hf a (or_introl eq_refl) E)].
  cbn [bind]. destruct (mapM f l) as [bs|]; [discriminate|].
  exfalso. apply IH; [intros; apply Hf; right; assumption | reflexivity].
Qed.

Lemma fragment_total coord (i : nat) pr : (i <= 1)%nat -> fragment coord (Z.of_nat i) pr <> None.
Proof.
  intros Hi. destruct pr as [[a b] [c d]].
  destruct i as [|[|i]]; [| |lia]; unfold fragment; simpl;
    destruct (is_between _ _ _); simpl; try discriminate; destruct (qlt _ _); try discriminate;
    destruct (Qeq_bool _ _); discriminate.
Qed.

(** [_interpolate_intersecting_fragments] with the index [coord_index] of
    a dimension raises exactly when there are no points, or when there are
    at least two and the index is 2 or more: bands can only be patterned
    along one of the first two dimensions of the array. *)
Theorem interpolate_fragments_raises_iff coord (i : nat) points :
  interpolate_intersecting_fragments coord (Z.of_nat i) points = None <->
  points = [] \/ (2 <= List.length points /\ 2 <= i)%nat.
Proof.
  destruct points as [|p [|q rest]].
  - split; [left; reflexivity | reflexivity].
  - simpl. split; [discriminate | intros [H|[H _]]; [discriminate | simpl in H; lia]].
  - split.
    + intros H. right. split; [simpl; lia|].
      destruct (Nat.le_gt_cases 2 i) as [Hi|Hi]; [exact Hi|exfalso].
      unfold interpolate_intersecting_fragments in H.
      destruct (mapM (fragment coord (Z.of_nat i)) (pairwise (p :: q :: rest))) eqn:E;
        [discriminate|].
      revert E. apply mapM_total. intros pr _. apply fragment_total. lia.
    + intros [H|[_ Hi]]; [discriminate|].
      unfold interpolate_intersecting_fragments, pairwise. cbn [tl combine mapM].
      unfold fragment at 1. destruct p as [a b].
      replace (tup_get (a, b) (Z.of_nat i)) with (@None Q); [reflexivity|].
      unfold tup_get. destruct (Z.of_nat i) as [|[p|p|]|[p|p|]] eqn:Ez; try reflexivity; lia.
Qed.


Lemma fit_patterned_missing_direction_raises_witness :
  ~ In EmptyString (dims ex_spectrum) /\
  fit_patterned_bands (fun _ _ => Some tt) (fun _ => [0; 0; 0; 0; 0]%Q) ex_spectrum
    [("q"%string, ex_band_span)] EmptyString (Some 1) true ex_heap = None.
Proof.
  assert (Hn : ~ In EmptyString (dims ex_spectrum)).
  { simpl. intros [H|[H|[]]]; discriminate. }
  split; [exact Hn | exact (fit_patterned_missing_direction_raises _ _ _ _ _ _ _ _ Hn)].
Defined.

Lemma fit_patterned_background_false_raises_witness :
  fit_patterned_bands (fun _ _ => Some tt) (fun _ => [0; 0; 0; 0; 0]%Q) ex_spectrum
    [("q"%string, ex_band_span)] "eV" (Some 1) false ex_heap = None.
Proof.
  destruct (iterate_axis ex_spectrum ["kp"%string]) as [[|[cd m] rest]|] eqn:Es;
    [vm_compute in Es; discriminate | | vm_compute in Es; discriminate].
  apply (fit_patterned_background_false_raises _ _ _ _ _ _ _ ["kp"%string] ((cd, m) :: rest) cd m ex_band_span).
  - reflexivity.
  - exact Es.
  - left; reflexivity.
  - left; reflexivity.
  - vm_compute in Es. injection Es as <- _ _. vm_compute. discriminate.
Defined.

Lemma fit_patterned_residual_rows_witness :
  exists g res h',
    fit_patterned_bands (fun _ _ => Some tt) (fun _ => [1; 1; 1; 1; 1]%Q) ex_spectrum
      [("q"%string, ex_band_span)] "eV" (Some 1) true ex_heap = Some ((g, res), h') /\
    nth_error g 0 = Some ([0%Q], Some tt) /\ nth_error res 0 = Some ([0%Q], [1; 1; 1; 1; 1]%Q).
Proof.
  destruct (fit_patterned_bands (fun _ _ => Some tt) (fun _ => [1; 1; 1; 1; 1]%Q) ex_spectrum
      [("q"%string, ex_band_span)] "eV" (Some 1) true ex_heap) as [[[g res] h']|] eqn:H;
    [|vm_compute in H; discriminate].
  exists g, res, h'. split; [reflexivity|].
  destruct (fit_patterned_residual_rows _ _ _ _ _ _ _ _ _ _ _ H) as (fc & Efc & _ & Hrow).
  vm_compute in Efc. injection Efc as <-.
  vm_compute in H. injection H as <- <- _.
  split; [reflexivity|].
  apply (Hrow 0%nat [0%Q] (Some tt) eq_refl).
  intros [|[|j]] k' c' Hj He; [reflexivity | | destruct j; discriminate].
  injection Hj as <- _. vm_compute in He. discriminate.
Defined.


Lemma dset_hget_other x k v h u h' y :
  dset x k v h = Some (u, h') -> x <> y -> hget h' y = hget h y.
Proof.
  intros E Hxy. destruct (dset_spec _ _ _ _ _ _ E) as (d & _ & _ & G & _).
  rewrite G. rewrite (proj2 (Nat.eqb_neq y x)) by congruence. reflexivity.
Qed.

Lemma dset_entry_other x k v h u h' l kk :
  dset x k v h = Some (u, h') -> String.eqb kk k = false -> entry h' l kk = entry h l kk.
Proof.
  intros E Hk. destruct (dset_spec _ _ _ _ _ _ E) as (d & Hd & _ & G & _).
  unfold entry. rewrite G. destruct (Nat.eqb_spec l x) as [->|Hn]; [|reflexivity].
  rewrite Hd. cbn [bind]. rewrite (lookup_setitem_eq String.eqb string_eqb_iff), Hk. reflexivity.
Qed.

Lemma alloc_hget_other d h a h' y :
  alloc d h = Some (a, h') -> y <> next_loc h -> hget h' y = hget h y.
Proof.
  intros E Hy. destruct (alloc_spec _ _ _ _ E) as (-> & _ & G & _).
  rewrite G, (proj2 (Nat.eqb_neq y (next_loc h))) by exact Hy. reflexivity.
Qed.

Lemma alloc_entry_other d h a h' l kk :
  alloc d h = Some (a, h') -> l <> next_loc h -> entry h' l kk = entry h l kk.
Proof. intros E Hl. unfold entry. rewrite (alloc_hget_other _ _ _ _ _ E Hl). reflexivity. Qed.

Lemma dget_same l k dflt h v h' : dget l k dflt h = Some (v, h') -> h' = h.
Proof. intros E. exact (proj2 (dget_inv _ _ _ _ _ _ E)). Qed.

Lemma dset_entry_loc_other x k v h u h' l kk :
  dset x k v h = Some (u, h') -> x <> l -> entry h' l kk = entry h l kk.
Proof. intros E Hx. unfold entry. rewrite (dset_hget_other _ _ _ _ _ _ l E Hx). reflexivity. Qed.

Lemma dset_next x k v h u h' : dset x k v h = Some (u, h') -> next_loc h' = next_loc h.
Proof. intros E. destruct (dset_spec _ _ _ _ _ _ E) as (d & _ & N & _). exact N. Qed.

Lemma dset_hget_self x k v h u h' :
  dset x k v h = Some (u, h') -> exists d, hget h x = Some d /\ hget h' x = Some (setitem String.eqb k v d).
Proof.
  intros E. destruct (dset_spec _ _ _ _ _ _ E) as (d & Hd & _ & G & _).
  exists d. split; [exact Hd|]. rewrite G, Nat.eqb_refl. reflexivity.
Qed.

Lemma dget_entry l k dflt h v h' :
  dget l k dflt h = Some (v, h') -> h' = h /\ v = match entry h l k with Some v => v | None => dflt end.
Proof.
  intros E. destruct (dget_inv _ _ _ _ _ _ E) as [(d & Hd & Ev) ->]. split; [reflexivity|].
  unfold entry. rewrite Hd. exact Ev.
Qed.

Ltac keep_entry E :=
  match type of E with
  | dset _ _ _ _ = Some _ => first
      [ rewrite (dset_entry_other _ _ _ _ _ _ _ _ E) by reflexivity
      | rewrite (dset_entry_loc_other _ _ _ _ _ _ _ _ E) by lia ]
  | alloc _ _ = Some _ => rewrite (alloc_entry_other _ _ _ _ _ _ E) by lia
  end.

(** [_build_params] replaces the [center] entry of [params] with a fresh
    dict (one that did not exist before the call) holding exactly [value]
    and, with a stray, [min] and [max]: a center hint already present in
    [params] is dropped, its other keys included. *)
Theorem build_params_fresh_center l center stray marginal h r h' :
  heap_wf h -> (exists d, hget h l = Some d) ->
  build_params l center stray marginal h = Some (r, h') ->
  exists c, (next_loc h <= c)%nat /\ entry h' l "center" = Some (VRef c) /\
    hget h' c = Some (match stray with
                      | None => [("value"%string, pyfloat center)]
                      | Some s => [("value"%string, pyfloat center); ("min"%string, pyfloat (fl_add center (- s)));
                                   ("max"%string, pyfloat (fl_add center s))]
                      end).
Proof.
  intros Hwf [d0 Hd0] H.
  destruct (wf_hget _ _ _ Hwf Hd0) as [Hl Hr0].
  assert (Href : forall k rr, entry h l k = Some (VRef rr) -> (rr < next_loc h)%nat).
  { intros k rr Hk. unfold entry in Hk. rewrite Hd0 in Hk. exact (refs_lookup _ _ _ _ Hr0 Hk). }
  unfold build_params in H.
  apply sbind_inv in H as (c0 & h1 & E1 & H). pose proof E1 as E1'.
  apply alloc_spec in E1' as (-> & N1 & G1 & _).
  apply sbind_inv in H as (u & h2 & E2 & H). pose proof (dset_next _ _ _ _ _ _ E2) as N2.
  set (c0 := next_loc h) in *.
  assert (Hc2 : entry h2 l "center" = Some (VRef c0)).
  { destruct (dset_hget_self _ _ _ _ _ _ E2) as (d & _ & Hd). unfold entry. rewrite Hd. cbn [bind].
    rewrite (lookup_setitem_eq String.eqb string_eqb_iff). reflexivity. }
  assert (Hv2 : hget h2 c0 = Some [("value"%string, pyfloat center)]).
  { rewrite (dset_hget_other _ _ _ _ _ _ c0 E2) by lia. rewrite G1, Nat.eqb_refl. reflexivity. }
  assert (Hs2 : forall k, String.eqb k "center" = false -> entry h2 l k = entry h l k).
  { intros k Hk. rewrite (dset_entry_other _ _ _ _ _ _ _ _ E2 Hk). keep_entry E1. reflexivity. }
  destruct stray as [s|].
  2:{ apply sret_inv in H as [-> ->]. exists c0. split; [lia|]. split; assumption. }
  apply sbind_inv in H as (c & h3 & E & H). apply dgetitem_inv in E as [Ec ->].
  rewrite Hc2 in Ec. injection Ec as <-.
  apply sbind_inv in H as (ic & h3 & E & H). apply lift_inv in E as [Eic ->].
  cbn [as_ref] in Eic. injection Eic as <-.
  apply sbind_inv in H as (u3 & h3 & E3 & H). pose proof (dset_next _ _ _ _ _ _ E3) as N3.
  apply sbind_inv in H as (u4 & h4 & E4 & H). pose proof (dset_next _ _ _ _ _ _ E4) as N4.
  assert (Hv4 : hget h4 c0 = Some [("value"%string, pyfloat center); ("min"%string, pyfloat (fl_add center (- s)));
                                   ("max"%string, pyfloat (fl_add center s))]).
  { destruct (dset_hget_self _ _ _ _ _ _ E3) as (d & Hd & Hd'). rewrite Hv2 in Hd. injection Hd as <-.
    destruct (dset_hget_self _ _ _ _ _ _ E4) as (d & Hd & Hd4). rewrite Hd' in Hd. injection Hd as <-.
    exact Hd4. }
  assert (Hc4 : entry h4 l "center" = Some (VRef c0)) by (keep_entry E4; keep_entry E3; exact Hc2).
  assert (Hs4 : forall k, String.eqb k "center" = false -> entry h4 l k = entry h l k).
  { intros k Hk. keep_entry E4. keep_entry E3. exact (Hs2 k Hk). }
  apply sbind_inv in H as (f2 & h5 & E5 & H). pose proof E5 as E5'.
  apply alloc_spec in E5' as (-> & N5 & _ & _).
  assert (Hn4 : next_loc h4 = S c0) by (rewrite N4, N3, N2, N1; reflexivity).
  assert (Hc5 : entry h5 l "center" = Some (VRef c0)) by (keep_entry E5; exact Hc4).
  assert (Hv5 : hget h5 c0 = hget h4 c0) by (apply (alloc_hget_other _ _ _ _ _ E5); lia).
  rewrite Hv4 in Hv5.
  apply sbind_inv in H as (sg & h6 & E6 & H). apply dget_entry in E6 as [-> Esg].
  apply sbind_inv in H as (u6 & h6 & E6 & H). pose proof (dset_next _ _ _ _ _ _ E6) as N6.
  apply sbind_inv in H as (is & h7 & E & H). apply lift_inv in E as [Eis ->].
  assert (His : (is < c0)%nat \/ is = S c0).
  { rewrite (alloc_entry_other _ _ _ _ _ _ E5) in Esg by lia. rewrite Hs4 in Esg by reflexivity.
    destruct (entry h l "sigma") as [v|] eqn:Ev; subst sg.
    - destruct v; cbn [as_ref] in Eis; try discriminate. injection Eis as ->. left. exact (Href _ _ Ev).
    - cbn [as_ref] in Eis. injection Eis as <-. right. exact Hn4. }
  assert (Hc6 : entry h6 l "center" = Some (VRef c0)) by (keep_entry E6; exact Hc5).
  assert (Hv6 : hget h6 c0 = hget h5 c0) by (apply (dset_hget_other _ _ _ _ _ _ _ E6); lia).
  rewrite Hv5 in Hv6.
  apply sbind_inv in H as (u7 & h7 & E7 & H). pose proof (dset_next _ _ _ _ _ _ E7) as N7.
  assert (Hc7 : entry h7 l "center" = Some (VRef c0)) by (keep_entry E7; exact Hc6).
  assert (Hv7 : hget h7 c0 = hget h6 c0) by (apply (dset_hget_other _ _ _ _ _ _ _ E7); lia).
  rewrite Hv6 in Hv7.
  destruct marginal as [m|].
  2:{ apply sret_inv in H as [-> ->]. exists c0. split; [lia|]. split; assumption. }
  apply sbind_inv in H as (near & h8 & E & H); apply lift_inv in E as [_ ->].
  apply sbind_inv in H as (low & h8 & E & H); apply lift_inv in E as [_ ->].
  apply sbind_inv in H as (high & h8 & E & H); apply lift_inv in E as [_ ->].
  apply sbind_inv in H as (f3 & h8 & E8 & H). pose proof E8 as E8'.
  apply alloc_spec in E8' as (-> & N8 & _ & _).
  assert (Hn7 : next_loc h7 = S (S c0)) by (rewrite N7, N6, N5, Hn4; reflexivity).
  assert (Hc8 : entry h8 l "center" = Some (VRef c0)) by (keep_entry E8; exact Hc7).
  assert (Hv8 : hget h8 c0 = hget h7 c0) by (apply (alloc_hget_other _ _ _ _ _ E8); lia).
  rewrite Hv7 in Hv8.
  apply sbind_inv in H as (am & h9 & E9 & H). apply dget_entry in E9 as [-> Eam].
  apply sbind_inv in H as (u9 & h9 & E9 & H).
  apply sbind_inv in H as (ia & h10 & E & H). apply lift_inv in E as [Eia ->].
  assert (Hia : (ia < c0)%nat \/ ia = S (S c0)).
  { rewrite (alloc_entry_other _ _ _ _ _ _ E8) in Eam by lia.
    rewrite (dset_entry_other _ _ _ _ _ _ _ _ E7) in Eam by reflexivity.
    rewrite (dset_entry_other _ _ _ _ _ _ _ _ E6) in Eam by reflexivity.
    rewrite (alloc_entry_other _ _ _ _ _ _ E5) in Eam by lia.
    rewrite Hs4 in Eam by reflexivity.
    destruct (entry h l "amplitude") as [v|] eqn:Ev; subst am.
    - destruct v; cbn [as_ref] in Eia; try discriminate. injection Eia as ->. left. exact (Href _ _ Ev).
    - cbn [as_ref] in Eia. injection Eia as <-. right. exact Hn7. }
  assert (Hc9 : entry h9 l "center" = Some (VRef c0)) by (keep_entry E9; exact Hc8).
  assert (Hv9 : hget h9 c0 = hget h8 c0) by (apply (dset_hget_other _ _ _ _ _ _ _ E9); lia).
  rewrite Hv8 in Hv9.
  apply sbind_inv in H as (u10 & h10 & E10 & H). apply sret_inv in H as [-> ->].
  exists c0. split; [lia|]. split.
  - keep_entry E10. exact Hc9.
  - rewrite (dset_hget_other _ _ _ _ _ _ _ E10) by lia. exact Hv9.
Qed.


Lemma build_params_fresh_center_witness :
  exists r h', build_params 0 (Fl 3) (Some 1) None ex_center_heap = Some (r, h') /\
  exists c, (2 <= c)%nat /\ entry h' 0 "center" = Some (VRef c) /\
    hget h' c = Some [("value"%string, VNum 3); ("min"%string, VNum (3 + -1));
                      ("max"%string, VNum (3 + 1))].
Proof.
  destruct (build_params 0 (Fl 3) (Some 1) None ex_center_heap) as [[r h']|] eqn:H;
    [|vm_compute in H; discriminate].
  exists r, h'. split; [reflexivity|].
  assert (Hwf : heap_wf ex_center_heap).
  { unfold heap_wf, refs_below; simpl. repeat constructor. }
  assert (Hd : exists d, hget ex_center_heap 0 = Some d) by (eexists; reflexivity).
  exact (build_params_fresh_center _ _ _ _ _ _ _ Hwf Hd H).
Defined.

Lemma insert_sorted_perm x l : Permutation.Permutation (insert_sorted x l) (x :: l).
Proof.
  induction l as [|y l IH]; simpl; [reflexivity|].
  destruct (Qle_bool x y); [reflexivity|].
  etransitivity; [apply Permutation.perm_skip; exact IH | apply Permutation.perm_swap].
Qed.

Lemma insert_sorted_sorted x l : Sorted Qle l -> Sorted Qle (insert_sorted x l).
Proof.
  induction 1 as [|y l Hl IH Hhd]; simpl; [repeat constructor|].
  destruct (Qle_bool x y) eqn:E.
  - constructor; [constructor; assumption | constructor; apply Qle_bool_iff; exact E].
  - assert (Hyx : y <= x) by (apply Qlt_le_weak, Qnot_le_lt; intros Hc; apply Qle_bool_iff in Hc; congruence).
    constructor; [exact IH|].
    destruct l as [|z l]; simpl; [constructor; exact Hyx|].
    destruct (Qle_bool x z); constructor; [exact Hyx|]. inversion Hhd; assumption.
Qed.

Lemma sort_q_sorted a : Sorted Qle (sort_q a).
Proof. induction a as [|x a IH]; simpl; [constructor | apply insert_sorted_sorted; exact IH]. Qed.

Lemma sort_q_length a : List.length (sort_q a) = List.length a.
Proof.
  induction a as [|x a IH]; simpl; [reflexivity|].
  rewrite (Permutation.Permutation_length (insert_sorted_perm x (sort_q a))). simpl. rewrite IH. reflexivity.
Qed.

Lemma sorted_nth (s : list Q) : Sorted Qle s ->
  forall i j d, (i <= j)%nat -> (j < List.length s)%nat -> nth i s d <= nth j s d.
Proof.
  intros Hs. apply Sorted_StronglySorted in Hs; [|intros x y z; apply Qle_trans].
  induction Hs as [|x s Hs IH Hx]; intros i j d Hij Hj; simpl in Hj; [lia|].
  destruct i as [|i], j as [|j]; simpl; [apply Qle_refl| |lia|apply IH; lia].
  rewrite Forall_forall in Hx. apply Hx. apply nth_In. lia.
Qed.

Lemma floor_nat_bounds h : 0 <= h ->
  inject_Z (Z.of_nat (Z.to_nat (Qfloor h))) <= h /\ h < inject_Z (Z.of_nat (Z.to_nat (Qfloor h))) + 1.
Proof.
  intros Hh.
  assert (H0 : (0 <= Qfloor h)%Z).
  { apply Z.le_trans with (Qfloor 0); [reflexivity | apply Qfloor_resp_le; exact Hh]. }
  rewrite Z2Nat.id by exact H0. split; [apply Qfloor_le|].
  pose proof (Qlt_floor h) as Hl. rewrite inject_Z_plus in Hl. exact Hl.
Qed.

Lemma interp_mono (s : list Q) (N : nat) h1 h2 :
  Sorted Qle s -> List.length s = S N ->
  0 <= h1 -> h1 <= h2 -> h2 <= inject_Z (Z.of_nat N) ->
  let i1 := Z.to_nat (Qfloor h1) in let i2 := Z.to_nat (Qfloor h2) in
  nth i1 s 0 + (h1 - inject_Z (Z.of_nat i1)) * (nth (S i1) s (nth i1 s 0) - nth i1 s 0) <=
  nth i2 s 0 + (h2 - inject_Z (Z.of_nat i2)) * (nth (S i2) s (nth i2 s 0) - nth i2 s 0).
Proof.
  intros Hs Hlen H1 H12 H2 i1 i2.
  destruct (floor_nat_bounds h1 H1) as [L1 U1]. fold i1 in L1, U1.
  destruct (floor_nat_bounds h2 ltac:(lra)) as [L2 U2]. fold i2 in L2, U2.
  assert (Hi2 : (i2 <= N)%nat).
  { destruct (Nat.le_gt_cases i2 N) as [|Hc]; [assumption|].
    exfalso. assert (inject_Z (Z.of_nat (S N)) <= inject_Z (Z.of_nat i2)) by (rewrite <- Zle_Qle; lia).
    rewrite Nat2Z.inj_succ, <- Z.add_1_r, inject_Z_plus in H. change (inject_Z 1) with 1 in H. lra. }
  assert (Hi12 : (i1 <= i2)%nat).
  { destruct (Nat.le_gt_cases i1 i2) as [|Hc]; [assumption|].
    exfalso. assert (inject_Z (Z.of_nat (S i2)) <= inject_Z (Z.of_nat i1)) by (rewrite <- Zle_Qle; lia).
    rewrite Nat2Z.inj_succ, <- Z.add_1_r, inject_Z_plus in H. change (inject_Z 1) with 1 in H. lra. }
  (* the value at h is between s_i and s_{i+1} (equal to s_N when i = N) *)
  assert (Hseg : forall h i, 0 <= h -> inject_Z (Z.of_nat i) <= h -> h < inject_Z (Z.of_nat i) + 1 ->
                 h <= inject_Z (Z.of_nat N) -> (i <= N)%nat ->
                 nth i s 0 <= nth i s 0 + (h - inject_Z (Z.of_nat i)) * (nth (S i) s (nth i s 0) - nth i s 0) /\
                 nth i s 0 + (h - inject_Z (Z.of_nat i)) * (nth (S i) s (nth i s 0) - nth i s 0)
                   <= nth (S i) s (nth i s 0) /\
                 (forall h', h <= h' -> h' < inject_Z (Z.of_nat i) + 1 -> h' <= inject_Z (Z.of_nat N) ->
                    nth i s 0 + (h - inject_Z (Z.of_nat i)) * (nth (S i) s (nth i s 0) - nth i s 0) <=
                    nth i s 0 + (h' - inject_Z (Z.of_nat i)) * (nth (S i) s (nth i s 0) - nth i s 0))).
  { intros h i Hh0 Li Ui HN HiN.
    destruct (Nat.eq_dec i N) as [->|Hne].
    - assert (Eo : nth (S N) s (nth N s 0) = nth N s 0) by (apply nth_overflow; lia). rewrite Eo.
      setoid_replace (nth N s 0 - nth N s 0) with 0 by ring.
      split; [lra|]. split; [lra|]. intros h' _ _ _. lra.
    - assert (Hd : 0 <= nth (S i) s (nth i s 0) - nth i s 0).
      { rewrite (nth_indep s (nth i s 0) 0) by lia.
        assert (nth i s 0 <= nth (S i) s 0) by (apply sorted_nth; auto; lia). lra. }
      set (d := nth (S i) s (nth i s 0) - nth i s 0) in *.
      split; [|split].
      + assert (0 <= (h - inject_Z (Z.of_nat i)) * d) by (apply Qmult_le_0_compat; lra).
        set (p := (h - inject_Z (Z.of_nat i)) * d) in *. lra.
      + assert ((h - inject_Z (Z.of_nat i)) * d <= 1 * d) by (apply Qmult_le_compat_r; lra).
        set (p := (h - inject_Z (Z.of_nat i)) * d) in *.
        setoid_replace (1 * d) with d in H by ring. unfold d in H |- *. lra.
      + intros h' Hh' _ _.
        assert ((h - inject_Z (Z.of_nat i)) * d <= (h' - inject_Z (Z.of_nat i)) * d)
          by (apply Qmult_le_compat_r; lra).
        set (p := (h - inject_Z (Z.of_nat i)) * d) in *.
        set (p' := (h' - inject_Z (Z.of_nat i)) * d) in *. lra. }
  destruct (Nat.eq_dec i1 i2) as [Heq|Hne].
  - rewrite <- Heq. rewrite <- Heq in U2. apply (Hseg h1 i1 H1 L1 U1 ltac:(lra) ltac:(lia)); lra.
  - destruct (Hseg h1 i1 H1 L1 U1 ltac:(lra) ltac:(lia)) as (_ & A1 & _).
    destruct (Hseg h2 i2 ltac:(lra) L2 U2 H2 Hi2) as (A2 & _ & _).
    assert (B : nth (S i1) s (nth i1 s 0) <= nth i2 s 0).
    { rewrite (nth_indep s (nth i1 s 0) 0) by lia. apply sorted_nth; auto; lia. }
    lra.
Qed.

Theorem percentile_monotone a q1 q2 p1 p2 :
  0 <= q1 -> q1 <= q2 -> q2 <= 100 ->
  percentile a q1 = Some p1 -> percentile a q2 = Some p2 -> p1 <= p2.
Proof.
  intros Hq1 Hq12 Hq2. unfold percentile.
  pose proof (sort_q_sorted a) as Hs.
  destruct (sort_q a) as [|x xs] eqn:Es; [discriminate|].
  intros E1 E2. injection E1 as <-. injection E2 as <-.
  set (N := (List.length (x :: xs) - 1)%nat).
  assert (HN : List.length (x :: xs) = S N) by (unfold N; simpl; lia).
  assert (HN0 : 0 <= inject_Z (Z.of_nat N)) by (change (inject_Z 0 <= inject_Z (Z.of_nat N)); rewrite <- Zle_Qle; lia).
  assert (A1 : 0 <= q1 / 100) by (apply Qle_shift_div_l; [reflexivity | lra]).
  assert (A12 : q1 / 100 <= q2 / 100) by (apply Qmult_le_compat_r; [exact Hq12 | discriminate]).
  assert (A2 : q2 / 100 <= 1) by (apply Qle_shift_div_r; [reflexivity | lra]).
  assert (B1 : 0 <= q1 / 100 * inject_Z (Z.of_nat N)) by (apply Qmult_le_0_compat; assumption).
  assert (B12 : q1 / 100 * inject_Z (Z.of_nat N) <= q2 / 100 * inject_Z (Z.of_nat N))
    by (apply Qmult_le_compat_r; assumption).
  assert (B2 : q2 / 100 * inject_Z (Z.of_nat N) <= inject_Z (Z.of_nat N)).
  { assert (q2 / 100 * inject_Z (Z.of_nat N) <= 1 * inject_Z (Z.of_nat N))
      by (apply Qmult_le_compat_r; assumption).
    setoid_replace (1 * inject_Z (Z.of_nat N)) with (inject_Z (Z.of_nat N)) in H by ring. exact H. }
  exact (interp_mono (x :: xs) N _ _ Hs HN B1 B12 B2).
Qed.

(** The amplitude guess of [_build_params], the 80th minus the 20th
    percentile of the marginal near the center, is never negative, also
    when the [amplitude] hint is the [sigma] hint or [params] itself. *)
Theorem build_params_amplitude_nonneg l center s m h r h' :
  heap_wf h -> (exists d, hget h l = Some d) ->
  build_params l center (Some s) (Some m) h = Some (r, h') ->
  exists a, sub_entry h' l "amplitude" "value" = Some (VNum a) /\ 0 <= a.
Proof.
  intros Hwf Hd H.
  destruct (build_params_run _ _ _ _ _ _ _ Hwf Hd H) as (_ & _ & _ & _ & Hs).
  destruct (Hs s eq_refl) as (_ & _ & is & _ & _ & _ & Hm).
  destruct (Hm m eq_refl) as (near & low & high & ia & _ & El & Eh & _ & _ & Ea & _).
  exists (high - low). split; [exact Ea|].
  assert (low <= high) by (apply (percentile_monotone near 20 80); [discriminate .. | exact El | exact Eh]).
  lra.
Qed.

(** On the heap whose [sigma] and [amplitude] hints are one dict. *)
Lemma build_params_amplitude_nonneg_witness :
  exists r h', build_params 0 (Fl 2) (Some 1) (Some ex_marginal) ex_alias_heap = Some (r, h') /\
  exists a, sub_entry h' 0 "amplitude" "value" = Some (VNum a) /\ 0 <= a.
Proof.
  destruct (build_params 0 (Fl 2) (Some 1) (Some ex_marginal) ex_alias_heap) as [[r h']|] eqn:H;
    [|vm_compute in H; discriminate].
  exists r, h'. split; [reflexivity|].
  assert (Hwf : heap_wf ex_alias_heap).
  { unfold heap_wf, refs_below; simpl. repeat constructor; simpl; lia. }
  assert (Hd : exists d, hget ex_alias_heap 0 = Some d) by (eexists; reflexivity).
  exact (build_params_amplitude_nonneg _ _ _ _ _ _ _ Hwf Hd H).
Defined.

(** [list.remove] succeeds on a list that splits around the removed element. *)
Lemma list_remove_split x l r :
  list_remove x l = Some r -> exists pre post, l = app pre (x :: post) /\ r = app pre post.
Proof.
  revert r; induction l as [|y l IH]; intros r H; simpl in H; [discriminate|].
  destruct (String.eqb x y) eqn:E.
  - apply String.eqb_eq in E. subst. injection H as <-. exists [], l. split; reflexivity.
  - destruct (list_remove x l) as [r'|] eqn:Er; simpl in H; [|discriminate].
    injection H as <-. destruct (IH _ eq_refl) as (pre & post & -> & ->).
    exists (y :: pre), post. split; reflexivity.
Qed.

(** Assigning a fresh key appends it. *)
Lemma keys_setitem_fresh {V} k (v : V) (d : list (string * V)) :
  ~ In k (map fst d) -> map fst (setitem String.eqb k v d) = app (map fst d) [k].
Proof.
  induction d as [|[k1 v1] d IH]; intros Hn; simpl; [reflexivity|].
  destruct (String.eqb k k1) eqn:E.
  - apply String.eqb_eq in E. subst. exfalso. apply Hn. left. reflexivity.
  - simpl. rewrite IH; [reflexivity|]. intros Hin. apply Hn. right. exact Hin.
Qed.

(** [dict(zip(keys, vals))] keeps the keys in order when they are distinct. *)
Lemma dict_zip_keys keys vals :
  NoDup keys -> List.length keys = List.length vals -> map fst (dict_zip keys vals) = keys.
Proof.
  intros Hn Hl. unfold dict_zip.
  assert (G : forall acc, (forall k, In k keys -> ~ In k (map fst acc)) ->
            map fst (fold_left (fun acc '(k, v) => setitem String.eqb k v acc) (combine keys vals) acc)
            = app (map fst acc) keys).
  { revert vals Hl. induction Hn as [|k keys Hk Hn IH]; intros [|v vals] Hl acc Hf;
      simpl in Hl |- *; try discriminate.
    - rewrite app_nil_r. reflexivity.
    - injection Hl as Hl.
      assert (Hk0 : ~ In k (map fst acc)) by (apply Hf; left; reflexivity).
      rewrite IH; [| exact Hl |].
      + rewrite keys_setitem_fresh by exact Hk0. rewrite <- app_assoc. reflexivity.
      + intros k' Hk'. rewrite keys_setitem_fresh by exact Hk0.
        rewrite in_app_iff. intros [H1|[H1|[]]].
        * exact (Hf k' (or_intror Hk') H1).
        * subst. exact (Hk Hk'). }
  rewrite G; [reflexivity|]. intros k _ [].
Qed.

(** Every output of a successful [mapM] comes from an input. *)
Lemma mapM_Forall_src {A B} (f : A -> option B) l r :
  mapM f l = Some r -> Forall (fun b => exists a, In a l /\ f a = Some b) r.
Proof.
  intros H. apply mapM_Forall2 in H. induction H as [|a b l r Hab _ IH]; constructor.
  - exists a. split; [left; reflexivity | exact Hab].
  - refine (Forall_impl _ _ IH). intros b' (a' & Ha' & E). exists a'. split; [right|]; assumption.
Qed.

(** Dropping the picked dimensions drops every picked one. *)
Lemma filter_picked_nil (L l : list string) :
  incl l L -> filter (fun d => negb (existsb (String.eqb d) L)) l = [].
Proof.
  induction l as [|y l IH]; intros Hi; simpl; [reflexivity|].
  assert (Ey : existsb (String.eqb y) L = true).
  { apply existsb_exists. exists y. split; [apply Hi; left; reflexivity | apply String.eqb_refl]. }
  rewrite Ey. simpl. apply IH. intros z Hz. apply Hi. right. exact Hz.
Qed.

(** A name absent from a list is not picked. *)
Lemma existsb_eqb_false (x : string) L : ~ In x L -> existsb (String.eqb x) L = false.
Proof.
  intros Hn. destruct (existsb (String.eqb x) L) eqn:E; [|reflexivity].
  apply existsb_exists in E as (y & Hy & Exy). apply String.eqb_eq in Exy. subst. contradiction.
Qed.

(** Filtering out an absent name changes nothing. *)
Lemma filter_neq_absent (x : string) l :
  ~ In x l -> filter (fun d => negb (String.eqb d x)) l = l.
Proof.
  induction l as [|y l IH]; intros Hn; simpl; [reflexivity|].
  destruct (String.eqb y x) eqn:E.
  - apply String.eqb_eq in E. subst. exfalso. apply Hn. left. reflexivity.
  - simpl. rewrite IH; [reflexivity|]. intros H. apply Hn. right. exact H.
Qed.

(** A filter that keeps every entry of key [k] does not change its lookup. *)
Lemma lookup_filter_keep {V} (P : string * V -> bool) k (l : list (string * V)) :
  (forall v, P (k, v) = true) -> lookup String.eqb k (filter P l) = lookup String.eqb k l.
Proof.
  intros HP. induction l as [|[k1 v1] l IH]; simpl; [reflexivity|].
  destruct (String.eqb k k1) eqn:E.
  - apply String.eqb_eq in E. subst. rewrite HP. simpl. rewrite String.eqb_refl. reflexivity.
  - destruct (P (k1, v1)); simpl; [rewrite E|]; exact IH.
Qed.

(** With the default directions, [_iterate_marginals] raises unless [eV] is
    a dimension of the array; when it is and the dimensions are distinct,
    every yielded slice is an [eV] cut: its coordinate dict names all the
    other dimensions in order, its only dimension is [eV] with the array's
    [eV] coordinates, and its values are the array's at the dict's
    coordinates. *)
Theorem iterate_marginals_default_eV_cuts arr :
  (~ In "eV"%string (dims arr) -> iterate_marginals arr None = None) /\
  (forall ms, NoDup (dims arr) -> iterate_marginals arr None = Some ms ->
   Forall (fun mc =>
     map fst (snd mc) = filter (fun d => negb (String.eqb d "eV")) (dims arr) /\
     dims (fst mc) = ["eV"%string] /\
     coord (fst mc) "eV" = coord arr "eV" /\
     forall c, values (fst mc) c = values arr (app (snd mc) c)) ms).
Proof.
  split.
  - intros Hn. unfold iterate_marginals. rewrite (list_remove_absent _ _ Hn). reflexivity.
  - intros ms Hnd H. unfold iterate_marginals in H.
    destruct (list_remove "eV" (dims arr)) as [ds|] eqn:Er; simpl in H; [|discriminate].
    destruct (mapM (coord arr) ds) as [selectors|] eqn:Es; simpl in H; [|discriminate].
    destruct (list_remove_split _ _ _ Er) as (pre & post & Ed & ->).
    rewrite Ed in Hnd.
    assert (Hnd' : NoDup (app pre post)) by exact (NoDup_remove_1 _ _ _ Hnd).
    assert (HeV : ~ In "eV"%string (app pre post)) by exact (NoDup_remove_2 _ _ _ Hnd).
    apply mapM_Forall_src in H. refine (Forall_impl _ _ H).
    intros [m cs] (ss & Hss & Eg). simpl in Eg |- *.
    assert (Hlen : List.length (app pre post) = List.length ss).
    { rewrite (Forall2_length (product_in _ _ Hss)). symmetry. exact (FitBandsFacts.mapM_length_eq _ _ _ Es). }
    pose proof (dict_zip_keys _ _ Hnd' Hlen) as Hk.
    unfold sel in Eg. rewrite Hk in Eg.
    destruct (forallb _ _); simpl in Eg; [|discriminate].
    injection Eg as <- <-. simpl. rewrite Hk, Ed. split; [|split; [|split]].
    + rewrite filter_app. cbn [filter]. rewrite String.eqb_refl. cbn [negb].
      rewrite !filter_neq_absent; [reflexivity| |]; intros Hi; apply HeV, in_app_iff; auto.
    + rewrite filter_app. cbn [filter]. rewrite (existsb_eqb_false _ _ HeV). cbn [negb].
      rewrite !filter_picked_nil; [reflexivity| |]; intros z Hz; apply in_app_iff; auto.
    + unfold coord. cbn [coords]. apply lookup_filter_keep. intros v. cbv beta iota zeta.
      rewrite (existsb_eqb_false _ _ HeV). reflexivity.
    + intros c. reflexivity.
Qed.

Lemma iterate_marginals_default_eV_cuts_witness :
  exists ms, iterate_marginals ex_spectrum None = Some ms /\
    Forall (fun mc => dims (fst mc) = ["eV"%string] /\
                      forall c, values (fst mc) c = values ex_spectrum (app (snd mc) c)) ms.
Proof.
  destruct (iterate_marginals ex_spectrum None) as [ms|] eqn:H; [|vm_compute in H; discriminate].
  exists ms. split; [reflexivity|].
  assert (Hnd : NoDup (dims ex_spectrum)).
  { simpl. constructor; [simpl; intros [E|[]]; discriminate E | constructor; [intros []|constructor]]. }
  refine (Forall_impl _ _ (proj2 (iterate_marginals_default_eV_cuts ex_spectrum) ms Hnd H)).
  intros mc (_ & Hd & _ & Hv). split; assumption.
Defined.

(** [keep_entry], or a [dset] of a key known by hypothesis to differ. *)
Ltac keep_any E :=
  first [ keep_entry E
        | match type of E with
          | dset _ _ _ _ = Some _ => rewrite (dset_entry_other _ _ _ _ _ _ _ _ E) by assumption
          end ].

(** [_build_params] writes into [params] only the key [center], the key
    [sigma] when a stray is given and the key [amplitude] when a stray and a
    marginal are given: every other entry of [params] keeps its value
    (for a [params] dict that does not contain itself). *)
Theorem build_params_other_keys_kept l center stray marginal h r h' :
  heap_wf h -> (exists d, hget h l = Some d) -> (forall k, entry h l k <> Some (VRef l)) ->
  build_params l center stray marginal h = Some (r, h') ->
  forall k, k <> "center"%string -> (k = "sigma"%string -> stray = None) ->
  (k = "amplitude"%string -> stray = None \/ marginal = None) ->
  entry h' l k = entry h l k.
Proof.
  intros Hwf [d0 Hd0] Hself H k Hkc Hks Hka.
  destruct (wf_hget _ _ _ Hwf Hd0) as [Hl Hr0].
  assert (Href : forall k rr, entry h l k = Some (VRef rr) -> (rr < next_loc h)%nat).
  { intros k' rr Hk. unfold entry in Hk. rewrite Hd0 in Hk. exact (refs_lookup _ _ _ _ Hr0 Hk). }
  assert (Ekc : String.eqb k "center" = false) by (apply String.eqb_neq; exact Hkc).
  unfold build_params in H.
  apply sbind_inv in H as (c0 & h1 & E1 & H). pose proof E1 as E1'.
  apply alloc_spec in E1' as (-> & N1 & _ & _).
  apply sbind_inv in H as (u & h2 & E2 & H). pose proof (dset_next _ _ _ _ _ _ E2) as N2.
  set (c0 := next_loc h) in *.
  assert (Hc2 : entry h2 l "center" = Some (VRef c0)).
  { destruct (dset_hget_self _ _ _ _ _ _ E2) as (d & _ & Hd). unfold entry. rewrite Hd. cbn [bind].
    rewrite (lookup_setitem_eq String.eqb string_eqb_iff). reflexivity. }
  destruct stray as [s|].
  2:{ apply sret_inv in H as [-> ->]. keep_any E2. keep_any E1. reflexivity. }
  assert (Eks : String.eqb k "sigma" = false)
    by (apply String.eqb_neq; intros ->; discriminate (Hks eq_refl)).
  apply sbind_inv in H as (c & h3 & E & H). apply dgetitem_inv in E as [Ec ->].
  rewrite Hc2 in Ec. injection Ec as <-.
  apply sbind_inv in H as (ic & h3 & E & H). apply lift_inv in E as [Eic ->].
  cbn [as_ref] in Eic. injection Eic as <-.
  apply sbind_inv in H as (u3 & h3 & E3 & H). pose proof (dset_next _ _ _ _ _ _ E3) as N3.
  apply sbind_inv in H as (u4 & h4 & E4 & H). pose proof (dset_next _ _ _ _ _ _ E4) as N4.
  apply sbind_inv in H as (f2 & h5 & E5 & H). pose proof E5 as E5'.
  apply alloc_spec in E5' as (-> & N5 & _ & _).
  assert (Hn4 : next_loc h4 = S c0) by (rewrite N4, N3, N2, N1; reflexivity).
  apply sbind_inv in H as (sg & h6 & E6 & H). apply dget_entry in E6 as [-> Esg].
  apply sbind_inv in H as (u6 & h6 & E6 & H). pose proof (dset_next _ _ _ _ _ _ E6) as N6.
  apply sbind_inv in H as (is & h7 & E & H). apply lift_inv in E as [Eis ->].
  assert (His : is <> l).
  { rewrite Hn4 in Esg.
    rewrite (alloc_entry_other _ _ _ _ _ _ E5) in Esg by lia.
    rewrite (dset_entry_loc_other _ _ _ _ _ _ _ _ E4) in Esg by lia.
    rewrite (dset_entry_loc_other _ _ _ _ _ _ _ _ E3) in Esg by lia.
    rewrite (dset_entry_other _ _ _ _ _ _ _ _ E2) in Esg by reflexivity.
    rewrite (alloc_entry_other _ _ _ _ _ _ E1) in Esg by lia.
    destruct (entry h l "sigma") as [v|] eqn:Ev; subst sg.
    - destruct v; cbn [as_ref] in Eis; try discriminate. injection Eis as ->.
      intros ->. exact (Hself _ Ev).
    - cbn [as_ref] in Eis. injection Eis as <-. lia. }
  apply sbind_inv in H as (u7 & h7 & E7 & H). pose proof (dset_next _ _ _ _ _ _ E7) as N7.
  destruct marginal as [m|].
  2:{ apply sret_inv in H as [-> ->].
      keep_any E7. keep_any E6. keep_any E5. keep_any E4. keep_any E3. keep_any E2. keep_any E1.
      reflexivity. }
  assert (Eka : String.eqb k "amplitude" = false).
  { apply String.eqb_neq; intros ->. destruct (Hka eq_refl); discriminate. }
  apply sbind_inv in H as (nc & h8 & E & H). apply lift_inv in E as [_ ->].
  apply sbind_inv in H as (lo & h8 & E & H). apply lift_inv in E as [_ ->].
  apply sbind_inv in H as (hi & h8 & E & H). apply lift_inv in E as [_ ->].
  apply sbind_inv in H as (f3 & h8 & E8 & H). pose proof E8 as E8'.
  apply alloc_spec in E8' as (-> & N8 & _ & _).
  apply sbind_inv in H as (am & h9 & E9 & H). apply dget_entry in E9 as [-> Eam].
  apply sbind_inv in H as (u10 & h10 & E10 & H).
  apply sbind_inv in H as (ia & h11 & E & H). apply lift_inv in E as [Eia ->].
  assert (Hia : ia <> l).
  { rewrite (alloc_entry_other _ _ _ _ _ _ E8) in Eam by (rewrite N7, N6, N5; lia).
    rewrite (dset_entry_loc_other _ _ _ _ _ _ _ _ E7) in Eam by exact His.
    rewrite (dset_entry_other _ _ _ _ _ _ _ _ E6) in Eam by reflexivity.
    rewrite (alloc_entry_other _ _ _ _ _ _ E5) in Eam by lia.
    rewrite (dset_entry_loc_other _ _ _ _ _ _ _ _ E4) in Eam by lia.
    rewrite (dset_entry_loc_other _ _ _ _ _ _ _ _ E3) in Eam by lia.
    rewrite (dset_entry_other _ _ _ _ _ _ _ _ E2) in Eam by reflexivity.
    rewrite (alloc_entry_other _ _ _ _ _ _ E1) in Eam by lia.
    destruct (entry h l "amplitude") as [v|] eqn:Ev; subst am.
    - destruct v; cbn [as_ref] in Eia; try discriminate. injection Eia as ->.
      intros ->. exact (Hself _ Ev).
    - cbn [as_ref] in Eia. injection Eia as <-. rewrite N7, N6, N5. lia. }
  apply sbind_inv in H as (u11 & h11 & E11 & H). apply sret_inv in H as [-> ->].
  assert (Hl8 : l <> next_loc h7) by (rewrite N7, N6, N5; lia).
  rewrite (dset_entry_loc_other _ _ _ _ _ _ _ _ E11) by exact Hia.
  keep_any E10. rewrite (alloc_entry_other _ _ _ _ _ _ E8) by exact Hl8.
  rewrite (dset_entry_loc_other _ _ _ _ _ _ _ _ E7) by exact His.
  keep_any E6. keep_any E5. keep_any E4. keep_any E3. keep_any E2. keep_any E1.
  reflexivity.
Qed.

Lemma build_params_other_keys_kept_witness :
  exists r h', build_params 0 (Fl 3) (Some 1) None ex_sigma_heap = Some (r, h') /\
    entry h' 0 "stray" = Some (VNum 1).
Proof.
  destruct (build_params 0 (Fl 3) (Some 1) None ex_sigma_heap) as [[r h']|] eqn:H;
    [|vm_compute in H; discriminate].
  exists r, h'. split; [reflexivity|].
  assert (Hwf : heap_wf ex_sigma_heap) by (unfold heap_wf, refs_below; simpl; repeat constructor).
  assert (Hd : exists d, hget ex_sigma_heap 0 = Some d) by (eexists; reflexivity).
  assert (Hself : forall k, entry ex_sigma_heap 0 k <> Some (VRef 0)).
  { intros k E. cbv [entry hget ex_sigma_heap store] in E. cbn [lookup Nat.eqb bind] in E.
    destruct (String.eqb k "sigma"); [discriminate E|].
    destruct (String.eqb k "stray"); discriminate E. }
  assert (Hst : "stray"%string <> "center"%string) by discriminate.
  exact (build_params_other_keys_kept _ _ _ _ _ _ _ Hwf Hd Hself H "stray" Hst
           (fun E => match E with end) (fun E => match E with end)).
Defined.

(** With a stray, an existing [sigma] dict of [params] (other than
    [params] itself) is kept, the same object, and only its [value] is
    assigned: bounds or other settings it holds survive the call.  The
    value is the stray, unless a marginal is given and the dict is also
    the [amplitude] hint: then the amplitude write, which comes last,
    leaves the spread there. *)
Theorem build_params_reuses_sigma_dict l center s marginal h r h' a da :
  heap_wf h ->
  entry h l "sigma" = Some (VRef a) -> a <> l -> hget h a = Some da ->
  build_params l center (Some s) marginal h = Some (r, h') ->
  entry h' l "sigma" = Some (VRef a) /\
  exists v, hget h' a = Some (setitem String.eqb "value"%string (VNum v) da) /\
    (marginal = None \/ entry h l "amplitude" <> Some (VRef a) -> v = s) /\
    (marginal <> None -> entry h l "amplitude" = Some (VRef a) ->
       entry h' l "amplitude" = Some (VRef a) /\ sub_entry h' l "amplitude" "value" = Some (VNum v)).
Proof.
  intros Hwf Hsa Hal Hda H.
  assert (Hd0 : exists d0, hget h l = Some d0)
    by (unfold entry in Hsa; destruct (hget h l) as [d0|]; [exists d0; reflexivity | discriminate]).
  destruct (build_params_run _ _ _ _ _ _ _ Hwf Hd0 H) as (_ & _ & _ & _ & Hs).
  destruct (Hs s eq_refl) as (_ & _ & is & Eis & Hsig & Hnone & Hsome).
  assert (His : is = a).
  { rewrite Hsa in Hsig. destruct Hsig as [E | [E _]]; [congruence | discriminate]. }
  subst is. split; [exact Eis|].
  destruct marginal as [m|].
  - destruct (Hsome m eq_refl) as (near & low & high & ia & _ & _ & _ & Eia & Ham & Hav & _ & Hfr).
    exists (if Nat.eqb a ia then high - low else s). split; [exact (Hfr da Hal Hda)|].
    split.
    + intros [E | Hne]; [discriminate|].
      destruct (Nat.eqb_spec a ia) as [<-|]; [|reflexivity].
      exfalso. destruct Ham as [E | (_ & _ & E)]; [exact (Hne E) | exact (E eq_refl)].
    + intros _ Ea.
      assert (ia = a) as -> by (destruct Ham as [E | [E _]]; congruence).
      rewrite Nat.eqb_refl. split; [exact Eia | exact Hav].
  - exists s. split; [exact (proj2 (Hnone eq_refl) da Hal Hda)|].
    split; [reflexivity | intros Hn; exfalso; exact (Hn eq_refl)].
Qed.

(** On the heap whose [sigma] and [amplitude] hints are one dict (at 1):
    that dict is kept and ends with the amplitude value. *)
Lemma build_params_reuses_sigma_dict_witness :
  exists r h', build_params 0 (Fl 2) (Some 1) (Some ex_marginal) ex_alias_heap = Some (r, h') /\
    entry h' 0 "sigma" = Some (VRef 1) /\
    exists v, hget h' 1 = Some [("value"%string, VNum v)] /\
      sub_entry h' 0 "amplitude" "value" = Some (VNum v).
Proof.
  destruct (build_params 0 (Fl 2) (Some 1) (Some ex_marginal) ex_alias_heap) as [[r h']|] eqn:H;
    [|vm_compute in H; discriminate].
  exists r, h'. split; [reflexivity|].
  assert (Hwf : heap_wf ex_alias_heap).
  { unfold heap_wf, refs_below; simpl. repeat constructor; simpl; lia. }
  assert (Hne : (1 <> 0)%nat) by discriminate.
  destruct (build_params_reuses_sigma_dict 0 _ _ _ ex_alias_heap _ _ 1 _ Hwf eq_refl Hne eq_refl H)
    as (Es & v & Hv & _ & Ha).
  split; [exact Es|]. exists v. split; [exact Hv|].
  refine (proj2 (Ha _ eq_refl)); discriminate.
Defined.

(** [next] over a generator none of whose items qualifies finds nothing. *)
Lemma find_none_all {A} (f : A -> bool) l : (forall a, In a l -> f a = false) -> List.find f l = None.
Proof.
  induction l as [|a l IH]; intros Hf; simpl; [reflexivity|].
  rewrite (Hf a (or_introl eq_refl)). apply IH. intros b Hb. apply Hf. right. exact Hb.
Qed.

(** No dimension of the band in [coord_dict]: [next] raises [StopIteration]. *)
Lemma band_fragments_no_dim arr_dims cd bd :
  (forall d, In d (match bd_dims bd with Some ds => ds | None => [] end) -> ~ In d (map fst cd)) ->
  band_fragments arr_dims cd bd = None.
Proof.
  intros Hd. unfold band_fragments.
  rewrite find_none_all; [reflexivity|].
  intros d Hin. apply existsb_eqb_false. exact (Hd d Hin).
Qed.

(** A band whose fragments fail to resolve makes the slice raise. *)
Lemma slice_cell_fragments_fail {FitRes} (fit : list Model -> DataArray -> option FitRes)
    arr_dims stray bg band_set cd m bd :
  In bd (map snd band_set) -> band_fragments arr_dims cd bd = None ->
  forall h, slice_cell fit arr_dims stray bg band_set cd m h = None.
Proof.
  intros Hbd Hfr h. unfold slice_cell, slice_partial_bands.
  unfold sbind at 1. unfold sbind at 1.
  rewrite (mapSt_fails _ _ bd); [reflexivity| |exact Hbd].
  intros h0. unfold resolve_partial_bands, sbind at 1.
  destruct (bd_params bd); [unfold sret|unfold alloc]; unfold sbind, lift; rewrite Hfr; reflexivity.
Qed.

(** A band description none of whose [dims] is a coordinate of some slice
    (in particular one given without [dims], which defaults to [()]) makes
    [fit_patterned_bands] raise [StopIteration], with or without background. *)
Theorem fit_patterned_band_without_dim_raises {FitRes} (fit : list Model -> DataArray -> option FitRes)
    residual_of arr band_set fit_direction stray background h free slices cd m bd :
  list_remove fit_direction (dims arr) = Some free ->
  iterate_axis arr free = Some slices ->
  In (cd, m) slices -> In bd (map snd band_set) ->
  (forall d, In d (match bd_dims bd with Some ds => ds | None => [] end) -> ~ In d (map fst cd)) ->
  fit_patterned_bands fit residual_of arr band_set fit_direction stray background h = None.
Proof.
  intros Efree Eslices Hin Hbd Hd. unfold fit_patterned_bands.
  unfold sbind at 1, lift at 1. rewrite Efree.
  unfold sbind at 1, lift at 1.
  destruct (mapM (coord arr) free) as [sels|] eqn:Es; [|reflexivity].
  unfold sbind at 1, lift at 1. rewrite Eslices.
  unfold sbind at 1.
  rewrite (sweep_slices_fails fit _ _ _ _ _ cd m slices
             (slice_cell_fragments_fail fit _ _ _ _ _ m bd Hbd (band_fragments_no_dim _ _ _ Hd)) Hin).
  reflexivity.
Qed.

Lemma fit_patterned_band_without_dim_raises_witness :
  fit_patterned_bands (fun _ _ => Some tt) (fun _ => [])
    ex_spectrum [("q"%string, {| bd_name := "q"; bd_band := BandClass "LorentzianModel";
                                 bd_dims := None; bd_params := None;
                                 bd_points := Some [(0, 1); (1, 3)]%Q |})]
    "eV" (Some 1) true ex_heap = None.
Proof.
  destruct (iterate_axis ex_spectrum ["kp"%string]) as [slices|] eqn:Es; [|vm_compute in Es; discriminate].
  assert (Hin : In ([("kp"%string, 0%Q)], snd (nth 0 slices ([], ex_spectrum))) slices).
  { vm_compute in Es. injection Es as <-. left. reflexivity. }
  refine (fit_patterned_band_without_dim_raises (fun _ _ => Some tt) (fun _ => []) ex_spectrum _
            "eV"%string (Some 1) true ex_heap ["kp"%string] slices _ _ _ _ Es Hin _ _).
  - reflexivity.
  - left. reflexivity.
  - intros d [].
Defined.

(** The comprehension over [enumerate(partial_band_locations)] names the
    partial bands in order. *)
Lemma partial_bands_names stray marginal bd l L : forall i h pbs h',
  mapSt (partial_band_of stray marginal bd l) (enumerate_from i L) h = Some (pbs, h') ->
  map pb_name pbs = map (fun j => (bd_name bd ++ "_" ++ nat_to_string j)%string) (seq i (List.length L)) /\
  Forall (fun pb => pb_band pb = bd_band bd) pbs.
Proof.
  induction L as [|[x c] L IH]; intros i h pbs h' H; cbn [enumerate_from mapSt] in H.
  - apply sret_inv in H as [-> _]. split; [reflexivity | constructor].
  - apply sbind_inv in H as (b & h1 & E1 & H). apply sbind_inv in H as (bs' & h2 & E2 & H).
    apply sret_inv in H as [-> _].
    unfold partial_band_of in E1.
    apply sbind_inv in E1 as (d & h3 & _ & E1). apply sbind_inv in E1 as (cs & h4 & _ & E1).
    apply sbind_inv in E1 as (p & h5 & _ & E1). apply sret_inv in E1 as [-> _].
    destruct (IH _ _ _ _ E2) as [Hn Hb]. simpl. rewrite Hn.
    split; [reflexivity | constructor; [reflexivity | exact Hb]].
Qed.

(** [resolve_partial_bands_from_description] returns one partial band per
    fragment, named [name_0], [name_1], ... in fragment order, each carrying
    the band class of the description. *)
Theorem resolve_partial_bands_names arr_dims stray cd m bd h pbs h' :
  resolve_partial_bands arr_dims stray cd m bd h = Some (pbs, h') ->
  exists frs, band_fragments arr_dims cd bd = Some frs /\
    map pb_name pbs = map (fun i => (bd_name bd ++ "_" ++ nat_to_string i)%string) (seq 0 (List.length frs)) /\
    Forall (fun pb => pb_band pb = bd_band bd) pbs.
Proof.
  intros H. unfold resolve_partial_bands in H.
  apply sbind_inv in H as (l & h1 & _ & H). apply sbind_inv in H as (frs & h2 & E2 & H).
  apply lift_inv in E2 as [E2 ->]. exists frs. split; [exact E2|].
  exact (partial_bands_names _ _ _ _ _ _ _ _ _ H).
Qed.

Lemma resolve_partial_bands_names_witness :
  exists pbs h', resolve_partial_bands ["kp"; "eV"]%string (Some 1) [("kp"%string, 0%Q)] ex_marginal
                   ex_band_fork ex_heap = Some (pbs, h') /\
    map pb_name pbs = ["r_0"; "r_1"]%string.
Proof.
  destruct (resolve_partial_bands ["kp"; "eV"]%string (Some 1) [("kp"%string, 0%Q)] ex_marginal
              ex_band_fork ex_heap) as [[pbs h']|] eqn:H; [|vm_compute in H; discriminate].
  exists pbs, h'. split; [reflexivity|].
  destruct (resolve_partial_bands_names _ _ _ _ _ _ _ _ H) as (frs & Ef & Hn & _).
  vm_compute in Ef. injection Ef as <-. rewrite Hn. reflexivity.
Defined.

(** [_build_params] never writes the [stray] key of [params]. *)
Lemma build_params_keeps_stray l center stray marginal h r h' :
  heap_wf h -> (exists d, hget h l = Some d) ->
  build_params l center stray marginal h = Some (r, h') ->
  entry h' l "stray" = entry h l "stray".
Proof.
  intros Hwf [d0 Hd0] H.
  destruct (wf_hget _ _ _ Hwf Hd0) as [Hl _].
  unfold build_params in H.
  apply sbind_inv in H as (c0 & h1 & E1 & H). pose proof E1 as E1'.
  apply alloc_spec in E1' as (-> & N1 & _ & _).
  apply sbind_inv in H as (u & h2 & E2 & H). pose proof (dset_next _ _ _ _ _ _ E2) as N2.
  destruct stray as [s|].
  2:{ apply sret_inv in H as [-> ->]. keep_entry E2. keep_entry E1. reflexivity. }
  apply sbind_inv in H as (c & h3 & E & H). apply dgetitem_inv in E as [_ ->].
  apply sbind_inv in H as (ic & h3 & E & H). apply lift_inv in E as [_ ->].
  apply sbind_inv in H as (u3 & h3 & E3 & H). pose proof (dset_next _ _ _ _ _ _ E3) as N3.
  apply sbind_inv in H as (u4 & h4 & E4 & H). pose proof (dset_next _ _ _ _ _ _ E4) as N4.
  apply sbind_inv in H as (f2 & h5 & E5 & H). pose proof E5 as E5'.
  apply alloc_spec in E5' as (-> & N5 & _ & _).
  apply sbind_inv in H as (sg & h6 & E6 & H). apply dget_entry in E6 as [-> _].
  apply sbind_inv in H as (u6 & h6 & E6 & H). pose proof (dset_next _ _ _ _ _ _ E6) as N6.
  apply sbind_inv in H as (is & h7 & E & H). apply lift_inv in E as [_ ->].
  apply sbind_inv in H as (u7 & h7 & E7 & H). pose proof (dset_next _ _ _ _ _ _ E7) as N7.
  assert (K7 : entry h7 l "stray" = entry h l "stray").
  { keep_entry E7. keep_entry E6. keep_entry E5. keep_entry E4. keep_entry E3. keep_entry E2.
    keep_entry E1. reflexivity. }
  destruct marginal as [m|].
  2:{ apply sret_inv in H as [-> ->]. exact K7. }
  apply sbind_inv in H as (nc & h8 & E & H). apply lift_inv in E as [_ ->].
  apply sbind_inv in H as (lo & h8 & E & H). apply lift_inv in E as [_ ->].
  apply sbind_inv in H as (hi & h8 & E & H). apply lift_inv in E as [_ ->].
  apply sbind_inv in H as (f3 & h8 & E8 & H). pose proof E8 as E8'.
  apply alloc_spec in E8' as (-> & N8 & _ & _).
  apply sbind_inv in H as (am & h9 & E9 & H). apply dget_entry in E9 as [-> _].
  apply sbind_inv in H as (u10 & h10 & E10 & H).
  apply sbind_inv in H as (ia & h11 & E & H). apply lift_inv in E as [_ ->].
  apply sbind_inv in H as (u11 & h11 & E11 & H). apply sret_inv in H as [-> ->].
  keep_entry E11. keep_entry E10. keep_entry E8. exact K7.
Qed.

(** The per-band stray holds through the comprehension. *)
Lemma resolve_band_stray_run stray marginal bd l s L h pbs h' :
  L <> [] -> heap_wf h -> (exists d, hget h l = Some d) ->
  entry h l "stray" = Some (VNum s) ->
  mapSt (partial_band_of stray marginal bd l) L h = Some (pbs, h') ->
  let c := snd (snd (last L (0%nat, (0, Fl 0)))) in
  sub_entry h' l "center" "min" = Some (pyfloat (fl_add c (- s))) /\
  sub_entry h' l "center" "max" = Some (pyfloat (fl_add c s)) /\
  exists is ia, entry h' l "sigma" = Some (VRef is) /\ entry h' l "amplitude" = Some (VRef ia) /\
    sub_entry h' l "sigma" "value" =
      (if Nat.eqb is ia then sub_entry h' l "amplitude" "value" else Some (VNum s)).
Proof.
  revert h pbs h'. induction L as [|[i [x c]] L IH]; intros h pbs h' Hne Hwf Hd Hs H; [congruence|].
  cbn [mapSt] in H.
  apply sbind_inv in H as (b & h1 & E1 & H). apply sbind_inv in H as (bs' & h2 & E2 & H).
  apply sret_inv in H as [-> ->].
  unfold partial_band_of in E1.
  apply sbind_inv in E1 as (d & h3 & E3 & E1). apply load_inv in E3 as [Ed ->].
  apply sbind_inv in E1 as (cs & h3 & E3 & E1). apply lift_inv in E3 as [Ecs ->].
  assert (Hcs : cs = Some s).
  { unfold entry in Hs. rewrite Ed in Hs. cbn [bind] in Hs. unfold stray_arg in Ecs.
    rewrite Hs in Ecs. injection Ecs as <-. reflexivity. }
  subst cs.
  apply sbind_inv in E1 as (p & h3 & E3 & E1). apply sret_inv in E1 as [_ ->].
  destruct (build_params_run _ _ _ _ _ _ _ Hwf Hd E3) as (_ & Hwf3 & Hd3 & _ & Hst).
  pose proof (build_params_keeps_stray _ _ _ _ _ _ _ Hwf Hd E3) as Hs3. rewrite Hs in Hs3.
  destruct L as [|a L].
  - simpl in E2. apply sret_inv in E2 as [_ ->].
    destruct (Hst s eq_refl) as (H1 & H2 & is & Eis & _ & _ & Hm).
    destruct (Hm marginal eq_refl) as (near & low & high & ia & _ & _ & _ & Eia & _ & Ha & Hsv & _).
    simpl. split; [exact H1|]. split; [exact H2|].
    exists is, ia. split; [exact Eis|]. split; [exact Eia|].
    rewrite Hsv, Ha. destruct (Nat.eqb is ia); reflexivity.
  - change (last ((i, (x, c)) :: a :: L) (0%nat, (0, Fl 0))) with (last (a :: L) (0%nat, (0, Fl 0))).
    eapply IH; [congruence | exact Hwf3 | exact Hd3 | exact Hs3 | exact E2].
Qed.

(** [params.get("stray", stray)]: a number under [stray] in a band's own
    [params] overrides the global [stray]: after the resolution the center
    bounds are the last fragment's center minus and plus the band's stray.
    The sigma value is the band's stray when the [sigma] and [amplitude]
    hints are two dicts; when they are one dict it is the amplitude
    value, written after it. *)
Theorem resolve_partial_bands_band_stray arr_dims stray cd m bd l h pbs h' frs s :
  bd_params bd = Some l -> heap_wf h -> (exists d, hget h l = Some d) ->
  entry h l "stray" = Some (VNum s) ->
  band_fragments arr_dims cd bd = Some frs -> frs <> [] ->
  resolve_partial_bands arr_dims stray cd m bd h = Some (pbs, h') ->
  let c := snd (last frs (0, Fl 0)) in
  sub_entry h' l "center" "min" = Some (pyfloat (fl_add c (- s))) /\
  sub_entry h' l "center" "max" = Some (pyfloat (fl_add c s)) /\
  exists is ia, entry h' l "sigma" = Some (VRef is) /\ entry h' l "amplitude" = Some (VRef ia) /\
    sub_entry h' l "sigma" "value" =
      (if Nat.eqb is ia then sub_entry h' l "amplitude" "value" else Some (VNum s)).
Proof.
  intros Hp Hwf Hd Hs Hf Hne Hres.
  destruct (resolve_with_params _ _ _ _ _ _ _ _ _ Hp Hres) as (frs' & Hf' & Hmap).
  rewrite Hf in Hf'. injection Hf' as <-.
  assert (Hne' : enumerate_from 0 frs <> []) by (destruct frs; [congruence | simpl; discriminate]).
  pose proof (resolve_band_stray_run _ _ _ _ _ _ _ _ _ Hne' Hwf Hd Hs Hmap) as R.
  rewrite (enumerate_from_last 0 frs (0, Fl 0) Hne) in R. exact R.
Qed.

Lemma resolve_partial_bands_band_stray_witness :
  exists pbs h', resolve_partial_bands ["kp"; "eV"]%string (Some 5) [("kp"%string, 0%Q)] ex_marginal
      {| bd_name := "q"; bd_band := BandClass "LorentzianModel"; bd_dims := Some ["kp"%string];
         bd_params := Some 0%nat; bd_points := Some [(0, 1); (1, 3)]%Q |} ex_hint_heap = Some (pbs, h') /\
    sub_entry h' 0 "center" "min" = Some (VNum (1 + -1)) /\
    sub_entry h' 0 "center" "max" = Some (VNum (1 + 1)).
Proof.
  destruct (resolve_partial_bands ["kp"; "eV"]%string (Some 5) [("kp"%string, 0%Q)] ex_marginal
      {| bd_name := "q"; bd_band := BandClass "LorentzianModel"; bd_dims := Some ["kp"%string];
         bd_params := Some 0%nat; bd_points := Some [(0, 1); (1, 3)]%Q |} ex_hint_heap)
    as [[pbs h']|] eqn:H; [|vm_compute in H; discriminate].
  exists pbs, h'. split; [reflexivity|].
  assert (Hwf : heap_wf ex_hint_heap) by (unfold heap_wf, refs_below; simpl; repeat constructor).
  assert (Hd : exists d, hget ex_hint_heap 0 = Some d) by (eexists; reflexivity).
  assert (Hne : [(0%Q, Fl 1)] <> []) by discriminate.
  pose proof (fun Hp Hs Hf => resolve_partial_bands_band_stray _ _ _ _ _ 0 _ _ _ [(0%Q, Fl 1)] 1
                 Hp Hwf Hd Hs Hf Hne H) as R.
  destruct (R eq_refl eq_refl eq_refl) as (Hmin & Hmax & _).
  split; assumption.
Defined.

(** [_is_between] holds inside the closed interval. *)
Lemma is_between_true x y0 y1 : (Qmin y0 y1 <= x)%Q -> (x <= Qmax y0 y1)%Q -> is_between x y0 y1 = true.
Proof.
  intros H1 H2. unfold is_between. apply andb_true_iff. split; apply Qle_bool_iff; assumption.
Qed.

Lemma pairwise_app {A} (l1 : list A) a l2 :
  pairwise (l1 ++ a :: l2) = pairwise (l1 ++ [a]) ++ pairwise (a :: l2).
Proof.
  unfold pairwise. induction l1 as [|b l1 IH]; [reflexivity|].
  destruct l1 as [|c l1]; [reflexivity|].
  simpl in IH |- *. rewrite IH. reflexivity.
Qed.

Lemma in_pairwise {A} (l : list A) u v : In (u, v) (pairwise l) -> In u l /\ In v l.
Proof.
  unfold pairwise. intros H. split; [exact (in_combine_l _ _ _ _ H)|].
  apply in_combine_r in H. destruct l; [exact H | right; exact H].
Qed.

Lemma strongly_sorted_split {A} (R : A -> A -> Prop) l1 x l2 :
  StronglySorted R (l1 ++ x :: l2) -> (forall y, In y l1 -> R y x) /\ Forall (R x) l2.
Proof.
  induction l1 as [|a l1 IH]; intros H.
  - apply StronglySorted_inv in H as [_ H]. split; [intros _ []| exact H].
  - apply StronglySorted_inv in H as [H1 H2]. destruct (IH H1) as [IH1 IH2].
    split; [|exact IH2].
    intros y [<- | Hy]; [|exact (IH1 y Hy)].
    rewrite Forall_forall in H2. apply H2. apply in_or_app. right. left. reflexivity.
Qed.

Lemma is_between_outside x a b : ((a < x /\ b < x) \/ (x < a /\ x < b))%Q -> is_between x a b = false.
Proof.
  intros H. destruct (is_between x a b) eqn:E; [|reflexivity].
  apply is_between_spec in E. exfalso. lra.
Qed.

(** [_is_between] is closed at both ends, so at the patterning coordinate
    of an interior control point (with strictly increasing patterning
    coordinates, along either of the first two dimensions) both segments
    meeting there yield a fragment, and both fragments are centered on
    that point: the band gets two coinciding peaks there. *)
Theorem interpolate_shared_point_twice (k : nat) (pre post : list (Q * Q)) q p r :
  (k <= 1)%nat ->
  Sorted Qlt (map (pattern_coord k) (pre ++ q :: p :: r :: post)) ->
  let x := pattern_coord k p in
  exists y1 y2,
    interpolate_intersecting_fragments x (Z.of_nat k) (pre ++ q :: p :: r :: post) =
      Some [(x, Fl y1); (x, Fl y2)] /\
    y1 == pattern_center k p /\ y2 == pattern_center k p.
Proof.
  intros Hk Hs x.
  set (c := pattern_coord k) in *.
  apply Sorted_StronglySorted in Hs; [|intros a b d; apply Qlt_trans].
  assert (Hsplit : map c (pre ++ q :: p :: r :: post) = map c (pre ++ [q]) ++ c p :: map c (r :: post))
    by (rewrite !map_app; simpl; rewrite <- app_assoc; reflexivity).
  rewrite Hsplit in Hs.
  destruct (strongly_sorted_split _ _ _ _ Hs) as [Hlo Hhi].
  assert (Hlo' : forall u, In u (pre ++ [q]) -> c u < x).
  { intros u Hu. apply Hlo. apply in_map. exact Hu. }
  assert (Hhi' : forall u, In u (r :: post) -> x < c u).
  { intros u Hu. rewrite Forall_forall in Hhi. apply Hhi. apply in_map. exact Hu. }
  assert (Hpw : pairwise (pre ++ q :: p :: r :: post) =
                pairwise (pre ++ [q]) ++ [(q, p); (p, r)] ++ pairwise (r :: post)).
  { rewrite (pairwise_app pre q (p :: r :: post)). reflexivity. }
  assert (Hq : c q < x) by (apply Hlo'; apply in_or_app; right; left; reflexivity).
  assert (Hr : x < c r) by (apply Hhi'; left; reflexivity).
  assert (Hfilt : filter (fun pr => is_between x (c (fst pr)) (c (snd pr)))
                    (pairwise (pre ++ q :: p :: r :: post)) = [(q, p); (p, r)]).
  { rewrite Hpw, !filter_app.
    rewrite (filter_nil_Forall _ (pairwise (pre ++ [q]))).
    2:{ apply Forall_forall. intros [u v] Huv. apply in_pairwise in Huv as [Hu Hv].
        apply is_between_outside. left. split; [exact (Hlo' u Hu) | exact (Hlo' v Hv)]. }
    rewrite (filter_nil_Forall _ (pairwise (r :: post))).
    2:{ apply Forall_forall. intros [u v] Huv. apply in_pairwise in Huv as [Hu Hv].
        apply is_between_outside. right. split; [exact (Hhi' u Hu) | exact (Hhi' v Hv)]. }
    cbn [filter fst snd].
    rewrite (is_between_true x (c q) (c p)), (is_between_true x (c p) (c r)).
    - reflexivity.
    - apply Q.min_le_iff. left. apply Qle_refl.
    - apply Q.max_le_iff. right. apply Qlt_le_weak. exact Hr.
    - apply Q.min_le_iff. left. apply Qlt_le_weak. exact Hq.
    - apply Q.max_le_iff. right. apply Qle_refl. }
  destruct (proj2 (proj2 (interpolate_bracketing x k (pre ++ q :: p :: r :: post))) Hk
              ltac:(destruct pre; discriminate)) as (fs & Hfs & HF).
  fold c in HF. rewrite Hfilt in HF.
  inversion HF as [|f1 pr1 fs1 l1 H1 HF1 E1 E2]; subst.
  inversion HF1 as [|f2 pr2 fs2 l2 H2 HF2 E3 E4]; subst.
  inversion HF2; subst.
  destruct f1 as [x1 [y1|]], f2 as [x2 [y2|]]; unfold center_rel in H1, H2;
    cbn [fst snd] in H1, H2; fold c in H1, H2.
  - destruct H1 as [-> [Hn1 Hy1]], H2 as [-> [Hn2 Hy2]].
    exists y1, y2. split; [exact Hfs|].
    unfold spec_lerp in Hy1, Hy2. fold x in Hy1, Hy2. split.
    + rewrite Hy1. field. intro E. apply Hn1. lra.
    + rewrite Hy2. setoid_replace (x - x) with 0 by ring. unfold Qdiv. rewrite Qmult_0_l. ring.
  - exfalso. destruct H2 as [_ E]. fold x in E. lra.
  - exfalso. destruct H1 as [_ E]. fold x in E. lra.
  - exfalso. destruct H1 as [_ E]. fold x in E. lra.
Qed.

(** Along the second dimension, at the interior control point (3, 1) of
    five: two fragments at 1, both centered on 3. *)
Lemma interpolate_shared_point_twice_witness :
  exists y1 y2,
    interpolate_intersecting_fragments 1 1 [(0, -1); (1, 0); (3, 1); (5, 2); (7, 3)]%Q =
      Some [(1%Q, Fl y1); (1%Q, Fl y2)] /\ y1 == 3 /\ y2 == 3.
Proof.
  assert (Hk : (1 <= 1)%nat) by lia.
  assert (Hs : Sorted Qlt (map (pattern_coord 1) ([(0, -1)] ++ (1, 0) :: (3, 1) :: (5, 2) :: [(7, 3)])%Q)).
  { cbn. repeat constructor. }
  exact (interpolate_shared_point_twice 1 [(0, -1)]%Q [(7, 3)]%Q (1, 0)%Q (3, 1)%Q (5, 2)%Q Hk Hs).
Defined.

End PatternFacts.

Module CompositeFacts.
Import Composite PatternFacts.

Lemma lookup_app_str k (l1 l2 : list (string * Q)) :
  lookup String.eqb k (app l1 l2) =
  match lookup String.eqb k l1 with Some v => Some v | None => lookup String.eqb k l2 end.
Proof.
  induction l1 as [|[k1 v1] l1 IH]; simpl; [reflexivity|].
  destruct (String.eqb k k1); [reflexivity | exact IH].
Qed.

Lemma lookup_set_all k L d :
  lookup String.eqb k (set_all L d) =
  match lookup String.eqb k (rev L) with Some v => Some v | None => lookup String.eqb k d end.
Proof.
  unfold set_all. revert d. induction L as [|[k1 v1] L IH]; intros d; simpl; [reflexivity|].
  rewrite IH, lookup_app_str. simpl.
  rewrite (lookup_setitem_eq String.eqb string_eqb_iff).
  destruct (lookup String.eqb k (rev L)); [reflexivity|].
  destruct (String.eqb k k1); reflexivity.
Qed.

Lemma keys_setitem k k' (v : Q) d :
  In k (map fst (setitem String.eqb k' v d)) <-> k' = k \/ In k (map fst d).
Proof.
  induction d as [|[k1 v1] d IH]; simpl; [tauto|].
  destruct (String.eqb k' k1) eqn:E; simpl.
  - apply String.eqb_eq in E. subst k1. tauto.
  - rewrite IH. tauto.
Qed.

Lemma keys_set_all k L d :
  In k (map fst (set_all L d)) <-> In k (map fst L) \/ In k (map fst d).
Proof.
  unfold set_all. revert d. induction L as [|[k1 v1] L IH]; intros d; simpl; [tauto|].
  rewrite IH, keys_setitem. tauto.
Qed.

Lemma setitem_NoDup k (v : Q) d :
  NoDup (map fst d) -> NoDup (map fst (setitem String.eqb k v d)).
Proof.
  induction d as [|[k1 v1] d IH]; simpl; intros Hnd; [constructor; [intros []|constructor]|].
  inversion Hnd as [|? ? Hn Hnd']; subst.
  destruct (String.eqb k k1) eqn:E; simpl; [exact Hnd|].
  constructor; [|exact (IH Hnd')].
  rewrite keys_setitem. intros [<-|H]; [|exact (Hn H)].
  rewrite String.eqb_refl in E. discriminate.
Qed.

Lemma set_all_NoDup L d : NoDup (map fst d) -> NoDup (map fst (set_all L d)).
Proof.
  unfold set_all. revert d. induction L as [|[k1 v1] L IH]; intros d Hnd; simpl; [exact Hnd|].
  apply IH, setitem_NoDup, Hnd.
Qed.

Lemma lookup_nodup_iff k (v : Q) d :
  NoDup (map fst d) -> lookup String.eqb k d = Some v <-> In (k, v) d.
Proof.
  intros Hnd. split; [apply (lookup_In String.eqb string_eqb_iff)|].
  induction d as [|[k1 v1] d IH]; simpl; [intros []|].
  inversion Hnd as [|? ? Hn Hnd']; subst.
  intros [E|Hin].
  - injection E as -> ->. rewrite String.eqb_refl. reflexivity.
  - destruct (String.eqb k k1) eqn:E.
    + apply String.eqb_eq in E. subst k1. exfalso. apply Hn.
      apply (in_map fst) in Hin. exact Hin.
    + exact (IH Hnd' Hin).
Qed.

Lemma lookup_rev_nodup k (d : list (string * Q)) :
  NoDup (map fst d) -> lookup String.eqb k (rev d) = lookup String.eqb k d.
Proof.
  intros Hnd.
  assert (Hnd' : NoDup (map fst (rev d))) by (rewrite map_rev; apply NoDup_rev; exact Hnd).
  destruct (lookup String.eqb k d) as [v|] eqn:E.
  - apply (lookup_nodup_iff _ _ _ Hnd) in E. apply (lookup_nodup_iff _ _ _ Hnd').
    apply in_rev. rewrite rev_involutive. exact E.
  - destruct (lookup String.eqb k (rev d)) as [v|] eqn:E'; [|reflexivity].
    apply (lookup_nodup_iff _ _ _ Hnd') in E'. apply in_rev in E'.
    apply (lookup_nodup_iff _ _ _ Hnd) in E'. congruence.
Qed.

Lemma fold_update_flat_map (g : Leaf -> list (string * Q)) L d :
  fold_left (fun acc c => update String.eqb acc (g c)) L d = set_all (flat_map g L) d.
Proof.
  unfold set_all. revert d. induction L as [|c L IH]; intros d; simpl; [reflexivity|].
  rewrite IH, fold_left_app. reflexivity.
Qed.

Lemma keys_flat_map (g : Leaf -> list (string * Q)) L k :
  In k (map fst (flat_map g L)) <-> exists c, In c L /\ In k (map fst (g c)).
Proof.
  rewrite flat_map_concat_map, concat_map, map_map, <- flat_map_concat_map, in_flat_map.
  reflexivity.
Qed.

Lemma make_params_keys m k : In k (map fst (make_params m)) <-> In k (param_names m).
Proof.
  unfold make_params. change (fold_left _ ?L []) with (set_all L []).
  rewrite keys_set_all. simpl. unfold param_names.
  rewrite keys_flat_map, in_flat_map. unfold leaf_param_names.
  split; [intros [[c [Hc Hk]] | []] | intros [c [Hc Hk]]; left]; exists c; split; auto;
    rewrite map_map in *; exact Hk.
Qed.

Lemma param_names_add a b n : param_names (XAdditive a b n) = app (param_names a) (param_names b).
Proof. unfold param_names. simpl. apply flat_map_app. Qed.

Lemma lookup_filter_in (P : list string) k (ps : list (string * Q)) :
  In k P -> lookup String.eqb k (filter (fun kv => existsb (String.eqb (fst kv)) P) ps) =
            lookup String.eqb k ps.
Proof.
  intros Hk. induction ps as [|[k1 v1] ps IH]; simpl; [reflexivity|].
  destruct (String.eqb k k1) eqn:E.
  - apply String.eqb_eq in E. subst k1.
    assert (Hex : existsb (String.eqb k) P = true)
      by (apply existsb_exists; exists k; split; [exact Hk | apply String.eqb_refl]).
    rewrite Hex. simpl. rewrite String.eqb_refl. reflexivity.
  - destruct (existsb (String.eqb k1) P); simpl; [rewrite E|]; exact IH.
Qed.

Lemma eval_ext m ps ps' x :
  (forall k, In k (param_names m) -> lookup String.eqb k ps = lookup String.eqb k ps') ->
  eval m ps x = eval m ps' x.
Proof.
  induction m as [l | a IHa b IHb n]; intros H; simpl.
  - f_equal. unfold leaf_args. apply map_ext_in. intros nm Hn.
    rewrite H; [reflexivity|]. unfold param_names. simpl. rewrite app_nil_r.
    unfold leaf_param_names. apply in_map. exact Hn.
  - rewrite param_names_add in H.
    rewrite IHa, IHb; [reflexivity | |]; intros k Hk; apply H, in_or_app; auto.
Qed.

Lemma eval_restrict m ps x : eval m (restrict m ps) x = eval m ps x.
Proof. apply eval_ext. intros k Hk. unfold restrict. apply lookup_filter_in, Hk. Qed.

(** C9: for models [A] and [B] whose sum [A + B] is built (their [n_dims]
    agree), the composite [C] evaluates at every [x] and parameter set to the
    sum of [A] and [B] evaluated on their own prefixed parameters; its
    components are [A]'s followed by [B]'s; and its guess holds, for every key,
    the value guessed for it by the last component whose guess has the key,
    or else the default of [make_params], over the union of the composite's
    parameter names and every component's guessed names. *)
Theorem add_eval_sum_guess_merge A B C params x data xs :
  __add__ A B = Some C ->
  eval C params x = (eval A (restrict A params) x + eval B (restrict B params) x)%Q /\
  components C = app (components A) (components B) /\
  param_names C = app (param_names A) (param_names B) /\
  (forall k, lookup String.eqb k (guess C data xs) =
     match lookup String.eqb k (rev (flat_map (fun c => leaf_guess c data xs) (components C))) with
     | Some v => Some v
     | None => lookup String.eqb k (make_params C)
     end) /\
  (forall k, In k (map fst (guess C data xs)) <->
     In k (param_names C) \/
     exists c, In c (components C) /\ In k (map fst (leaf_guess c data xs))).
Proof.
  unfold __add__. destruct (Nat.eqb (n_dims A) (n_dims B)); [|discriminate].
  intros [= <-].
  set (gs := flat_map (fun c => leaf_guess c data xs) (components (XAdditive A B (n_dims B)))).
  assert (Hg : guess (XAdditive A B (n_dims B)) data xs =
               set_all (set_all gs []) (make_params (XAdditive A B (n_dims B)))).
  { unfold guess. cbv zeta. rewrite fold_update_flat_map. reflexivity. }
  split; [simpl; rewrite !eval_restrict; reflexivity|].
  split; [reflexivity|].
  split; [apply param_names_add|].
  split.
  - intros k. rewrite Hg, lookup_set_all, lookup_rev_nodup
      by (apply set_all_NoDup; constructor).
    rewrite lookup_set_all. destruct (lookup String.eqb k (rev gs)); reflexivity.
  - intros k. rewrite Hg, keys_set_all, keys_set_all, make_params_keys.
    unfold gs. rewrite keys_flat_map. simpl. tauto.
Qed.

(** Two leaves [l0_] and [l1_] evaluated at 5. *)
Lemma add_eval_sum_guess_merge_witness :
  exists C, __add__ (ex_leaf "l0_" 1) (ex_leaf "l1_" 3) = Some C /\
    eval C [("l0_center"%string, 1%Q); ("l0_sigma"%string, 2%Q);
            ("l1_center"%string, 3%Q); ("l1_sigma"%string, 1%Q)] 5 =
    (eval (ex_leaf "l0_" 1) [("l0_center"%string, 1%Q); ("l0_sigma"%string, 2%Q)] 5 +
     eval (ex_leaf "l1_" 3) [("l1_center"%string, 3%Q); ("l1_sigma"%string, 1%Q)] 5)%Q.
Proof.
  destruct (__add__ (ex_leaf "l0_" 1) (ex_leaf "l1_" 3)) as [C|] eqn:H; [|vm_compute in H; discriminate].
  exists C. split; [reflexivity|].
  exact (proj1 (add_eval_sum_guess_merge _ _ _
                  [("l0_center"%string, 1%Q); ("l0_sigma"%string, 2%Q);
                   ("l1_center"%string, 3%Q); ("l1_sigma"%string, 1%Q)] 5 [] [] H)).
Defined.

End CompositeFacts.
